(** * Autoclassification of failure lines (treeherder.autoclassify)

    A shallow embedding of [treeherder/autoclassify/matchers.py], of
    [treeherder/autoclassify/management/commands/autoclassify.py] and of the
    grouping of lines in
    [treeherder/autoclassify/management/commands/es_benchmark.py], with what
    they call of their libraries: the algorithms of Python's
    [difflib.SequenceMatcher] behind [MatchScorer], the queryset operations of
    the matchers ([filter], [exclude], [order_by], [first]) as operations on
    the list of rows, and [Pool.map] with an explicit order in which its tasks
    finish.

    Conventions of the embedding:
    - a Python string is a [list ascii] (a [string] in records);
    - indices into sequences are [nat];
    - a number is the rational [Q] it is equal to.  A [float] is a binary
      number of 53 significant bits ([Float]): [2.0 * matches / length]
      rounds as Python does, and the literals [0.7] and [0.9] are the floats
      nearest to 7/10 and 9/10, which are not these fractions.  A score read
      from the store is a decimal, and [8 * score / 10] on it is exact.
      Python compares a decimal and a float by their values, as [Q] does;
    - a Python [dict] is a [gmap], a [set] a [gset] or, for model instances,
      a map from primary keys;
    - an exception is the [Fault] outcome of the [Result] type;
    - loops that Python runs until a condition fails ([while]) take a number
      of turns that is proved to be enough. *)

From Stdlib Require Import Ascii String QArith Lqa.
From Stdlib Require Import Qround Qpower.
From Stdlib Require Import Permutation.
From stdpp Require Import gmap gmultiset strings list sorting.
Import Ascii.

Open Scope nat_scope.

(** ** Python floats *)

(** A Python [float] is an IEEE 754 binary64 number.  A finite one is the
    rational it is equal to; an operation on floats gives the exact result
    rounded to 53 significant bits, to the nearest such number and to the
    one with an even last bit in a tie.  The range of the exponent is not
    modelled (no overflow, no subnormal numbers): the quotients of sequence
    lengths that the code computes are far inside it. *)
Module Float.

Definition prec : Z := 53.

(** The integer nearest to [v], the even one of two at the same distance. *)
Definition nearest_even (v : Q) : Z :=
  let f := Qfloor v in
  match (v - inject_Z f ?= 1 # 2)%Q with
  | Lt => f
  | Gt => (f + 1)%Z
  | Eq => if Z.even f then f else (f + 1)%Z
  end.

(** For [0 < x]: the [e] with [2 ^ e <= x < 2 ^ (e + 1)]. *)
Definition exponent (x : Q) : Z :=
  let e := (Z.log2 (Qnum x) - Z.log2 (Z.pos (Qden x)))%Z in
  if Qle_bool (2 ^ e) x then e else (e - 1)%Z.

(** Rounding of a positive number to [prec] significant bits, as a reduced
    fraction. *)
Definition round_pos (x : Q) : Q :=
  let s := (prec - 1 - exponent x)%Z in
  Qred (inject_Z (nearest_even (x * 2 ^ s)) * 2 ^ (- s))%Q.

Definition round (x : Q) : Q :=
  match (x ?= 0)%Q with
  | Eq => 0%Q
  | Gt => round_pos x
  | Lt => (- round_pos (- x))%Q
  end.

(** The numbers of [prec] significant bits. *)
Definition representable (x : Q) : Prop :=
  exists m e : Z, (Z.abs m <= 2 ^ prec)%Z /\ x == inject_Z m * 2 ^ e.

(** A literal: the float nearest to the number written. *)
Definition literal (x : Q) : Q := round x.

(** [float(n)] for an [int] or [long] *)
Definition of_int (n : Z) : Q := round (inject_Z n).

(** [x * y] and [x / y] on floats *)
Definition mul (x y : Q) : Q := round (x * y).

Definition div (x y : Q) : Q := round (x / y).

End Float.

(** ** difflib.SequenceMatcher *)

Module Difflib.

(** A matching block [(i, j, k)]: [a[i:i+k] == b[j:j+k]]. *)
Definition Block : Type := nat * nat * nat.

(** A region [(alo, ahi, blo, bhi)] of the work queue. *)
Definition Region : Type := nat * nat * nat * nat.

Definition block_size (x : Block) : nat := x.2.

Fixpoint enumerate_from (i : nat) (b : list ascii) : list (nat * ascii) :=
  match b with
  | [] => []
  | elt :: r => (i, elt) :: enumerate_from (S i) r
  end.

(** [for i, elt in enumerate(b): b2j.setdefault(elt, []).append(i)] *)
Definition index_b (b : list ascii) : gmap ascii (list nat) :=
  fold_left (fun (m : gmap ascii (list nat)) (p : nat * ascii) =>
               <[p.2 := default [] (m !! p.2) ++ [p.1]]> m)
            (enumerate_from 0 b) ∅.

Section Matcher.

(** The [isjunk] argument of the constructor; [autojunk] keeps its
    default, [True]. *)
Variable isjunk : ascii -> bool.

(** The junk keys of [b2j], purged from it. *)
Definition junk_of (b : list ascii) : gset ascii :=
  dom (filter (fun kv : ascii * list nat => isjunk kv.1 = true) (index_b b)).

Definition purge_junk (b : list ascii) : gmap ascii (list nat) :=
  filter (fun kv : ascii * list nat => isjunk kv.1 = false) (index_b b).

(** [n // 100 + 1] *)
Definition ntest (b : list ascii) : nat := length b / 100 + 1.

Definition autojunk_on (b : list ascii) : bool := 200 <=? length b.

(** The popular keys, purged when [len(b) >= 200]. *)
Definition popular_of (b : list ascii) : gset ascii :=
  if autojunk_on b
  then dom (filter (fun kv : ascii * list nat => ntest b < length kv.2)
                   (purge_junk b))
  else ∅.

(** [__chain_b]: the index [b2j] left after both purges. *)
Definition chain_b (b : list ascii) : gmap ascii (list nat) :=
  if autojunk_on b
  then filter (fun kv : ascii * list nat => ¬ (ntest b < length kv.2))
              (purge_junk b)
  else purge_junk b.

Definition isbjunk (b : list ascii) (c : ascii) : bool :=
  bool_decide (c ∈ junk_of b).

Definition isbpopular (b : list ascii) (c : ascii) : bool :=
  bool_decide (c ∈ popular_of b).

Section FindLongestMatch.

Variables a b : list ascii.
Variables alo ahi blo bhi : nat.

(** [j2lenget(j-1, 0)]: the key [-1] is never present. *)
Definition j2lenget (j2len : gmap nat nat) (j : nat) : nat :=
  match j with
  | 0 => 0
  | S j' => default 0 (j2len !! j')
  end.

(** The loop [for j in b2j.get(a[i], nothing)], with its [continue]
    and its [break].  [i-k+1] is written [i+1-k]. *)
Fixpoint scan_js (i : nat) (j2len : gmap nat nat) (js : list nat)
         (newj2len : gmap nat nat) (best : Block)
  : gmap nat nat * Block :=
  match js with
  | [] => (newj2len, best)
  | j :: js' =>
      if j <? blo then scan_js i j2len js' newj2len best
      else if bhi <=? j then (newj2len, best)
      else
        let k := j2lenget j2len j + 1 in
        let best' := if best.2 <? k then (i + 1 - k, j + 1 - k, k)
                     else best in
        scan_js i j2len js' (<[j := k]> newj2len) best'
  end.

Definition b2j_get (i : nat) : list nat :=
  match a !! i with
  | Some c => default [] (chain_b b !! c)
  | None => []
  end.

(** The loop [for i in xrange(alo, ahi)]. *)
Fixpoint scan_is (idxs : list nat) (j2len : gmap nat nat) (best : Block)
  : Block :=
  match idxs with
  | [] => best
  | i :: idxs' =>
      let r := scan_js i j2len (b2j_get i) ∅ best in
      scan_is idxs' r.1 r.2
  end.

Definition junk_free_match : Block :=
  scan_is (seq alo (ahi - alo)) ∅ (alo, blo, 0).

(** [a[i] == b[j]] and [isbjunk(b[j])] is [want]. *)
Definition same_at (want : bool) (i j : nat) : bool :=
  match a !! i, b !! j with
  | Some x, Some y =>
      bool_decide (x = y) && bool_decide (isbjunk b y = want)
  | _, _ => false
  end.

(** [while besti > alo and bestj > blo and ...]: each turn lowers
    [besti], so [besti] turns are enough. *)
Fixpoint extend_down (want : bool) (fuel : nat) (x : Block) : Block :=
  match fuel with
  | 0 => x
  | S fuel' =>
      let '(besti, bestj, bestsize) := x in
      if (alo <? besti) && (blo <? bestj)
         && same_at want (besti - 1) (bestj - 1)
      then extend_down want fuel' (besti - 1, bestj - 1, bestsize + 1)
      else x
  end.

(** [while besti+bestsize < ahi and bestj+bestsize < bhi and ...]:
    each turn raises [besti+bestsize], so [ahi] turns are enough. *)
Fixpoint extend_up (want : bool) (fuel : nat) (x : Block) : Block :=
  match fuel with
  | 0 => x
  | S fuel' =>
      let '(besti, bestj, bestsize) := x in
      if (besti + bestsize <? ahi) && (bestj + bestsize <? bhi)
         && same_at want (besti + bestsize) (bestj + bestsize)
      then extend_up want fuel' (besti, bestj, bestsize + 1)
      else x
  end.

Definition find_longest_match : Block :=
  let x0 := junk_free_match in
  let x1 := extend_down false x0.1.1 x0 in
  let x2 := extend_up false ahi x1 in
  let x3 := extend_down true x2.1.1 x2 in
  extend_up true ahi x3.

End FindLongestMatch.

(** The [while queue:] loop of [get_matching_blocks].  The head of the
    list is the end of the Python list ([pop] and [append] work there).
    [None]: the fuel ran out with work left. *)
Fixpoint blocks_loop (a b : list ascii) (fuel : nat) (queue : list Region)
         (matching_blocks : list Block) : option (list Block) :=
  match queue with
  | [] => Some matching_blocks
  | (alo, ahi, blo, bhi) :: queue' =>
      match fuel with
      | 0 => None
      | S fuel' =>
          let x := find_longest_match a b alo ahi blo bhi in
          let '(i, j, k) := x in
          if k =? 0 then blocks_loop a b fuel' queue' matching_blocks
          else
            let q1 := if (alo <? i) && (blo <? j)
                      then (alo, i, blo, j) :: queue' else queue' in
            let q2 := if (i + k <? ahi) && (j + k <? bhi)
                      then (i + k, ahi, j + k, bhi) :: q1 else q1 in
            blocks_loop a b fuel' q2 (matching_blocks ++ [x])
      end
  end.

(** Tuple comparison of [matching_blocks.sort()]. *)
Definition block_le (x y : Block) : Prop :=
  x.1.1 < y.1.1 ∨
  (x.1.1 = y.1.1 ∧ (x.1.2 < y.1.2 ∨ (x.1.2 = y.1.2 ∧ x.2 <= y.2))).

Definition block_le_dec : RelDecision block_le :=
  fun x y =>
    (_ : Decision (x.1.1 < y.1.1 ∨
                   (x.1.1 = y.1.1 ∧
                    (x.1.2 < y.1.2 ∨ (x.1.2 = y.1.2 ∧ x.2 <= y.2))))).

#[global] Existing Instance block_le_dec.

(** The loop that collapses adjacent blocks. *)
Fixpoint collapse (cur : Block) (blocks : list Block) (non_adjacent : list Block)
  : list Block :=
  match blocks with
  | [] => if cur.2 =? 0 then non_adjacent else non_adjacent ++ [cur]
  | (i2, j2, k2) :: rest =>
      let '(i1, j1, k1) := cur in
      if (i1 + k1 =? i2) && (j1 + k1 =? j2)
      then collapse (i1, j1, k1 + k2) rest non_adjacent
      else collapse (i2, j2, k2) rest
             (if k1 =? 0 then non_adjacent else non_adjacent ++ [cur])
  end.

Definition loop_fuel (a : list ascii) : nat := 2 * length a + 1.

Definition raw_blocks (a b : list ascii) : option (list Block) :=
  blocks_loop a b (loop_fuel a) [(0, length a, 0, length b)] [].

Definition get_matching_blocks (a b : list ascii) : option (list Block) :=
  match raw_blocks a b with
  | Some bl =>
      Some (collapse (0, 0, 0) (merge_sort block_le bl) []
              ++ [(length a, length b, 0)])
  | None => None
  end.

Definition sum_sizes (bl : list Block) : nat :=
  fold_left (fun sum triple => sum + block_size triple) bl 0.

(** [_calculate_ratio]: [2.0 * matches / length] when [length] is not 0, and
    [1.0]. *)
Definition calculate_ratio (matches length : nat) : Q :=
  if length =? 0 then 1%Q
  else Float.div (Float.mul 2 (Float.of_int (Z.of_nat matches)))
                 (Float.of_int (Z.of_nat length)).

(** The [None] branch is never taken: the loop ends within its fuel. *)
Definition ratio (a b : list ascii) : Q :=
  match get_matching_blocks a b with
  | Some bl => calculate_ratio (sum_sizes bl) (length a + length b)
  | None => 0%Q
  end.

(** [fullbcount] *)
Definition fullbcount (b : list ascii) : gmap ascii nat :=
  fold_left (fun (m : gmap ascii nat) elt => <[elt := default 0 (m !! elt) + 1]> m)
            b ∅.

(** The loop of [quick_ratio]; [avail] holds integers that go below 0. *)
Fixpoint quick_loop (full : gmap ascii nat) (a : list ascii)
         (avail : gmap ascii Z) (matches : nat) : nat :=
  match a with
  | [] => matches
  | elt :: a' =>
      let numb := match avail !! elt with
                  | Some n => n
                  | None => Z.of_nat (default 0 (full !! elt))
                  end in
      quick_loop full a' (<[elt := (numb - 1)%Z]> avail)
                 (if (0 <? numb)%Z then matches + 1 else matches)
  end.

Definition quick_matches (a b : list ascii) : nat :=
  quick_loop (fullbcount b) a ∅ 0.

Definition quick_ratio (a b : list ascii) : Q :=
  calculate_ratio (quick_matches a b) (length a + length b).

End Matcher.

End Difflib.

(** ** Data model (treeherder.model.models, as the matchers use it) *)

(** Python exceptions that the modelled code can raise.  [PoolIncomplete]
    stands for a map of the pool that never returns, because its schedule
    leaves a task out. *)
Inductive exn : Type :=
| KeyError
| TypeError
| DoesNotExist
| BackendError (code : nat)
| PoolIncomplete.

Inductive Result (A : Type) : Type :=
| Ok (x : A)
| Fault (e : exn).

Arguments Ok {A} x.
Arguments Fault {A} e.

Module FailureLine.
Record t : Type := mk {
  id : nat;
  job_guid : string;
  action : string;
  test : option string;
  subtest : option string;
  status : string;
  expected : string;
  message : option string;
  signature : option string;
  best_classification : option nat;
  best_is_verified : bool
}.

Definition set_best_classification (fl : t) (cf : nat) : t :=
  mk (id fl) (job_guid fl) (action fl) (test fl) (subtest fl) (status fl)
     (expected fl) (message fl) (signature fl) (Some cf)
     (best_is_verified fl).
End FailureLine.

Module FailureMatch.
Record t : Type := mk {
  failure_line : nat;
  classified_failure : nat;
  matcher : nat;
  score : Q
}.
End FailureMatch.

(** [Match = namedtuple('Match', ['failure_line', 'classified_failure', 'score'])] *)
Module Match.
Record t : Type := mk {
  failure_line : FailureLine.t;
  classified_failure : nat;
  score : Q
}.
End Match.

Module Job.
Record t : Type := mk {
  id : nat;
  result : string
}.
End Job.

(** The tables the code reads and writes.  [notified] records the calls of
    [jm.update_after_autoclassification]. *)
Record Store : Type := mkStore {
  jobs : gmap string Job.t;
  failure_lines : gmap nat FailureLine.t;
  failure_matches : list FailureMatch.t;
  classified_failures : gset nat;
  notified : list nat
}.

(** A [FailureMatch] row joined with its [failure_line]. *)
Definition Row : Type := FailureMatch.t * FailureLine.t.

Definition joined (db : Store) : list Row :=
  omap (fun fm : FailureMatch.t =>
          match failure_lines db !! FailureMatch.failure_line fm with
          | Some fl => Some (fm, fl)
          | None => None
          end)
       (failure_matches db).

(** [queryset.order_by(...).first()]: the row that no other row sorts
    strictly before; [before x y] says that [x] sorts strictly before [y]. *)
Fixpoint first_from {A : Type} (before : A -> A -> bool) (cur : A) (l : list A) : A :=
  match l with
  | [] => cur
  | x :: r => first_from before (if before x cur then x else cur) r
  end.

Definition first_by {A : Type} (before : A -> A -> bool) (l : list A) : option A :=
  match l with
  | [] => None
  | x :: r => Some (first_from before x r)
  end.

Definition Qgt_bool (x y : Q) : bool := negb (Qle_bool x y).

(** ** treeherder/autoclassify/matchers.py *)

Module Matchers.

(** [ignored_line = Q(failure_line__best_classification=None) &
                    Q(failure_line__best_is_verified=True)] *)
Definition ignored_line (row : Row) : bool :=
  bool_decide (FailureLine.best_classification row.2 = None)
  && bool_decide (FailureLine.best_is_verified row.2 = true).

(** [ignored_line | Q(failure_line__job_guid=failure_line.job_guid)] *)
Definition excluded (failure_line : FailureLine.t) (row : Row) : bool :=
  ignored_line row
  || bool_decide (FailureLine.job_guid row.2 = FailureLine.job_guid failure_line).

(** [order_by("-score", "-classified_failure__id")] *)
Definition by_score_then_id (x y : Row) : bool :=
  Qgt_bool (FailureMatch.score x.1) (FailureMatch.score y.1)
  || (Qeq_bool (FailureMatch.score x.1) (FailureMatch.score y.1)
      && (FailureMatch.classified_failure y.1 <? FailureMatch.classified_failure x.1)).

Module PreciseTestMatcher.

Definition same_fields (failure_line : FailureLine.t) (row : Row) : bool :=
  bool_decide (FailureLine.action row.2 = "test_result"%string)
  && bool_decide (FailureLine.test row.2 = FailureLine.test failure_line)
  && bool_decide (FailureLine.subtest row.2 = FailureLine.subtest failure_line)
  && bool_decide (FailureLine.status row.2 = FailureLine.status failure_line)
  && bool_decide (FailureLine.expected row.2 = FailureLine.expected failure_line)
  && bool_decide (FailureLine.message row.2 = FailureLine.message failure_line).

(** [FailureMatch.objects.filter(...).exclude(...)] *)
Definition matching_failures (db : Store) (failure_line : FailureLine.t) : list Row :=
  List.filter (fun row => same_fields failure_line row
                          && negb (excluded failure_line row))
              (joined db).

Definition match_line (db : Store) (failure_line : FailureLine.t) : option Match.t :=
  if bool_decide (FailureLine.action failure_line = "test_result"%string)
  then
    match first_by by_score_then_id (matching_failures db failure_line) with
    | Some best_match =>
        Some (Match.mk failure_line
                       (FailureMatch.classified_failure best_match.1)
                       (FailureMatch.score best_match.1))
    | None => None
    end
  else None.

Definition call (db : Store) (failure_lines : list FailureLine.t) : list Match.t :=
  omap (match_line db) failure_lines.

End PreciseTestMatcher.

Module CrashSignatureMatcher.

Definition same_signature (failure_line : FailureLine.t) (row : Row) : bool :=
  bool_decide (FailureLine.action row.2 = "crash"%string)
  && bool_decide (FailureLine.signature row.2 = FailureLine.signature failure_line).

Definition matching_failures (db : Store) (failure_line : FailureLine.t) : list Row :=
  List.filter (fun row => same_signature failure_line row
                          && negb (excluded failure_line row))
              (joined db).

(** [Eq('failure_line__test', Value(failure_line.test))]: NULL-safe equality. *)
Definition Eq (failure_line : FailureLine.t) (row : Row) : bool :=
  bool_decide (FailureLine.test row.2 = FailureLine.test failure_line).

(** [order_by(Eq(...).desc(), "-score", "-classified_failure__id")] *)
Definition by_test_score_id (failure_line : FailureLine.t) (x y : Row) : bool :=
  (Eq failure_line x && negb (Eq failure_line y))
  || (bool_decide (Eq failure_line x = Eq failure_line y)
      && by_score_then_id x y).

(** [score = 8 * score / 10] when the tests differ. *)
Definition adjusted_score (failure_line : FailureLine.t) (best_match : Row) : Q :=
  if bool_decide (FailureLine.test failure_line ≠ FailureLine.test best_match.2)
  then (8 * FailureMatch.score best_match.1 / 10)%Q
  else FailureMatch.score best_match.1.

Definition match_line (db : Store) (failure_line : FailureLine.t) : option Match.t :=
  if bool_decide (FailureLine.action failure_line ≠ "crash"%string)
     || bool_decide (FailureLine.signature failure_line = None)
  then None
  else
    match first_by (by_test_score_id failure_line)
                   (matching_failures db failure_line) with
    | Some best_match =>
        Some (Match.mk failure_line
                       (FailureMatch.classified_failure best_match.1)
                       (adjusted_score failure_line best_match))
    | None => None
    end.

Definition call (db : Store) (failure_lines : list FailureLine.t) : list Match.t :=
  omap (match_line db) failure_lines.

End CrashSignatureMatcher.

(** *** MatchScorer *)

Module MatchScorer.

(** [lambda x: x == " "] *)
Definition isjunk (x : ascii) : bool := bool_decide (x = " "%char).

(** [self.matcher.ratio()] with [seq1 = message], [seq2 = target]. *)
Definition ratio (target message : list ascii) : Q :=
  Difflib.ratio isjunk message target.

Definition quick_ratio (target message : list ascii) : Q :=
  Difflib.quick_ratio message target.

Section Candidates.

(** The type of the candidates ([match] in the source). *)
Context {A : Type}.

Definition at_least (best_match : option (Q * A)) (r : Q) : bool :=
  match best_match with
  | None => true
  | Some b => Qle_bool b.1 r
  end.

Definition above (best_match : option (Q * A)) (r : Q) : bool :=
  match best_match with
  | None => true
  | Some b => Qgt_bool r b.1
  end.

(** The loop of [best_match]. *)
Fixpoint best_match_from (target : list ascii)
         (matches : list (A * list ascii)) (best_match : option (Q * A))
  : option (Q * A) :=
  match matches with
  | [] => best_match
  | (match_, message) :: rest =>
      let ratio_ := quick_ratio target message in
      let best_match' :=
        if at_least best_match ratio_ then
          let new_ratio := ratio target message in
          if above best_match new_ratio then Some (new_ratio, match_)
          else best_match
        else best_match in
      best_match_from target rest best_match'
  end.

Definition best_match (target : list ascii) (matches : list (A * list ascii))
  : option (Q * A) :=
  best_match_from target matches None.

(** The exhaustive scorer of the specification: the full ratio of every
    candidate, keeping the first one with the strictly greatest ratio. *)
Fixpoint exhaustive_from (target : list ascii)
         (matches : list (A * list ascii)) (best_match : option (Q * A))
  : option (Q * A) :=
  match matches with
  | [] => best_match
  | (match_, message) :: rest =>
      let new_ratio := ratio target message in
      exhaustive_from target rest
        (if above best_match new_ratio then Some (new_ratio, match_)
         else best_match)
  end.

Definition best_match_exhaustive (target : list ascii)
           (matches : list (A * list ascii)) : option (Q * A) :=
  exhaustive_from target matches None.

End Candidates.

End MatchScorer.

(** *** The search backend and the worker pool *)

(** A hit of the search: an indexed [TestFailureLine]. *)
Module Hit.
Record t : Type := mk {
  message : string;
  best_classification : nat
}.
End Hit.

(** The search that [es_match_line] builds: the terms it filters on and the
    phrase it matches (every search also asks for a [best_classification]). *)
Module Query.
Record t : Type := mk {
  test : option string;
  status : string;
  expected : string;
  subtest : option string;
  message : string
}.
End Query.

(** [search.execute()]: the hits, or the exception it raises. *)
Definition Backend : Type := Query.t -> Result (list Hit.t).

(** Python truth of an optional string: [None] and [""] are false. *)
Definition truthy (s : option string) : bool :=
  match s with
  | Some EmptyString => false
  | Some _ => true
  | None => false
  end.

(** The [search] of [es_match_line] for a line. *)
Definition search_of (failure_line : FailureLine.t) : Query.t :=
  Query.mk (FailureLine.test failure_line)
           (FailureLine.status failure_line)
           (FailureLine.expected failure_line)
           (if truthy (FailureLine.subtest failure_line)
            then FailureLine.subtest failure_line else None)
           (default EmptyString (FailureLine.message failure_line)).

(** [es_match_line]: [Ok None] is the bare [return]; a failed search is
    logged and raised again. *)
Definition es_match_line (backend : Backend) (failure_line : FailureLine.t)
  : Result (option (list Hit.t)) :=
  if bool_decide (FailureLine.action failure_line ≠ "test_result"%string)
     || negb (truthy (FailureLine.message failure_line))
  then Ok None
  else
    match backend (search_of failure_line) with
    | Ok resp => Ok (Some resp)
    | Fault e => Fault e
    end.

(** [Pool.map]: the tasks finish in the order [sched] (a list of task
    indices); each result is stored at the index of its task; the first task
    to fail decides the exception of the whole map. *)
Fixpoint run_tasks {A B : Type} (f : A -> Result B) (xs : list A)
         (sched : list nat) (slots : list (option B)) : Result (list (option B)) :=
  match sched with
  | [] => Ok slots
  | i :: rest =>
      match xs !! i with
      | None => run_tasks f xs rest slots
      | Some x =>
          match f x with
          | Ok y => run_tasks f xs rest (<[i := Some y]> slots)
          | Fault e => Fault e
          end
      end
  end.

Fixpoint collect {B : Type} (slots : list (option B)) : Result (list B) :=
  match slots with
  | [] => Ok []
  | None :: _ => Fault PoolIncomplete
  | Some y :: r =>
      match collect r with
      | Ok ys => Ok (y :: ys)
      | Fault e => Fault e
      end
  end.

Definition pool_map {A B : Type} (f : A -> Result B) (xs : list A)
           (sched : list nat) : Result (list B) :=
  match run_tasks f xs sched (replicate (length xs) None) with
  | Ok slots => collect slots
  | Fault e => Fault e
  end.

(** A schedule of a map over [n] tasks runs every task once. *)
Definition schedule_of (n : nat) (sched : list nat) : Prop :=
  Permutation sched (seq 0 n).

(** Modelled from the spec: the decorator [es_connected] of
    treeherder.model.search, which is not among the sources.  Without a
    connection the decorated function is not run and [default] is returned
    (the matcher "short-circuits and returns no matches at all for the
    batch"). *)
Definition es_connected {A B : Type} (connection : bool) (default : B)
           (func : A -> B) (x : A) : B :=
  if connection then func x else default.

Module ElasticSearchTestMatcher.

(** The body of the loop over [izip(failure_lines, responses)].
    [MatchScorer(None)] raises [TypeError] (the target is iterated), and so
    does [for item in resp] when [resp] is [None]; [ClassifiedFailure.objects.get]
    raises [DoesNotExist]. *)
Definition score_line (db : Store) (failure_line : FailureLine.t)
           (resp : option (list Hit.t)) : Result (option Match.t) :=
  match FailureLine.message failure_line with
  | None => Fault TypeError
  | Some target =>
      match resp with
      | None => Fault TypeError
      | Some hits =>
          let matches :=
            map (fun item : Hit.t =>
                   (item, list_ascii_of_string (Hit.message item))) hits in
          match MatchScorer.best_match (list_ascii_of_string target) matches with
          | Some best_match =>
              if bool_decide (Hit.best_classification best_match.2
                              ∈ classified_failures db)
              then Ok (Some (Match.mk failure_line
                                      (Hit.best_classification best_match.2)
                                      best_match.1))
              else Fault DoesNotExist
          | None => Ok None
          end
      end
  end.

Fixpoint score_lines (db : Store)
         (pairs : list (FailureLine.t * option (list Hit.t)))
         (rv : list Match.t) : Result (list Match.t) :=
  match pairs with
  | [] => Ok rv
  | (failure_line, resp) :: rest =>
      match score_line db failure_line resp with
      | Ok (Some m) => score_lines db rest (rv ++ [m])
      | Ok None => score_lines db rest rv
      | Fault e => Fault e
      end
  end.

(** The body of [__call__]. *)
Definition body (backend : Backend) (sched : list nat)
           (db : Store) (failure_lines : list FailureLine.t)
  : Result (list Match.t) :=
  match pool_map (es_match_line backend) failure_lines sched with
  | Ok responses => score_lines db (zip failure_lines responses) []
  | Fault e => Fault e
  end.

(** [__call__] under [@es_connected(default=[])]. *)
Definition call (connection : bool) (backend : Backend) (sched : list nat)
           (db : Store) (failure_lines : list FailureLine.t)
  : Result (list Match.t) :=
  es_connected connection (Ok []) (body backend sched db) failure_lines.

End ElasticSearchTestMatcher.

End Matchers.

(** ** treeherder/autoclassify/management/commands/autoclassify.py *)

Module Autoclassify.

(** The minimum goodness of match needed to mark a match as the best match. *)
Definition AUTOCLASSIFY_CUTOFF_RATIO : Q := Float.literal (7 # 10).

(** A goodness of match after which no further detector is run. *)
Definition AUTOCLASSIFY_GOOD_ENOUGH_RATIO : Q := Float.literal (9 # 10).

(** What a run does to its collaborators, in order. *)
Inductive Event : Type :=
| EGetJob (job_guid : string)
| EUnmatchedForJob (repository job_guid : string)
| ECallMatcher (db_object : nat) (input : list FailureLine.t)
               (output : Result (list Match.t))
| EAddMatch (fm : FailureMatch.t)
| ESaveLine (fl : FailureLine.t)
| ENotify (job_id : nat).

Record World : Type := mkWorld {
  store : Store;
  log : list Event
}.

(** A computation on the world that returns or raises; what was written
    before an exception stays written. *)
Definition M (A : Type) : Type := World -> World * Result A.

Definition ret {A : Type} (x : A) : M A := fun w => (w, Ok x).

Definition raise {A : Type} (e : exn) : M A := fun w => (w, Fault e).

Definition bind {A B : Type} (c : M A) (k : A -> M B) : M B :=
  fun w =>
    match c w with
    | (w', Ok x) => k x w'
    | (w', Fault e) => (w', Fault e)
    end.

Declare Scope run_scope.
Delimit Scope run_scope with run.
Notation "x <- c ;; k" := (bind c (fun x => k))
  (at level 100, c at next level, right associativity) : run_scope.
Notation "c ;;; k" := (bind c (fun _ => k))
  (at level 100, right associativity) : run_scope.

Definition emit (e : Event) : M unit :=
  fun w => (mkWorld (store w) (log w ++ [e]), Ok tt).

Definition read_store : M Store := fun w => (w, Ok (store w)).

Definition write_store (f : Store -> Store) : M unit :=
  fun w => (mkWorld (f (store w)) (log w), Ok tt).

(** A registered matcher: its [db_object] and its [__call__], which reads the
    store. *)
Record Matcher : Type := mkMatcher {
  db_object : nat;
  call : Store -> list FailureLine.t -> Result (list Match.t)
}.

(** A Python [set] of failure lines: model instances are equal when their
    primary keys are. *)
Abbreviation LineSet := (gmap nat FailureLine.t).

(** [set.add]: an element equal to one of the set is not added. *)
Definition set_add (fl : FailureLine.t) (s : LineSet) : LineSet :=
  match s !! FailureLine.id fl with
  | Some _ => s
  | None => <[FailureLine.id fl := fl]> s
  end.

(** [set.remove]: raises [KeyError] when the element is absent. *)
Definition set_remove (fl : FailureLine.t) (s : LineSet) : Result LineSet :=
  match s !! FailureLine.id fl with
  | Some _ => Ok (delete (FailureLine.id fl) s)
  | None => Fault KeyError
  end.

Definition set_of_list (l : list FailureLine.t) : LineSet :=
  fold_left (fun s fl => set_add fl s) l ∅.

(** The lines of a set, in its iteration order. *)
Definition set_items (s : LineSet) : list FailureLine.t :=
  (map_to_list s).*2.

Definition is_empty (s : LineSet) : bool := bool_decide (s = ∅).

Definition add_match (fm : FailureMatch.t) (db : Store) : Store :=
  mkStore (jobs db) (failure_lines db) (failure_matches db ++ [fm])
          (classified_failures db) (notified db).

Definition save_line (fl : FailureLine.t) (db : Store) : Store :=
  mkStore (jobs db) (<[FailureLine.id fl := fl]> (failure_lines db))
          (failure_matches db) (classified_failures db) (notified db).

Definition add_notified (job_id : nat) (db : Store) : Store :=
  mkStore (jobs db) (failure_lines db) (failure_matches db)
          (classified_failures db) (notified db ++ [job_id]).

(** [match.failure_line.matches.add(FailureMatch(...))] *)
Definition matches_add (fm : FailureMatch.t) : M unit :=
  (emit (EAddMatch fm) ;;; write_store (add_match fm))%run.

(** [failure_line.save()] *)
Definition save (fl : FailureLine.t) : M unit :=
  (emit (ESaveLine fl) ;;; write_store (save_line fl))%run.

(** [jm.update_after_autoclassification(job_id)] *)
Definition update_after_autoclassification (job_id : nat) : M unit :=
  (emit (ENotify job_id) ;;; write_store (add_notified job_id))%run.

(** [jm.get_job_ids_by_guid([job_guid]).get(job_guid)] *)
Definition get_job (job_guid : string) : M (option Job.t) :=
  (emit (EGetJob job_guid) ;;;
   db <- read_store ;; ret (jobs db !! job_guid))%run.

(** Highest score first, then highest classified-failure id. *)
Definition sorts_before (x y : FailureMatch.t) : bool :=
  Qgt_bool (FailureMatch.score x) (FailureMatch.score y)
  || (Qeq_bool (FailureMatch.score x) (FailureMatch.score y)
      && (FailureMatch.classified_failure y <? FailureMatch.classified_failure x)).

(** Modelled from the spec: [FailureLine.best_automatic_match] of
    treeherder.model.models, which is not among the sources: "the
    highest-scoring FailureMatch for that line with score >= a configured
    CUTOFF threshold, tie-broken by highest classified-failure id". *)
Definition best_automatic_match (db : Store) (failure_line : FailureLine.t)
           (min_score : Q) : option FailureMatch.t :=
  first_by sorts_before
           (List.filter (fun fm : FailureMatch.t =>
                           (FailureMatch.failure_line fm
                            =? FailureLine.id failure_line)
                           && Qle_bool min_score (FailureMatch.score fm))
                        (failure_matches db)).

Section Run.

(** [FailureLine.objects.unmatched_for_job] and
    [Matcher.objects.registered_matchers] belong to treeherder.model.models;
    the run is stated for any. *)
Variable unmatched_for_job : Store -> string -> string -> list FailureLine.t.
Variable registered_matchers : list Matcher.

(** The body of [for match in matches]. *)
Definition record_match (matcher : Matcher) (m : Match.t)
           (sets : LineSet * LineSet) : M (LineSet * LineSet) :=
  (matches_add (FailureMatch.mk (FailureLine.id (Match.failure_line m))
                                (Match.classified_failure m)
                                (db_object matcher)
                                (Match.score m)) ;;;
   save (Match.failure_line m) ;;;
   let all_matched := set_add (Match.failure_line m) sets.2 in
   if Qle_bool AUTOCLASSIFY_GOOD_ENOUGH_RATIO (Match.score m)
   then match set_remove (Match.failure_line m) sets.1 with
        | Ok unmatched_failures => ret (unmatched_failures, all_matched)
        | Fault e => raise e
        end
   else ret (sets.1, all_matched))%run.

Fixpoint record_matches (matcher : Matcher) (matches : list Match.t)
         (sets : LineSet * LineSet) : M (LineSet * LineSet) :=
  match matches with
  | [] => ret sets
  | m :: rest =>
      (sets' <- record_match matcher m sets ;;
       record_matches matcher rest sets')%run
  end.

(** [matches = matcher(unmatched_failures)] *)
Definition call_matcher (matcher : Matcher) (unmatched_failures : LineSet)
  : M (list Match.t) :=
  fun w =>
    let input := set_items unmatched_failures in
    let output := call matcher (store w) input in
    (mkWorld (store w)
             (log w ++ [ECallMatcher (db_object matcher) input output]),
     output).

(** [for matcher in Matcher.objects.registered_matchers()], with its
    [break]. *)
Fixpoint run_matchers (matchers : list Matcher) (sets : LineSet * LineSet)
  : M (LineSet * LineSet) :=
  match matchers with
  | [] => ret sets
  | matcher :: rest =>
      (matches <- call_matcher matcher sets.1 ;;
       sets' <- record_matches matcher matches sets ;;
       if is_empty sets'.1 then ret sets'
       else run_matchers rest sets')%run
  end.

(** The body of [for failure_line in all_matched]. *)
Definition resolve_best (failure_line : FailureLine.t) : M unit :=
  (db <- read_store ;;
   match best_automatic_match db failure_line AUTOCLASSIFY_CUTOFF_RATIO with
   | Some best_match =>
       save (FailureLine.set_best_classification failure_line
               (FailureMatch.classified_failure best_match))
   | None => ret tt
   end)%run.

Fixpoint resolve_all (lines : list FailureLine.t) : M unit :=
  match lines with
  | [] => ret tt
  | failure_line :: rest =>
      (resolve_best failure_line ;;; resolve_all rest)%run
  end.

Definition failure_status (result : string) : bool :=
  bool_decide (result ∈ ["testfailed"; "busted"; "exception"]%string).

Definition match_errors (repository job_guid : string) : M unit :=
  (job <- get_job job_guid ;;
   match job with
   | None => ret tt
   | Some job =>
       if negb (failure_status (Job.result job)) then ret tt
       else
         emit (EUnmatchedForJob repository job_guid) ;;;
         db <- read_store ;;
         let unmatched_failures :=
           set_of_list (unmatched_for_job db repository job_guid) in
         if is_empty unmatched_failures then ret tt
         else
           sets <- run_matchers registered_matchers (unmatched_failures, ∅) ;;
           resolve_all (set_items sets.2) ;;;
           if is_empty sets.2 then ret tt
           else update_after_autoclassification (Job.id job)
   end)%run.

End Run.

End Autoclassify.

(** ** treeherder/autoclassify/management/commands/es_benchmark.py *)

Module EsBenchmark.

(** [failure_lines_by_job[line.job_guid].append(line)] on a
    [defaultdict(list)]. *)
Definition append_line (by_job : gmap string (list FailureLine.t))
           (line : FailureLine.t) : gmap string (list FailureLine.t) :=
  <[FailureLine.job_guid line :=
      default [] (by_job !! FailureLine.job_guid line) ++ [line]]> by_job.

(** The loop [for line in failure_lines]. *)
Definition failure_lines_by_job (failure_lines : list FailureLine.t)
  : gmap string (list FailureLine.t) :=
  fold_left append_line failure_lines ∅.

(** [total_lines] after the loop over [failure_lines_by_job.iteritems()]. *)
Definition total_lines (by_job : gmap string (list FailureLine.t)) : nat :=
  map_fold (fun _ failure_lines total => total + length failure_lines) 0 by_job.

End EsBenchmark.

(** ** Vocabulary of the statements *)

Import Difflib Matchers Autoclassify.

(** *** Sequences *)

Definition mset (l : list ascii) : gmultiset ascii := list_to_set_disj l.

(** [l[lo:hi]] *)
Definition slice (l : list ascii) (lo hi : nat) : list ascii :=
  take (hi - lo) (drop lo l).

(** Size of the multiset intersection of two sequences. *)
Definition common (x y : list ascii) : nat := size (mset x ∩ mset y).

Definition valid_region (a b : list ascii) (r : Region) : Prop :=
  r.1.1.1 ≤ r.1.1.2 ∧ r.1.1.2 ≤ length a ∧ r.1.2 ≤ r.2 ∧ r.2 ≤ length b.

Definition within (r : Region) (x : Block) : Prop :=
  r.1.1.1 ≤ x.1.1 ∧ x.1.1 + x.2 ≤ r.1.1.2 ∧
  r.1.2 ≤ x.1.2 ∧ x.1.2 + x.2 ≤ r.2.

Definition valid_block (a b : list ascii) (r : Region) (x : Block) : Prop :=
  within r x ∧ ∀ t, t < x.2 → a !! (x.1.1 + t) = b !! (x.1.2 + t).

(** [a[i]] and [b[j]] are the same element, and it is not junk. *)
Definition anchored (isjunk : ascii → bool) (a b : list ascii) (i j : nat) : Prop :=
  ∃ c, a !! i = Some c ∧ b !! j = Some c ∧ isjunk c = false.

Definition clean_block (isjunk : ascii → bool) (a b : list ascii)
           (r : Region) (x : Block) : Prop :=
  within r x ∧ ∀ t, t < x.2 → anchored isjunk a b (x.1.1 + t) (x.1.2 + t).

(** A junk-free common run of length [k] that ends just before [a[ie]],
    [b[je]], inside the region that starts at [alo], [blo] and ends in [b]
    at [bhi]. *)
Definition ok_end (isjunk : ascii → bool) (a b : list ascii)
           (alo blo bhi : nat) (ie je k : nat) : Prop :=
  alo + k ≤ ie ∧ blo + k ≤ je ∧ je ≤ bhi ∧
  ∀ t, t < k → anchored isjunk a b (ie - k + t) (je - k + t).

Definition region_common (a b : list ascii) (r : Region) : nat :=
  common (slice a r.1.1.1 r.1.1.2) (slice b r.1.2 r.2).

(** What a region of the queue costs in turns of the loop. *)
Definition region_weight (r : Region) : nat := 2 * (r.1.1.2 - r.1.1.1) + 1.

(** The guards of the two kinds of [while] loops of [find_longest_match]. *)
Definition down_guard (isjunk : ascii → bool) (a b : list ascii)
           (alo blo : nat) (want : bool) (x : Block) : bool :=
  (alo <? x.1.1) && (blo <? x.1.2)
  && same_at isjunk a b want (x.1.1 - 1) (x.1.2 - 1).

Definition up_guard (isjunk : ascii → bool) (a b : list ascii)
           (ahi bhi : nat) (want : bool) (x : Block) : bool :=
  (x.1.1 + x.2 <? ahi) && (x.1.2 + x.2 <? bhi)
  && same_at isjunk a b want (x.1.1 + x.2) (x.1.2 + x.2).

(** The horizontal tab. *)
Definition tab : ascii := ascii_of_nat 9.

(** *** Runs *)

Definition good_enough (m : Match.t) : bool :=
  Qle_bool AUTOCLASSIFY_GOOD_ENOUGH_RATIO (Match.score m).

Definition match_id (m : Match.t) : nat := FailureLine.id (Match.failure_line m).

(** The lines that a matcher's output removes from the unresolved set. *)
Definition good_ids (output : Result (list Match.t)) : gset nat :=
  match output with
  | Ok ms => list_to_set (match_id <$> List.filter good_enough ms)
  | Fault _ => ∅
  end.

Definition line_ids (l : list FailureLine.t) : gset nat :=
  list_to_set (FailureLine.id <$> l).

Definition is_call (e : Event) : bool :=
  match e with
  | ECallMatcher _ _ _ => true
  | _ => false
  end.

Definition no_calls (evs : list Event) : Prop :=
  Forall (λ e, is_call e = false) evs.

(** The shape of the matcher calls of one run that starts with the
    unresolved lines [D]. *)
Fixpoint waterfall (D : gset nat) (evs : list Event) : Prop :=
  match evs with
  | [] => True
  | ECallMatcher _ input output :: rest =>
      line_ids input = D
      ∧ (D ∖ good_ids output = ∅ → no_calls rest)
      ∧ waterfall (D ∖ good_ids output) rest
  | _ :: rest => waterfall D rest
  end.

(** Every line of a set is stored under its own primary key. *)
Definition keyed (s : LineSet) : Prop :=
  ∀ k fl, s !! k = Some fl → FailureLine.id fl = k.

(** The matcher calls of a log: the matcher and the ids of its input. *)
Definition calls_of (evs : list Event) : list (nat * list nat) :=
  omap (fun e => match e with
                 | ECallMatcher m input _ => Some (m, FailureLine.id <$> input)
                 | _ => None
                 end) evs.

Definition candidate (db : Store) (failure_line : FailureLine.t)
           (fm : FailureMatch.t) : Prop :=
  fm ∈ failure_matches db
  ∧ FailureMatch.failure_line fm = FailureLine.id failure_line
  ∧ (AUTOCLASSIFY_CUTOFF_RATIO <= FailureMatch.score fm)%Q.

(** *** Scores, answers and stores *)

(** The most elements that the matching blocks of two sequences can hold:
    one less than the common length when the sequences have the same length
    and differ. *)
Definition near (x y : list ascii) : nat :=
  length x `min` length y
  - (if bool_decide (length x = length y ∧ x ≠ y) then 1 else 0).

(** A score "in the range 0-1", as the docstring of [Matcher.__call__]
    asks. *)
Definition unit_score (q : Q) : Prop := (0 <= q <= 1)%Q.

(** Every historical edge of the store has a score in the range 0-1. *)
Definition scores_in_range (db : Store) : Prop :=
  ∀ fm, fm ∈ failure_matches db → unit_score (FailureMatch.score fm).

(** The answer of a matcher holds at most one match for each line of its
    input, in the order of the input. *)
Definition answers_input (input : list FailureLine.t) (ms : list Match.t)
  : Prop :=
  sublist (Match.failure_line <$> ms) input.

Definition well_behaved (matcher : Matcher) : Prop :=
  ∀ db input ms, call matcher db input = Ok ms → answers_input input ms.

(** The [FailureMatch] that the run stores for a match of the matcher with
    the given [db_object]. *)
Definition edge_of (db_object : nat) (m : Match.t) : FailureMatch.t :=
  FailureMatch.mk (FailureLine.id (Match.failure_line m))
                  (Match.classified_failure m) db_object (Match.score m).

(** The edges of the matches that the matcher calls of a log returned. *)
Definition edges_of (evs : list Event) : list FailureMatch.t :=
  flat_map (fun e => match e with
                     | ECallMatcher k _ (Ok ms) => edge_of k <$> ms
                     | _ => []
                     end) evs.

(** What a run may do to the store: append [edges] and [notes], and save
    lines with an id of [touched]. *)
Definition grows (db db' : Store) (edges : list FailureMatch.t)
           (notes : list nat) (touched : gset nat) : Prop :=
  jobs db' = jobs db
  ∧ classified_failures db' = classified_failures db
  ∧ failure_matches db' = failure_matches db ++ edges
  ∧ notified db' = notified db ++ notes
  ∧ ∀ i, i ∉ touched → failure_lines db' !! i = failure_lines db !! i.

(** A matcher call that returned, with no match good enough to resolve its
    line. *)
Definition leaves_unresolved (e : Event) : Prop :=
  match e with
  | ECallMatcher _ _ output =>
      ∃ ms, output = Ok ms ∧ Forall (λ m, good_enough m = false) ms
  | _ => True
  end.

(** The matches that the matcher calls of a log returned. *)
Definition matches_of (evs : list Event) : list Match.t :=
  flat_map (fun e => match e with
                     | ECallMatcher _ _ (Ok ms) => ms
                     | _ => []
                     end) evs.

(** Every line of the matches [l] is stored as one of them holds it. *)
Definition stored_as_returned (db : Store) (l : list Match.t) : Prop :=
  ∀ m, m ∈ l →
       ∃ m', m' ∈ l ∧ match_id m' = match_id m
             ∧ failure_lines db !! match_id m = Some (Match.failure_line m').

(** *** Example data *)

Module Examples.
Open Scope string_scope.

(** A historical test failure of job "job-old", not verified and never
    classified: its only edge is below the cutoff. *)
Definition old_line : FailureLine.t :=
  FailureLine.mk 1 "job-old" "test_result" (Some "test_a.js") None "FAIL"
                 "PASS" (Some "assert X==Y") None None false.

(** The same failure reported by job "job-new". *)
Definition new_line : FailureLine.t :=
  FailureLine.mk 2 "job-new" "test_result" (Some "test_a.js") None "FAIL"
                 "PASS" (Some "assert X==Y") None None false.

Definition old_edge : FailureMatch.t := FailureMatch.mk 1 7 1 (5 # 10).

Definition db_unverified : Store :=
  mkStore ∅ {[ 1 := old_line ]} [old_edge] {[ 7 ]} [].

(** Scenario B of the specification: a crash of test "T1" and a historical
    crash of test "T2" with the same signature. *)
Definition old_crash : FailureLine.t :=
  FailureLine.mk 3 "job-old" "crash" (Some "T2") None "CRASH" "PASS"
                 None (Some "SIG1") (Some 9) true.

Definition new_crash : FailureLine.t :=
  FailureLine.mk 4 "job-new" "crash" (Some "T1") None "CRASH" "PASS"
                 None (Some "SIG1") None false.

Definition crash_edge : FailureMatch.t := FailureMatch.mk 3 9 2 1.

Definition db_crash : Store :=
  mkStore ∅ {[ 3 := old_crash ]} [crash_edge] {[ 9 ]} [].
Definition line_a : FailureLine.t :=
  FailureLine.mk 11 "job-new" "test_result" (Some "test_a.js") None "FAIL"
                 "PASS" (Some "timeout in a") None None false.

Definition line_b : FailureLine.t :=
  FailureLine.mk 12 "job-new" "test_result" (Some "test_b.js") None "FAIL"
                 "PASS" (Some "assert X==Y") None None false.

(** A backend whose search for "test_a.js" fails and whose search for any
    other test finds one classified line. *)
Definition flaky_backend : Backend :=
  fun q => if bool_decide (Query.test q = Some "test_a.js")
           then Fault (BackendError 503)
           else Ok [Hit.mk "assert X==Z" 7].

Definition steady_backend : Backend :=
  fun q => Ok [Hit.mk "assert X==Z" 7].

Definition db_classified : Store := mkStore ∅ ∅ [] {[ 7 ]} [].

(** A passing job, and a store that knows it. *)
Definition passing_job : Job.t := Job.mk 5 "success".

Definition db_passing : Store :=
  mkStore {[ "guid-5" := passing_job ]} {[ 1 := old_line ]} [old_edge]
          {[ 7 ]} [].

(** A failed job with the crash of scenario B. *)
Definition failed_job : Job.t := Job.mk 6 "testfailed".

Definition db_failed : Store :=
  mkStore {[ "guid-6" := failed_job ]}
          {[ 3 := old_crash; 4 := new_crash ]} [crash_edge] {[ 9 ]} [].

(** A failed job with two new lines: a test failure seen before, verified
    and classified, and the crash of scenario B. *)
Definition known_line : FailureLine.t :=
  FailureLine.mk 1 "job-old" "test_result" (Some "test_a.js") None "FAIL"
                 "PASS" (Some "assert X==Y") None (Some 7) true.

Definition known_edge : FailureMatch.t := FailureMatch.mk 1 7 1 (95 # 100).

Definition busted_job : Job.t := Job.mk 8 "busted".

Definition db_two_lines : Store :=
  mkStore {[ "guid-8" := busted_job ]}
          {[ 1 := known_line; 2 := new_line; 3 := old_crash; 4 := new_crash ]}
          [known_edge; crash_edge] {[ 7; 9 ]} [].

(** The lines of a job that have no match yet (a stand-in for
    [unmatched_for_job]). *)
Definition lines_of_job (db : Store) (repository job_guid : string)
  : list FailureLine.t :=
  List.filter (fun fl => bool_decide (FailureLine.job_guid fl = "job-new"))
              (map_to_list (failure_lines db)).*2.

(** The matchers in the order of [register()], the search matcher with
    tasks that finish in input order. *)
Definition registered (connection : bool) (backend : Backend) : list Matcher :=
  [ mkMatcher 1 (fun db ls => Ok (PreciseTestMatcher.call db ls));
    mkMatcher 2 (fun db ls => Ok (CrashSignatureMatcher.call db ls));
    mkMatcher 3 (fun db ls =>
                   ElasticSearchTestMatcher.call connection backend
                     (seq 0 (length ls)) db ls) ].
End Examples.

(** *** More example data *)

Module Cases.
Open Scope string_scope.

(** A historical crash of test "T1" with the signature of
    [Examples.new_crash]; its edge scores lower than the one of the crash of
    test "T2". *)
Definition same_test_crash : FailureLine.t :=
  FailureLine.mk 5 "job-old" "crash" (Some "T1") None "CRASH" "PASS"
                 None (Some "SIG1") (Some 8) true.

Definition same_test_edge : FailureMatch.t := FailureMatch.mk 5 8 2 (6 # 10).

Definition db_two_crashes : Store :=
  mkStore ∅ {[ 3 := Examples.old_crash; 5 := same_test_crash ]}
          [Examples.crash_edge; same_test_edge] {[ 8; 9 ]} [].

(** A good-enough match for [Examples.new_line]. *)
Definition good_match : Match.t := Match.mk Examples.new_line 7 (95 # 100).

(** A store in which the line of [Examples.new_line] was seen before with a
    score of 0.90, a decimal, in a job that failed. *)
Definition edge_at_threshold : FailureMatch.t :=
  FailureMatch.mk 1 7 1 (90 # 100).

Definition db_at_threshold : Store :=
  mkStore {[ "guid-8" := Examples.busted_job ]}
          {[ 1 := Examples.known_line; 2 := Examples.new_line ]}
          [edge_at_threshold] {[ 7 ]} [].

(** The same with a score of 0.50, below the cutoff. *)
Definition db_below_cutoff : Store :=
  mkStore {[ "guid-8" := Examples.busted_job ]}
          {[ 1 := Examples.known_line; 2 := Examples.new_line ]}
          [Examples.old_edge] {[ 7 ]} [].

(** A matcher that gives no match. *)
Definition silent : Matcher := mkMatcher 1 (fun _ _ => Ok []).

(** Three candidates of a scorer, the last two with the message of the
    target. *)
Definition target : list ascii := list_ascii_of_string "assert X==Y".

Definition candidates : list (nat * list ascii) :=
  [ (1, list_ascii_of_string "assert X==Z");
    (2, list_ascii_of_string "assert X==Y");
    (3, list_ascii_of_string "assert X==Y") ].
End Cases.

(** * Properties *)

(** ** Rounding *)

Section FloatFacts.
Import Float.
#[local] Open Scope Q_scope.

Lemma floor_bounds v : inject_Z (Qfloor v) <= v < inject_Z (Qfloor v) + 1.
Proof.
  split; [apply Qfloor_le|].
  change 1 with (inject_Z 1). rewrite <- inject_Z_plus. apply Qlt_floor.
Qed.

Lemma nearest_even_spec v :
  inject_Z (nearest_even v) - (1 # 2) <= v <= inject_Z (nearest_even v) + (1 # 2)
  ∧ (v == inject_Z (nearest_even v) + (1 # 2) → Z.even (nearest_even v) = true)
  ∧ (v == inject_Z (nearest_even v) - (1 # 2) → Z.even (nearest_even v) = true).
Proof.
  unfold nearest_even. pose proof (floor_bounds v) as [H1 H2].
  set (f := Qfloor v) in *.
  destruct (Qcompare_spec (v - inject_Z f) (1 # 2)) as [E|E|E].
  - destruct (Z.even f) eqn:Ev.
    + split; [lra|]. split; [done|]. intros ?. lra.
    + rewrite inject_Z_plus. change (inject_Z 1) with 1.
      split; [lra|]. rewrite Z.even_add, Ev. split; [|done]. intros ?. lra.
  - split; [lra|]. split; intros ?; lra.
  - rewrite inject_Z_plus. change (inject_Z 1) with 1.
    split; [lra|]. split; intros ?; lra.
Qed.

Lemma nearest_even_mono v w : v <= w → (nearest_even v <= nearest_even w)%Z.
Proof.
  intros Hvw.
  destruct (nearest_even_spec v) as ([V1 V2] & V3 & V4).
  destruct (nearest_even_spec w) as ([W1 W2] & W3 & W4).
  set (a := nearest_even v) in *. set (b := nearest_even w) in *.
  destruct (Z_le_gt_dec a b) as [|Hgt]; [done|exfalso].
  assert (Hab : (b + 1 <= a)%Z) by lia.
  rewrite Zle_Qle, inject_Z_plus in Hab.
  change (inject_Z 1) with 1 in Hab.
  assert (Ea : v == inject_Z a - (1 # 2)) by lra.
  assert (Eb : w == inject_Z b + (1 # 2)) by lra.
  assert (Eab : inject_Z a == inject_Z b + 1) by lra.
  change 1 with (inject_Z 1) in Eab.
  rewrite <- inject_Z_plus, inject_Z_injective in Eab.
  specialize (V4 Ea). specialize (W3 Eb).
  rewrite Eab, Z.even_add, W3 in V4. done.
Qed.

Lemma nearest_even_comp v w : v == w → nearest_even v = nearest_even w.
Proof.
  intros E. apply Z.le_antisymm; apply nearest_even_mono; lra.
Qed.

Lemma nearest_even_Z k : nearest_even (inject_Z k) = k.
Proof.
  unfold nearest_even. rewrite Qfloor_Z.
  destruct (Qcompare_spec (inject_Z k - inject_Z k) (1 # 2)) as [E|E|E];
    [lra|done|lra].
Qed.


Lemma two_power_pos e : 0 < 2 ^ e.
Proof. by apply Qpower_0_lt. Qed.

Lemma two_power_succ e : 2 ^ (e + 1) == 2 * 2 ^ e.
Proof. rewrite Qpower_plus by done. rewrite Qpower_1_r. ring. Qed.

Lemma two_power_inject k : (0 <= k)%Z → inject_Z (2 ^ k) == 2 ^ k.
Proof. intros H. by rewrite Zpower_Qpower. Qed.

Lemma log2_bounds n :
  (0 < n)%Z → 2 ^ Z.log2 n <= inject_Z n < 2 * 2 ^ Z.log2 n.
Proof.
  intros Hn. destruct (Z.log2_spec n Hn) as [H1 H2].
  pose proof (Z.log2_nonneg n) as H0.
  rewrite <- two_power_succ, <- !two_power_inject by lia.
  rewrite <- Zle_Qle, <- Zlt_Qlt. split; [done|].
  by replace (Z.log2 n + 1)%Z with (Z.succ (Z.log2 n)) by lia.
Qed.

Lemma exponent_spec x :
  0 < x → 2 ^ exponent x <= x < 2 ^ (exponent x + 1).
Proof.
  intros Hx. unfold exponent.
  destruct x as [n d]. unfold Qlt in Hx; simpl in Hx.
  assert (Hn : (0 < n)%Z) by lia. clear Hx. cbn [Qnum Qden].
  destruct (log2_bounds n Hn) as [N1 N2].
  destruct (log2_bounds (Z.pos d) (Pos2Z.is_pos d)) as [D1 D2].
  set (e := (Z.log2 n - Z.log2 (Z.pos d))%Z).
  assert (He : 2 ^ e * 2 ^ Z.log2 (Z.pos d) == 2 ^ Z.log2 n).
  { rewrite <- Qpower_plus by done. by replace (e + _)%Z with (Z.log2 n) by lia. }
  pose proof (two_power_pos e) as Pe.
  pose proof (two_power_pos (Z.log2 (Z.pos d))) as Pd.
  pose proof (two_power_pos (Z.log2 n)) as Pn.
  set (A := 2 ^ Z.log2 n) in *. set (B := 2 ^ Z.log2 (Z.pos d)) in *.
  set (E := 2 ^ e) in *.
  assert (Hx : (n # d) * inject_Z (Z.pos d) == inject_Z n).
  { rewrite (Qmake_Qdiv n d). field. intros H. lra. }
  set (x := n # d) in *. set (N := inject_Z n) in *.
  set (D := inject_Z (Z.pos d)) in *.
  destruct (Qle_bool E x) eqn:T.
  - apply Qle_bool_iff in T. split; [done|].
    rewrite two_power_succ. fold E. nra.
  - apply not_true_iff_false in T. rewrite Qle_bool_iff in T.
    apply Qnot_le_lt in T.
    replace (e - 1 + 1)%Z with e by lia. fold E. split; [|done].
    assert (H2 : 2 * 2 ^ (e - 1) == E).
    { rewrite <- two_power_succ. by replace (e - 1 + 1)%Z with e by lia. }
    pose proof (two_power_pos (e - 1)) as Pe'.
    set (E' := 2 ^ (e - 1)) in *. nra.
Qed.

Lemma exponent_unique x e :
  0 < x → 2 ^ e <= x < 2 ^ (e + 1) → exponent x = e.
Proof.
  intros Hx [H1 H2]. destruct (exponent_spec x Hx) as [S1 S2].
  assert (L1 : 2 ^ e < 2 ^ (exponent x + 1)) by lra.
  assert (L2 : 2 ^ exponent x < 2 ^ (e + 1)) by lra.
  apply Qpower_lt_compat_l_inv in L1, L2; [|reflexivity..]. lia.
Qed.

Lemma scaled_bounds x :
  0 < x →
  let s := (prec - 1 - exponent x)%Z in
  inject_Z (2 ^ 52) <= x * 2 ^ s < inject_Z (2 ^ 53).
Proof.
  intros Hx s. destruct (exponent_spec x Hx) as [S1 S2].
  rewrite two_power_succ in S2.
  assert (E : 2 ^ exponent x * 2 ^ s == inject_Z (2 ^ 52)).
  { rewrite <- Qpower_plus by done. unfold s, prec.
    by replace (_ + _)%Z with 52%Z by lia. }
  assert (E2 : inject_Z (2 ^ 53) == 2 * inject_Z (2 ^ 52)) by reflexivity.
  pose proof (two_power_pos s) as Ps. pose proof (two_power_pos (exponent x)) as Pe.
  set (P := 2 ^ s) in *. set (X := 2 ^ exponent x) in *.
  set (c := inject_Z (2 ^ 52)) in *. rewrite E2. split; nra.
Qed.

Lemma mantissa_bounds x :
  0 < x →
  let s := (prec - 1 - exponent x)%Z in
  (2 ^ 52 <= nearest_even (x * 2 ^ s) <= 2 ^ 53)%Z.
Proof.
  intros Hx s. destruct (scaled_bounds x Hx) as [H1 H2]. fold s in H1, H2.
  rewrite <- (nearest_even_Z (2 ^ 52)), <- (nearest_even_Z (2 ^ 53)).
  split; apply nearest_even_mono; [done|lra].
Qed.

Lemma round_pos_bounds x :
  0 < x → 2 ^ exponent x <= round_pos x <= 2 ^ (exponent x + 1).
Proof.
  intros Hx. unfold round_pos. rewrite ?Qred_correct.
  destruct (mantissa_bounds x Hx) as [M1 M2].
  set (s := (prec - 1 - exponent x)%Z) in *.
  set (m := nearest_even _) in *.
  rewrite Zle_Qle in M1, M2.
  assert (E1 : inject_Z (2 ^ 52) * 2 ^ (- s) == 2 ^ exponent x).
  { rewrite (two_power_inject 52) by done. rewrite <- Qpower_plus by done.
    unfold s, prec. by replace (52 + _)%Z with (exponent x) by lia. }
  assert (E2 : inject_Z (2 ^ 53) * 2 ^ (- s) == 2 ^ (exponent x + 1)).
  { rewrite (two_power_inject 53) by done. rewrite <- Qpower_plus by done.
    unfold s, prec. by replace (53 + _)%Z with (exponent x + 1)%Z by lia. }
  pose proof (two_power_pos (- s)) as Ps.
  rewrite <- E1, <- E2. set (P := 2 ^ (- s)) in *. split; nra.
Qed.

Lemma round_pos_pos x : 0 < x → 0 < round_pos x.
Proof.
  intros Hx. destruct (round_pos_bounds x Hx) as [H _].
  pose proof (two_power_pos (exponent x)). lra.
Qed.

Lemma round_pos_mono x y : 0 < x → x <= y → round_pos x <= round_pos y.
Proof.
  intros Hx Hxy. assert (Hy : 0 < y) by lra.
  destruct (exponent_spec x Hx) as [X1 X2].
  destruct (exponent_spec y Hy) as [Y1 Y2].
  destruct (Z.lt_trichotomy (exponent x) (exponent y)) as [Hlt|[Heq|Hgt]].
  - destruct (round_pos_bounds x Hx) as [_ Bx].
    destruct (round_pos_bounds y Hy) as [By _].
    assert (2 ^ (exponent x + 1) <= 2 ^ exponent y)
      by (apply Qpower_le_compat_l; [lia|done]).
    lra.
  - unfold round_pos. rewrite ?Qred_correct. rewrite Heq.
    set (s := (prec - 1 - exponent y)%Z).
    assert (Hm : (nearest_even (x * 2 ^ s) <= nearest_even (y * 2 ^ s))%Z).
    { apply nearest_even_mono. pose proof (two_power_pos s). nra. }
    rewrite Zle_Qle in Hm. pose proof (two_power_pos (- s)). nra.
  - assert (L : 2 ^ exponent x < 2 ^ (exponent y + 1)) by lra.
    apply Qpower_lt_compat_l_inv in L; [|reflexivity]. lia.
Qed.

Lemma round_pos_comp x y : 0 < x → x == y → round_pos x == round_pos y.
Proof.
  intros Hx E. apply Qle_antisym; apply round_pos_mono; lra.
Qed.

Lemma round_eq_pos x : 0 < x → round x = round_pos x.
Proof. intros H. unfold round. by rewrite (proj1 (Qgt_alt _ _) H). Qed.

Lemma round_eq_neg x : x < 0 → round x = - round_pos (- x).
Proof. intros H. unfold round. by rewrite (proj1 (Qlt_alt _ _) H). Qed.

Lemma round_eq_0 x : x == 0 → round x = 0.
Proof. intros H. unfold round. by rewrite (proj1 (Qeq_alt _ _) H). Qed.

Lemma round_mono x y : x <= y → round x <= round y.
Proof.
  intros Hxy.
  assert (Hsign : ∀ z, (z < 0 → round z < 0) ∧ (0 < z → 0 < round z)
                       ∧ (z == 0 → round z == 0)).
  { intros z. split; [|split]; intros Hz.
    - rewrite round_eq_neg by done.
      pose proof (round_pos_pos (- z) ltac:(lra)). lra.
    - rewrite round_eq_pos by done. by apply round_pos_pos.
    - by rewrite round_eq_0. }
  destruct (Hsign x) as (Xn & Xp & X0), (Hsign y) as (Yn & Yp & Y0).
  destruct (Q_dec x 0) as [[Hx|Hx]|Hx], (Q_dec y 0) as [[Hy|Hy]|Hy];
    try lra;
    try (specialize (Xn Hx)); try (specialize (Xp Hx));
    try (specialize (X0 Hx)); try (specialize (Yn Hy));
    try (specialize (Yp Hy)); try (specialize (Y0 Hy)); try lra.
  - rewrite (round_eq_neg x), (round_eq_neg y) by done.
    assert (round_pos (- y) <= round_pos (- x))
      by (apply round_pos_mono; lra). lra.
  - rewrite (round_eq_pos x), (round_eq_pos y) by done.
    by apply round_pos_mono.
Qed.

Lemma round_comp x y : x == y → round x == round y.
Proof. intros E. apply Qle_antisym; apply round_mono; lra. Qed.

Lemma round_nonneg x : 0 <= x → 0 <= round x.
Proof. intros H. apply (round_mono 0 x H). Qed.

Lemma round_double x : 0 <= x → round (2 * x) == 2 * round x.
Proof.
  intros H0. destruct (Qle_lt_or_eq _ _ H0) as [Hx|Hx].
  2:{ rewrite (round_eq_0 x), (round_eq_0 (2 * x)) by lra. reflexivity. }
  rewrite !round_eq_pos by lra. unfold round_pos. rewrite ?Qred_correct.
  destruct (exponent_spec x Hx) as [S1 S2].
  assert (He : exponent (2 * x) = (exponent x + 1)%Z).
  { apply exponent_unique; [lra|]. rewrite !two_power_succ in *. lra. }
  rewrite He. set (s := (prec - 1 - exponent x)%Z).
  replace (prec - 1 - (exponent x + 1))%Z with (s - 1)%Z by (unfold s; lia).
  assert (E1 : 2 * 2 ^ (s - 1) == 2 ^ s).
  { rewrite <- two_power_succ. by replace (s - 1 + 1)%Z with s by lia. }
  assert (E2 : 2 ^ (- (s - 1)) == 2 * 2 ^ (- s)).
  { rewrite <- two_power_succ. by replace (- s + 1)%Z with (- (s - 1))%Z by lia. }
  rewrite (nearest_even_comp (2 * x * 2 ^ (s - 1)) (x * 2 ^ s)).
  - rewrite E2. ring.
  - rewrite <- E1. ring.
Qed.

Lemma round_fixed x : representable x → round x == x.
Proof.
  assert (Hpos : ∀ x m e, 0 < x → (m <= 2 ^ prec)%Z →
                          x == inject_Z m * 2 ^ e → round_pos x == x).
  { clear x. intros x m e Hx Hm E. unfold round_pos. rewrite ?Qred_correct.
    destruct (scaled_bounds x Hx) as [V1 V2].
    set (s := (prec - 1 - exponent x)%Z) in *.
    assert (Ev : x * 2 ^ s == inject_Z m * 2 ^ (e + s)).
    { rewrite Qpower_plus by done. rewrite E. ring. }
    pose proof (two_power_pos (e + s)) as Pt.
    rewrite Zle_Qle in Hm.
    assert (H53 : inject_Z (2 ^ prec) == 2 * inject_Z (2 ^ 52)) by reflexivity.
    assert (Hm0 : 0 < inject_Z m).
    { pose proof (two_power_pos e). rewrite E in Hx.
      destruct (Qlt_le_dec 0 (inject_Z m)); [done|]. nra. }
    assert (Hx' : x == x * 2 ^ s * 2 ^ (- s)).
    { rewrite <- Qmult_assoc, <- Qpower_plus by done.
      replace (s + - s)%Z with 0%Z by lia. rewrite Qpower_0_r. ring. }
    destruct (Z_le_gt_dec 0 (e + s)) as [Ht|Ht].
    - rewrite <- (two_power_inject (e + s)), <- inject_Z_mult in Ev by done.
      rewrite (nearest_even_comp _ _ Ev), nearest_even_Z.
      rewrite Hx' at 1. by rewrite Ev.
    - assert (Hhalf : 2 ^ (-1) <= 2 ^ (e + s)).
      { change (2 ^ (-1)) with (1 # 2).
        set (T := 2 ^ (e + s)) in *. set (c := inject_Z (2 ^ 52)) in *.
        assert (0 < c) by reflexivity. nra. }
      apply Qpower_le_compat_l_inv in Hhalf; [|reflexivity].
      assert (Et : (e + s)%Z = (-1)%Z) by lia. rewrite Et in Ev.
      change (2 ^ (-1)) with (1 # 2) in Ev.
      assert (Em : x * 2 ^ s == inject_Z (2 ^ 52)).
      { set (c := inject_Z (2 ^ 52)) in *. lra. }
      rewrite (nearest_even_comp _ _ Em), nearest_even_Z.
      rewrite Hx' at 1. by rewrite Em. }
  intros (m & e & Hm & E).
  destruct (Q_dec x 0) as [[Hx|Hx]|Hx].
  - rewrite round_eq_neg by done.
    rewrite (Hpos (- x) (- m)%Z e); [ring|lra|lia|].
    rewrite inject_Z_opp, E. ring.
  - rewrite round_eq_pos by done. apply (Hpos x m e); [done|lia|done].
  - rewrite round_eq_0 by done. by rewrite Hx.
Qed.

Lemma round_representable x : representable (round x).
Proof.
  assert (Hpos : ∀ x, 0 < x → ∃ m e, (0 <= m <= 2 ^ prec)%Z
                                     ∧ round_pos x == inject_Z m * 2 ^ e).
  { clear x. intros x Hx. destruct (mantissa_bounds x Hx) as [M1 M2].
    exists (nearest_even (x * 2 ^ (prec - 1 - exponent x))),
      (- (prec - 1 - exponent x))%Z.
    split; [|unfold round_pos; by rewrite Qred_correct]. unfold prec in *.
    change (2 ^ 52)%Z with 4503599627370496%Z in M1.
    change (2 ^ 53)%Z with 9007199254740992%Z in *. lia. }
  destruct (Q_dec x 0) as [[Hx|Hx]|Hx].
  - rewrite round_eq_neg by done.
    destruct (Hpos (- x)) as (m & e & Hm & E); [lra|].
    exists (- m)%Z, e. split; [lia|]. rewrite inject_Z_opp, E. ring.
  - rewrite round_eq_pos by done.
    destruct (Hpos x Hx) as (m & e & Hm & E).
    exists m, e. split; [lia|done].
  - rewrite round_eq_0 by done. exists 0%Z, 0%Z. split; [done|reflexivity].
Qed.

Lemma round_idempotent x : round (round x) == round x.
Proof. apply round_fixed, round_representable. Qed.

Lemma of_int_small n :
  (0 <= n <= 2 ^ prec)%Z → of_int n == inject_Z n.
Proof.
  intros Hn. apply round_fixed. exists n, 0%Z. split; [lia|].
  rewrite Qpower_0_r. ring.
Qed.

End FloatFacts.

(** ** The ratio as a float *)

Section RatioFacts.
Import Float.
#[local] Open Scope Q_scope.

Lemma of_int_mono n m : (n <= m)%Z → of_int n <= of_int m.
Proof. intros H. apply round_mono. by rewrite <- Zle_Qle. Qed.

Lemma of_int_one_le n : (1 <= n)%Z → 1 <= of_int n.
Proof.
  intros H. apply (Qle_trans _ (of_int 1)); [|by apply of_int_mono].
  by apply Qle_bool_imp_le.
Qed.

Lemma quotient_le a b c : 0 < c → a <= b → a / c <= b / c.
Proof.
  intros Hc Hab. unfold Qdiv. apply Qmult_le_compat_r; [done|].
  apply Qlt_le_weak, Qinv_lt_0_compat, Hc.
Qed.

Lemma double_of_int n : (0 <= n)%Z → mul 2 (of_int n) == of_int (2 * n).
Proof.
  intros Hn. unfold mul, of_int.
  rewrite round_double by (apply round_nonneg; by rewrite <- (Zle_Qle 0)).
  rewrite round_idempotent, <- round_double by by rewrite <- (Zle_Qle 0).
  apply round_comp. by rewrite inject_Z_mult.
Qed.

Lemma calculate_ratio_mono m1 m2 len :
  (m1 ≤ m2)%nat → calculate_ratio m1 len <= calculate_ratio m2 len.
Proof.
  intros H. unfold calculate_ratio. destruct (len =? 0)%nat eqn:E.
  - apply Qle_refl.
  - apply Nat.eqb_neq in E. unfold div. apply round_mono, quotient_le.
    + pose proof (of_int_one_le (Z.of_nat len) ltac:(lia)). lra.
    + rewrite !double_of_int by lia. apply of_int_mono. lia.
Qed.

Lemma calculate_ratio_range matches len :
  (2 * matches ≤ len)%nat → 0 <= calculate_ratio matches len <= 1.
Proof.
  intros H. unfold calculate_ratio. destruct (len =? 0)%nat eqn:E.
  - split; by apply Qle_bool_imp_le.
  - apply Nat.eqb_neq in E. unfold div.
    pose proof (of_int_one_le (Z.of_nat len) ltac:(lia)) as Hlen.
    assert (Hm : 0 <= mul 2 (of_int (Z.of_nat matches))).
    { apply round_nonneg.
      pose proof (round_nonneg (inject_Z (Z.of_nat matches))
                    ltac:(by rewrite <- (Zle_Qle 0); lia)) as H0.
      unfold of_int. lra. }
    assert (Hle : mul 2 (of_int (Z.of_nat matches)) <= of_int (Z.of_nat len)).
    { rewrite double_of_int by lia. apply of_int_mono. lia. }
    set (a := mul 2 _) in *. set (b := of_int (Z.of_nat len)) in *.
    split.
    + apply round_nonneg. apply Qle_shift_div_l; lra.
    + apply (Qle_trans _ (round 1)); [|by apply Qle_bool_imp_le].
      apply round_mono. apply Qle_shift_div_r; lra.
Qed.

(** Below [2 ^ 53] the quotient is 1 only when it is exact. *)
Lemma calculate_ratio_one matches len :
  (Z.of_nat len <= 2 ^ prec)%Z → (2 * matches ≤ len)%nat →
  calculate_ratio matches len == 1 → len = 0%nat ∨ (2 * matches = len)%nat.
Proof.
  intros Hb Hm. unfold calculate_ratio.
  destruct (len =? 0)%nat eqn:E; [apply Nat.eqb_eq in E; by left|].
  apply Nat.eqb_neq in E. intros H1. right.
  destruct (decide (2 * matches = len)%nat) as [|Hne]; [done|exfalso].
  assert (Hlt : (2 * Z.of_nat matches + 1 <= Z.of_nat len)%Z) by lia.
  unfold div in H1.
  assert (Ea : mul 2 (of_int (Z.of_nat matches))
               == inject_Z (2 * Z.of_nat matches)).
  { rewrite double_of_int by lia. apply of_int_small. lia. }
  assert (Eb : of_int (Z.of_nat len) == inject_Z (Z.of_nat len)).
  { apply of_int_small. lia. }
  rewrite (round_comp _ (inject_Z (2 * Z.of_nat matches)
                         / inject_Z (Z.of_nat len))) in H1
    by (by rewrite Ea, Eb).
  set (p := 1 - (1 # 2 ^ 53)).
  assert (Hp : round p == p) by (by apply Qeq_bool_eq).
  assert (Hq : inject_Z (2 * Z.of_nat matches) / inject_Z (Z.of_nat len) <= p).
  { rewrite Zle_Qle, inject_Z_plus in Hlt. rewrite Zle_Qle in Hb.
    assert (Hl0 : 0 < inject_Z (Z.of_nat len))
      by (rewrite <- (Zlt_Qlt 0); lia).
    change (inject_Z 1) with 1 in Hlt.
    change (inject_Z (2 ^ prec)) with (/ (1 # 2 ^ 53)) in Hb.
    apply Qle_shift_div_r; [done|]. unfold p.
    set (L := inject_Z (Z.of_nat len)) in *.
    set (A := inject_Z (2 * Z.of_nat matches)) in *.
    assert (L * (1 # 2 ^ 53) <= 1).
    { apply (Qmult_le_compat_r _ _ (1 # 2 ^ 53)) in Hb; [|done].
      rewrite Qmult_inv_r in Hb by done. lra. }
    lra. }
  apply round_mono in Hq. rewrite Hp in Hq.
  assert (p < 1) by reflexivity. lra.
Qed.

End RatioFacts.


(** ** The sequence matcher *)

Lemma size_mset l : size (mset l) = length l.
Proof.
  unfold mset. induction l as [|x l IH]; simpl.
  - apply (gmultiset_size_empty (A:=ascii)).
  - rewrite gmultiset_size_disj_union, gmultiset_size_singleton, IH. done.
Qed.

Lemma common_refl k : common k k = length k.
Proof.
  unfold common. replace (mset k ∩ mset k) with (mset k) by multiset_solver.
  apply size_mset.
Qed.

Lemma common_split x1 k x2 y1 y2 :
  common x1 y1 + length k + common x2 y2
  ≤ common (x1 ++ k ++ x2) (y1 ++ k ++ y2).
Proof.
  unfold common, mset. rewrite !list_to_set_disj_app.
  rewrite <- (size_mset k). unfold mset.
  rewrite <- !gmultiset_size_disj_union.
  apply gmultiset_subseteq_size. multiset_solver.
Qed.

Lemma fullbcount_spec b c :
  default 0 (fullbcount b !! c) = multiplicity c (mset b).
Proof.
  unfold fullbcount, mset.
  assert (H : ∀ (m : gmap ascii nat) (X : gmultiset ascii),
    (∀ c, default 0 (m !! c) = multiplicity c X) →
    ∀ c, default 0 (fold_left (λ (m : gmap ascii nat) elt,
                       <[elt := default 0 (m !! elt) + 1]> m) b m !! c)
         = multiplicity c (X ⊎ list_to_set_disj b)).
  { induction b as [|x b IH]; intros m X Hm c'; simpl.
    - rewrite Hm, multiplicity_disj_union, multiplicity_empty. lia.
    - rewrite (IH _ (X ⊎ {[+ x +]})).
      + rewrite !multiplicity_disj_union. lia.
      + intros d. rewrite multiplicity_disj_union.
        destruct (decide (x = d)) as [->|Hne].
        * rewrite lookup_insert_eq, multiplicity_singleton_eq, Hm. simpl. lia.
        * rewrite lookup_insert_ne, multiplicity_singleton_ne by done.
          rewrite Hm; lia. }
  rewrite (H ∅ ∅).
  - rewrite multiplicity_disj_union, multiplicity_empty. done.
  - intros d. rewrite lookup_empty, multiplicity_empty. done.
Qed.

Lemma common_snoc_hit (P B : gmultiset ascii) x :
  multiplicity x P < multiplicity x B →
  size ((P ⊎ {[+ x +]}) ∩ B) = size (P ∩ B) + 1.
Proof.
  intros H.
  replace ((P ⊎ {[+ x +]}) ∩ B) with ((P ∩ B) ⊎ {[+ x +]}).
  - rewrite gmultiset_size_disj_union, gmultiset_size_singleton. done.
  - apply gmultiset_eq. intros y.
    rewrite !multiplicity_intersection, !multiplicity_disj_union,
      !multiplicity_intersection.
    destruct (decide (y = x)) as [->|Hne].
    + rewrite multiplicity_singleton_eq. lia.
    + rewrite multiplicity_singleton_ne by done. lia.
Qed.

Lemma common_snoc_miss (P B : gmultiset ascii) x :
  multiplicity x B ≤ multiplicity x P →
  size ((P ⊎ {[+ x +]}) ∩ B) = size (P ∩ B).
Proof.
  intros H. f_equal.
  apply gmultiset_eq. intros y.
  rewrite !multiplicity_intersection, !multiplicity_disj_union.
  destruct (decide (y = x)) as [->|Hne].
  + rewrite multiplicity_singleton_eq. lia.
  + rewrite multiplicity_singleton_ne by done. lia.
Qed.

Lemma quick_loop_spec b a :
  ∀ (p : gmultiset ascii) (avail : gmap ascii Z) matches,
    (∀ c, match avail !! c with
          | Some n => n = (Z.of_nat (multiplicity c (mset b))
                           - Z.of_nat (multiplicity c p))%Z
          | None => multiplicity c p = 0
          end) →
    matches = size (p ∩ mset b) →
    quick_loop (fullbcount b) a avail matches = size ((p ⊎ mset a) ∩ mset b).
Proof.
  induction a as [|x a IH]; intros p avail matches Hav Hm; simpl.
  - subst. f_equal. unfold mset. simpl. multiset_solver.
  - set (numb := match avail !! x with Some n => n | None => _ end).
    assert (Hn : numb = (Z.of_nat (multiplicity x (mset b))
                         - Z.of_nat (multiplicity x p))%Z).
    { unfold numb. pose proof (Hav x) as Hx.
      destruct (avail !! x); [done|]. rewrite fullbcount_spec. lia. }
    rewrite (IH (p ⊎ {[+ x +]})).
    + f_equal. unfold mset. simpl. multiset_solver.
    + intros c. destruct (decide (x = c)) as [->|Hne].
      * rewrite lookup_insert_eq, multiplicity_disj_union,
          multiplicity_singleton_eq. lia.
      * rewrite lookup_insert_ne by done. pose proof (Hav c) as Hc.
        destruct (avail !! c); rewrite multiplicity_disj_union,
          multiplicity_singleton_ne by done; lia.
    + destruct (0 <? numb)%Z eqn:E.
      * apply Z.ltb_lt in E. rewrite common_snoc_hit by lia. lia.
      * apply Z.ltb_ge in E. rewrite common_snoc_miss by lia. lia.
Qed.

Lemma quick_matches_common a b : quick_matches a b = common a b.
Proof.
  unfold quick_matches, common.
  rewrite (quick_loop_spec b a ∅ ∅ 0).
  - f_equal. multiset_solver.
  - intros c. rewrite lookup_empty. apply multiplicity_empty.
  - replace (∅ ∩ mset b) with (∅ : gmultiset ascii) by multiset_solver.
    symmetry. apply gmultiset_size_empty.
Qed.
Lemma index_b_sound b c js j :
  index_b b !! c = Some js → j ∈ js → b !! j = Some c.
Proof.
  unfold index_b.
  assert (H : ∀ r n (m : gmap ascii (list nat)),
    (∀ c js j, m !! c = Some js → j ∈ js → b !! j = Some c) →
    (∀ t x, r !! t = Some x → b !! (n + t) = Some x) →
    ∀ c js j,
      fold_left (λ (m : gmap ascii (list nat)) (p : nat * ascii),
                   <[p.2 := default [] (m !! p.2) ++ [p.1]]> m)
                (enumerate_from n r) m !! c = Some js →
      j ∈ js → b !! j = Some c).
  { induction r as [|x r IH]; intros n m Hm Hr c' js' j'; simpl.
    - apply Hm.
    - apply IH.
      + intros d ks k. destruct (decide (x = d)) as [->|Hne].
        * rewrite lookup_insert_eq. intros [= <-] Hk.
          apply elem_of_app in Hk as [Hk|Hk].
          -- destruct (m !! d) eqn:E; simpl in Hk; [by eapply Hm|].
             by apply elem_of_nil in Hk.
          -- apply list_elem_of_singleton in Hk as ->.
             specialize (Hr 0 d eq_refl). by rewrite Nat.add_0_r in Hr.
        * rewrite lookup_insert_ne by done. apply Hm.
      + intros t y Ht. specialize (Hr (S t) y Ht).
        by replace (S n + t) with (n + S t) by lia. }
  apply (H b 0 ∅).
  - intros d ks k. by rewrite lookup_empty.
  - done.
Qed.

Ltac via_eq H :=
  etrans; [|etrans; [exact H|]]; f_equal; lia.

Lemma anchored_at isjunk a b i j i' j' :
  i = i' → j = j' → anchored isjunk a b i j → anchored isjunk a b i' j'.
Proof. by intros -> ->. Qed.

Ltac via_anchor H := eapply anchored_at; [| |exact H]; lia.

Lemma clean_block_valid isjunk a b r x :
  clean_block isjunk a b r x → valid_block a b r x.
Proof.
  intros [Hw Ht]. split; [done|]. intros t Hlt.
  destruct (Ht t Hlt) as (c & -> & -> & _). done.
Qed.

Section Sound.
Variable isjunk : ascii → bool.

Lemma chain_b_purged b c js :
  chain_b isjunk b !! c = Some js →
  index_b b !! c = Some js ∧ isjunk c = false.
Proof.
  unfold chain_b, purge_junk. intros H.
  destruct (autojunk_on b).
  - apply map_lookup_filter_Some in H as [H _].
    by apply map_lookup_filter_Some in H as [H H'].
  - by apply map_lookup_filter_Some in H as [H H'].
Qed.

Lemma chain_b_sound b c js j :
  chain_b isjunk b !! c = Some js → j ∈ js → b !! j = Some c.
Proof.
  intros H. apply index_b_sound. by apply chain_b_purged in H as [H _].
Qed.

Section Region.
Variables a b : list ascii.
Variables alo ahi blo bhi : nat.

#[local] Abbreviation R := (alo, ahi, blo, bhi).
#[local] Abbreviation run_end := (ok_end isjunk a b alo blo bhi).

Lemma run_end_block ie je k :
  ie ≤ ahi → run_end ie je k → clean_block isjunk a b R (ie - k, je - k, k).
Proof.
  intros Hie (H1 & H2 & H3 & H4). unfold clean_block, within; simpl.
  repeat split; try lia. exact H4.
Qed.

Lemma scan_js_sound i j2len :
  alo ≤ i → i < ahi →
  (∀ j k, j2len !! j = Some k → run_end i (j + 1) k) →
  ∀ js newj2len best,
    (∀ j, j ∈ js → anchored isjunk a b i j) →
    (∀ j k, newj2len !! j = Some k → run_end (i + 1) (j + 1) k) →
    clean_block isjunk a b R best →
    let r := scan_js blo bhi i j2len js newj2len best in
    (∀ j k, r.1 !! j = Some k → run_end (i + 1) (j + 1) k) ∧
    clean_block isjunk a b R r.2.
Proof.
  intros Hlo Hhi Hold. induction js as [|j js IH];
    intros newj2len best Hjs Hnew Hbest; simpl.
  - done.
  - assert (Hjs' : ∀ j0, j0 ∈ js → anchored isjunk a b i j0).
    { intros j0 Hj0. apply Hjs. by apply list_elem_of_further. }
    destruct (j <? blo) eqn:E1; [by apply IH|].
    destruct (bhi <=? j) eqn:E2; [done|].
    apply Nat.ltb_ge in E1. apply Nat.leb_gt in E2.
    set (k := j2lenget j2len j + 1).
    assert (Hk : run_end (i + 1) (j + 1) k).
    { assert (Hij : anchored isjunk a b i j)
        by apply Hjs, list_elem_of_here.
      unfold k, j2lenget. destruct j as [|j'].
      - repeat split; simpl; try lia.
        intros t Ht. via_anchor Hij.
      - destruct (j2len !! j') as [k0|] eqn:E; simpl.
        + destruct (Hold _ _ E) as (H1 & H2 & H3 & H4).
          repeat split; try lia.
          intros t Ht. destruct (decide (t < k0)) as [Hlt|Hge].
          * specialize (H4 t Hlt). via_anchor H4.
          * via_anchor Hij.
        + repeat split; try lia.
          intros t Ht. via_anchor Hij. }
    apply IH; [done| |].
    + intros j0 k0. destruct (decide (j = j0)) as [->|Hne].
      * rewrite lookup_insert_eq. by intros [= <-].
      * rewrite lookup_insert_ne by done. apply Hnew.
    + destruct (best.2 <? k); [|done].
      apply (run_end_block (i + 1) (j + 1) k); [lia|done].
Qed.

Lemma b2j_get_sound i j :
  j ∈ b2j_get isjunk a b i → anchored isjunk a b i j.
Proof.
  unfold b2j_get. destruct (a !! i) as [c|] eqn:E.
  - destruct (chain_b isjunk b !! c) as [js|] eqn:E'; simpl.
    + intros Hj. exists c. split; [done|]. split.
      * by eapply chain_b_sound.
      * by apply chain_b_purged in E' as [_ ?].
    + intros Hj. by apply elem_of_nil in Hj.
  - intros Hj. by apply elem_of_nil in Hj.
Qed.

Lemma scan_is_sound n :
  ∀ i j2len best,
    alo ≤ i → i + n ≤ ahi →
    (∀ j k, j2len !! j = Some k → run_end i (j + 1) k) →
    clean_block isjunk a b R best →
    clean_block isjunk a b R
      (scan_is isjunk a b blo bhi (seq i n) j2len best).
Proof.
  induction n as [|n IH]; intros i j2len best Hlo Hhi Hold Hbest; simpl.
  - done.
  - destruct (scan_js_sound i j2len Hlo ltac:(lia) Hold
                (b2j_get isjunk a b i) ∅ best) as [Hn Hb].
    + apply b2j_get_sound.
    + intros j k. by rewrite lookup_empty.
    + done.
    + apply IH; [lia|lia| |done].
      intros j k Hjk. replace (S i) with (i + 1) by lia. by apply Hn.
Qed.

Hypothesis HR : valid_region a b R.

Lemma junk_free_match_clean :
  clean_block isjunk a b R (junk_free_match isjunk a b alo ahi blo bhi).
Proof.
  destruct HR as (H1 & H2 & H3 & H4); simpl in *.
  unfold junk_free_match. apply scan_is_sound.
  - lia.
  - lia.
  - intros j k. by rewrite lookup_empty.
  - unfold clean_block, within; simpl. repeat split; try lia.
Qed.

Lemma same_at_eq want i j :
  same_at isjunk a b want i j = true → a !! i = b !! j.
Proof.
  unfold same_at. destruct (a !! i), (b !! j); try done.
  intros H. apply andb_prop in H as [H _].
  apply bool_decide_eq_true in H. by subst.
Qed.

Lemma extend_down_sound want fuel :
  ∀ x, valid_block a b R x →
       valid_block a b R (extend_down isjunk a b alo blo want fuel x).
Proof.
  induction fuel as [|fuel IH]; intros [[besti bestj] bestsize] Hx; simpl.
  - done.
  - destruct ((alo <? besti) && (blo <? bestj)
              && same_at isjunk a b want (besti - 1) (bestj - 1)) eqn:E;
      [|done].
    apply IH.
    apply andb_prop in E as [E E3]. apply andb_prop in E as [E1 E2].
    apply Nat.ltb_lt in E1, E2. apply same_at_eq in E3.
    destruct Hx as ((H1 & H2 & H3 & H4) & H5); simpl in *.
    unfold valid_block, within; simpl. repeat split; try lia.
    intros t Ht. destruct t as [|t].
    + via_eq E3.
    + assert (Ht' : t < bestsize) by lia.
      specialize (H5 t Ht'). via_eq H5.
Qed.

Lemma extend_up_sound want fuel :
  ∀ x, valid_block a b R x →
       valid_block a b R (extend_up isjunk a b ahi bhi want fuel x).
Proof.
  induction fuel as [|fuel IH]; intros [[besti bestj] bestsize] Hx; simpl.
  - done.
  - destruct ((besti + bestsize <? ahi) && (bestj + bestsize <? bhi)
              && same_at isjunk a b want (besti + bestsize)
                   (bestj + bestsize)) eqn:E; [|done].
    apply IH.
    apply andb_prop in E as [E E3]. apply andb_prop in E as [E1 E2].
    apply Nat.ltb_lt in E1, E2. apply same_at_eq in E3.
    destruct Hx as ((H1 & H2 & H3 & H4) & H5); simpl in *.
    unfold valid_block, within; simpl. repeat split; try lia.
    intros t Ht. destruct (decide (t < bestsize)) as [Hlt|Hge].
    + by apply H5.
    + via_eq E3.
Qed.

Lemma find_longest_match_sound :
  valid_block a b R (find_longest_match isjunk a b alo ahi blo bhi).
Proof.
  unfold find_longest_match.
  apply extend_up_sound, extend_down_sound, extend_up_sound,
    extend_down_sound, (clean_block_valid isjunk), junk_free_match_clean.
Qed.

End Region.
End Sound.
Lemma slice_split l lo mid hi :
  lo ≤ mid → mid ≤ hi → slice l lo hi = slice l lo mid ++ slice l mid hi.
Proof.
  intros H1 H2. unfold slice.
  replace (hi - lo) with ((mid - lo) + (hi - mid)) by lia.
  rewrite <- take_take_drop, drop_drop.
  by replace (lo + (mid - lo)) with mid by lia.
Qed.

Lemma slice_full l : slice l 0 (length l) = l.
Proof. unfold slice. rewrite drop_0, Nat.sub_0_r. by apply take_ge. Qed.

Lemma slice_length l lo hi :
  lo ≤ hi → hi ≤ length l → length (slice l lo hi) = hi - lo.
Proof.
  intros H1 H2. unfold slice. rewrite length_take, length_drop. lia.
Qed.

Lemma slice_block a b r x :
  valid_block a b r x →
  slice a x.1.1 (x.1.1 + x.2) = slice b x.1.2 (x.1.2 + x.2).
Proof.
  intros (_ & H). unfold slice.
  apply list_eq. intros t.
  replace (x.1.1 + x.2 - x.1.1) with x.2 by lia.
  replace (x.1.2 + x.2 - x.1.2) with x.2 by lia.
  destruct (decide (t < x.2)) as [Hlt|Hge].
  - rewrite !lookup_take_lt, !lookup_drop by done. by apply H.
  - rewrite !lookup_take_ge by lia. done.
Qed.

Lemma region_common_split a b r x :
  valid_region a b r → valid_block a b r x →
  region_common a b (r.1.1.1, x.1.1, r.1.2, x.1.2) + x.2
  + region_common a b (x.1.1 + x.2, r.1.1.2, x.1.2 + x.2, r.2)
  ≤ region_common a b r.
Proof.
  intros (R1 & R2 & R3 & R4) Hx.
  pose proof (slice_block _ _ _ _ Hx) as Hs.
  destruct Hx as ((H1 & H2 & H3 & H4) & _).
  unfold region_common; simpl.
  rewrite (slice_split a r.1.1.1 x.1.1 r.1.1.2) by lia.
  rewrite (slice_split a x.1.1 (x.1.1 + x.2) r.1.1.2) by lia.
  rewrite (slice_split b r.1.2 x.1.2 r.2) by lia.
  rewrite (slice_split b x.1.2 (x.1.2 + x.2) r.2) by lia.
  rewrite <- Hs.
  etrans; [|apply common_split].
  rewrite slice_length by lia. lia.
Qed.

Lemma region_weight_eq alo ahi blo bhi :
  region_weight (alo, ahi, blo, bhi) = 2 * (ahi - alo) + 1.
Proof. reflexivity. Qed.

Lemma block_size_eq i j k : block_size (i, j, k) = k.
Proof. reflexivity. Qed.

Lemma sum_with_cons {A} (f : A → nat) x l :
  sum_list_with f (x :: l) = f x + sum_list_with f l.
Proof. reflexivity. Qed.

Lemma sum_with_nil {A} (f : A → nat) : sum_list_with f [] = 0.
Proof. reflexivity. Qed.

#[local] Arguments region_weight : simpl never.
#[local] Arguments region_common : simpl never.
#[local] Arguments block_size : simpl never.
#[local] Arguments sum_list_with : simpl never.

Ltac sums :=
  repeat first
    [ rewrite sum_with_cons in *
    | rewrite sum_with_nil in *
    | rewrite sum_list_with_app in *
    | rewrite region_weight_eq in *
    | rewrite block_size_eq in * ].

Section Loop.
Variable isjunk : ascii → bool.
Variables a b : list ascii.

Lemma blocks_loop_spec fuel :
  ∀ queue acc,
    Forall (valid_region a b) queue →
    sum_list_with region_weight queue ≤ fuel →
    ∃ bl, blocks_loop isjunk a b fuel queue acc = Some bl ∧
          sum_list_with block_size bl
          ≤ sum_list_with block_size acc
            + sum_list_with (region_common a b) queue.
Proof.
  induction fuel as [|fuel IH]; intros queue acc Hq Hw.
  - destruct queue as [|[[[alo ahi] blo] bhi] queue].
    + exists acc. split; [done|lia].
    + sums. lia.
  - destruct queue as [|[[[alo ahi] blo] bhi] queue].
    + exists acc. split; [done|lia].
    + apply Forall_cons in Hq as [Hr Hq].
      pose proof (find_longest_match_sound isjunk a b alo ahi blo bhi Hr)
        as Hx.
      pose proof (region_common_split a b _ _ Hr Hx) as Hc.
      cbn [blocks_loop].
      destruct (find_longest_match isjunk a b alo ahi blo bhi)
        as [[i j] k] eqn:E.
      destruct Hx as ((H1 & H2 & H3 & H4) & _).
      destruct Hr as (R1 & R2 & R3 & R4).
      cbn [fst snd] in *. sums.
      destruct (k =? 0) eqn:Ek.
      * destruct (IH queue acc Hq ltac:(lia)) as (bl & Hbl & Hsum).
        exists bl. split; [done|]. lia.
      * apply Nat.eqb_neq in Ek.
        set (q1 := if (alo <? i) && (blo <? j)
                   then (alo, i, blo, j) :: queue else queue).
        set (q2 := if (i + k <? ahi) && (j + k <? bhi)
                   then (i + k, ahi, j + k, bhi) :: q1 else q1).
        assert (Hq1 : Forall (valid_region a b) q1 ∧
                      sum_list_with region_weight q1
                      ≤ 2 * (i - alo) + 1 + sum_list_with region_weight queue ∧
                      sum_list_with (region_common a b) q1
                      ≤ region_common a b (alo, i, blo, j)
                        + sum_list_with (region_common a b) queue).
        { unfold q1. destruct ((alo <? i) && (blo <? j)).
          - split; [|split; sums; lia].
            apply Forall_cons. split; [|done].
            unfold valid_region; cbn [fst snd]. lia.
          - split; [done|]. split; lia. }
        destruct Hq1 as (Hv1 & Hw1 & Hc1).
        assert (Hq2 : Forall (valid_region a b) q2 ∧
                      sum_list_with region_weight q2
                      ≤ 2 * (ahi - (i + k)) + 1 + sum_list_with region_weight q1 ∧
                      sum_list_with (region_common a b) q2
                      ≤ region_common a b (i + k, ahi, j + k, bhi)
                        + sum_list_with (region_common a b) q1).
        { unfold q2. destruct ((i + k <? ahi) && (j + k <? bhi)).
          - split; [|split; sums; lia].
            apply Forall_cons. split; [|done].
            unfold valid_region; cbn [fst snd]. lia.
          - split; [done|]. split; lia. }
        destruct Hq2 as (Hv2 & Hw2 & Hc2).
        destruct (IH q2 (acc ++ [(i, j, k)]) Hv2 ltac:(lia))
          as (bl & Hbl & Hsum).
        exists bl. split; [done|]. sums. lia.
Qed.

Lemma raw_blocks_spec :
  ∃ bl, raw_blocks isjunk a b = Some bl ∧
        sum_list_with block_size bl ≤ common a b.
Proof.
  unfold raw_blocks, loop_fuel.
  destruct (blocks_loop_spec (2 * length a + 1)
              [(0, length a, 0, length b)] []) as (bl & Hbl & Hsum).
  - apply Forall_cons. split; [|done].
    unfold valid_region; cbn [fst snd]. lia.
  - sums. lia.
  - exists bl. split; [done|]. sums.
    unfold region_common in Hsum; cbn [fst snd] in Hsum.
    rewrite !slice_full in Hsum. lia.
Qed.

Lemma sum_sizes_alt bl : sum_sizes bl = sum_list_with block_size bl.
Proof.
  unfold sum_sizes.
  assert (H : ∀ n, fold_left (λ sum triple, sum + block_size triple) bl n
                   = n + sum_list_with block_size bl).
  { induction bl as [|x bl IH]; intros n; cbn [fold_left]; sums; [lia|].
    rewrite IH. lia. }
  by rewrite H.
Qed.

Lemma collapse_sum blocks :
  ∀ cur na,
    sum_list_with block_size (collapse cur blocks na)
    = sum_list_with block_size na + cur.2 + sum_list_with block_size blocks.
Proof.
  induction blocks as [|[[i2 j2] k2] rest IH]; intros [[i1 j1] k1] na;
    cbn [collapse fst snd].
  - destruct (k1 =? 0) eqn:E; sums.
    + apply Nat.eqb_eq in E. lia.
    + lia.
  - destruct ((i1 + k1 =? i2) && (j1 + k1 =? j2)); rewrite IH;
      cbn [fst snd]; sums; [lia|].
    destruct (k1 =? 0) eqn:E; sums.
    + apply Nat.eqb_eq in E. lia.
    + lia.
Qed.

Lemma get_matching_blocks_spec :
  ∃ bl, get_matching_blocks isjunk a b = Some bl ∧
        sum_sizes bl ≤ quick_matches a b.
Proof.
  unfold get_matching_blocks.
  destruct raw_blocks_spec as (raw & -> & Hsum).
  eexists. split; [done|].
  rewrite sum_sizes_alt, sum_list_with_app, collapse_sum.
  rewrite merge_sort_Permutation, quick_matches_common.
  cbn [fst snd]. sums. lia.
Qed.


(** The loop of [get_matching_blocks] ends within its fuel. *)
Lemma get_matching_blocks_total : is_Some (get_matching_blocks isjunk a b).
Proof. destruct get_matching_blocks_spec as (bl & -> & _). by eexists. Qed.

End Loop.

Section Fuel.
Variable isjunk : ascii → bool.
Variables a b : list ascii.

Lemma extend_down_exits alo blo want fuel :
  ∀ x, x.1.1 ≤ fuel →
       down_guard isjunk a b alo blo want (extend_down isjunk a b alo blo want fuel x)
       = false.
Proof.
  induction fuel as [|fuel IH]; intros [[besti bestj] bestsize] Hf;
    simpl in Hf.
  - simpl. unfold down_guard; simpl.
    replace (alo <? besti) with false; [done|].
    symmetry. apply Nat.ltb_ge. lia.
  - cbn [extend_down].
    destruct ((alo <? besti) && (blo <? bestj)
              && same_at isjunk a b want (besti - 1) (bestj - 1)) eqn:E.
    + apply IH. simpl.
      apply andb_prop in E as [E _]. apply andb_prop in E as [E _].
      apply Nat.ltb_lt in E. lia.
    + exact E.
Qed.

Lemma extend_up_exits ahi bhi want fuel :
  ∀ x, ahi ≤ fuel + (x.1.1 + x.2) →
       up_guard isjunk a b ahi bhi want (extend_up isjunk a b ahi bhi want fuel x)
       = false.
Proof.
  induction fuel as [|fuel IH]; intros [[besti bestj] bestsize] Hf;
    simpl in Hf.
  - simpl. unfold up_guard; simpl.
    replace (besti + bestsize <? ahi) with false; [done|].
    symmetry. apply Nat.ltb_ge. lia.
  - cbn [extend_up].
    destruct ((besti + bestsize <? ahi) && (bestj + bestsize <? bhi)
              && same_at isjunk a b want (besti + bestsize)
                   (bestj + bestsize)) eqn:E.
    + apply IH. simpl. lia.
    + exact E.
Qed.

(** Each of the four [while] loops of [find_longest_match] ends because its
    condition fails, within the turns it is given. *)
Lemma find_longest_match_loops_exit alo ahi blo bhi :
  let x0 := junk_free_match isjunk a b alo ahi blo bhi in
  let x1 := extend_down isjunk a b alo blo false x0.1.1 x0 in
  let x2 := extend_up isjunk a b ahi bhi false ahi x1 in
  let x3 := extend_down isjunk a b alo blo true x2.1.1 x2 in
  let x4 := extend_up isjunk a b ahi bhi true ahi x3 in
  down_guard isjunk a b alo blo false x1 = false
  ∧ up_guard isjunk a b ahi bhi false x2 = false
  ∧ down_guard isjunk a b alo blo true x3 = false
  ∧ up_guard isjunk a b ahi bhi true x4 = false
  ∧ find_longest_match isjunk a b alo ahi blo bhi = x4.
Proof.
  intros x0 x1 x2 x3 x4. repeat split.
  - by apply extend_down_exits.
  - apply extend_up_exits. lia.
  - by apply extend_down_exits.
  - apply extend_up_exits. lia.
Qed.
End Fuel.

Lemma ratio_le_quick_ratio isjunk a b :
  (ratio isjunk a b <= quick_ratio a b)%Q.
Proof.
  unfold ratio, quick_ratio.
  destruct (get_matching_blocks_spec isjunk a b) as (bl & -> & H).
  by apply calculate_ratio_mono.
Qed.


Lemma Qgt_bool_iff x y : Qgt_bool x y = true ↔ (y < x)%Q.
Proof.
  unfold Qgt_bool. rewrite negb_true_iff, <- not_true_iff_false, Qle_bool_iff.
  split; [apply Qnot_le_lt|apply Qlt_not_le].
Qed.

Section Scorer.
Context {A : Type}.
Implicit Types (matches : list (A * list ascii)) (best : option (Q * A)).

Lemma filter_skips_losers target message best :
  MatchScorer.at_least best (MatchScorer.quick_ratio target message) = false →
  MatchScorer.above best (MatchScorer.ratio target message) = false.
Proof.
  destruct best as [[r0 m0]|]; simpl; [|done].
  unfold Qgt_bool. intros H. apply negb_false_iff, Qle_bool_iff.
  destruct (Qlt_le_dec (MatchScorer.quick_ratio target message) r0) as [Hlt|Hle].
  - apply Qlt_le_weak. eapply Qle_lt_trans; [|exact Hlt].
    apply ratio_le_quick_ratio.
  - apply Qle_bool_iff in Hle. congruence.
Qed.

Lemma best_match_from_exhaustive target matches :
  ∀ best, MatchScorer.best_match_from target matches best
          = MatchScorer.exhaustive_from target matches best.
Proof.
  induction matches as [|[m message] rest IH]; intros best; simpl.
  - done.
  - rewrite IH. f_equal.
    destruct (MatchScorer.at_least best _) eqn:E; [done|].
    by rewrite (filter_skips_losers _ _ _ E).
Qed.

(** C2.  For every target and every list of candidates, [best_match] with its
    quick-ratio pre-filter returns the same candidate, with the same ratio,
    as the exhaustive scorer that computes the full ratio of every candidate
    and keeps the first one with the strictly greatest ratio. *)
Theorem C2_prefilter_keeps_winner target matches :
  MatchScorer.best_match target matches
  = MatchScorer.best_match_exhaustive target matches.
Proof. apply best_match_from_exhaustive. Qed.

Lemma above_iff best r :
  MatchScorer.above best r = true ↔ ∀ b, best = Some b → (b.1 < r)%Q.
Proof.
  destruct best as [b|]; simpl.
  - rewrite Qgt_bool_iff. split; [by intros H b' [= <-]|by intros H; apply H].
  - split; [done|done].
Qed.

Lemma exhaustive_from_first_maximum target matches :
  ∀ best r m,
    MatchScorer.exhaustive_from target matches best = Some (r, m) →
    (∀ x, x ∈ matches → (MatchScorer.ratio target x.2 <= r)%Q)
    ∧ (∀ b, best = Some b → (b.1 <= r)%Q)
    ∧ (best = Some (r, m)
       ∨ ∃ pre message post,
           matches = pre ++ (m, message) :: post
           ∧ r = MatchScorer.ratio target message
           ∧ (∀ x, x ∈ pre → (MatchScorer.ratio target x.2 < r)%Q)
           ∧ MatchScorer.above best r = true).
Proof.
  induction matches as [|[m0 msg0] rest IH]; intros best r m Hrun.
  - simpl in Hrun. subst best. split; [|split].
    + intros x Hx. by apply elem_of_nil in Hx.
    + intros b [= <-]. apply Qle_refl.
    + by left.
  - cbn [MatchScorer.exhaustive_from] in Hrun.
    set (r0 := MatchScorer.ratio target msg0) in *.
    destruct (IH _ _ _ Hrun) as (Hall & Hbest & Hwho).
    destruct (MatchScorer.above best r0) eqn:Hab.
    + assert (Hr0 : (r0 <= r)%Q) by (by apply (Hbest (r0, m0))).
      pose proof (proj1 (above_iff _ _) Hab) as Hlt.
      split; [|split].
      * intros x [->|Hx]%elem_of_cons; [done|by apply Hall].
      * intros b Hb. specialize (Hlt b Hb). lra.
      * right.
        destruct Hwho
          as [[= <- <-]|(pre & message & post & -> & -> & Hpre & Habove)].
        -- exists [], msg0, rest. split; [done|]. split; [done|].
           split; [|done]. intros x Hx. by apply elem_of_nil in Hx.
        -- exists ((m0, msg0) :: pre), message, post.
           split; [done|]. split; [done|].
           pose proof (proj1 (above_iff _ _) Habove (r0, m0) eq_refl) as Hlt0.
           simpl in Hlt0. split.
           ++ intros x [->|Hx]%elem_of_cons; [done|by apply Hpre].
           ++ apply above_iff. intros b Hb. specialize (Hlt b Hb). lra.
    + destruct best as [b|]; [|done]. simpl in Hab.
      apply not_true_iff_false in Hab. rewrite Qgt_bool_iff in Hab.
      apply Qnot_lt_le in Hab.
      pose proof (Hbest b eq_refl) as Hb.
      split; [|split].
      * intros x [->|Hx]%elem_of_cons; [simpl; fold r0; lra|by apply Hall].
      * by intros b' [= <-].
      * destruct Hwho as [Heq|(pre & message & post & -> & -> & Hpre & Habove)];
          [by left|right].
        exists ((m0, msg0) :: pre), message, post.
        split; [done|]. split; [done|]. split; [|done].
        pose proof (proj1 (above_iff _ _) Habove b eq_refl) as Hlt.
        intros x [->|Hx]%elem_of_cons; [simpl; fold r0; lra|by apply Hpre].
Qed.

(** The exhaustive scorer returns the first candidate whose ratio is the
    greatest of the list. *)
Lemma best_match_exhaustive_first_maximum target matches r m :
  MatchScorer.best_match_exhaustive target matches = Some (r, m) →
  ∃ pre message post,
    matches = pre ++ (m, message) :: post
    ∧ r = MatchScorer.ratio target message
    ∧ (∀ x, x ∈ pre → (MatchScorer.ratio target x.2 < r)%Q)
    ∧ (∀ x, x ∈ matches → (MatchScorer.ratio target x.2 <= r)%Q).
Proof.
  intros Hrun.
  destruct (exhaustive_from_first_maximum _ _ _ _ _ Hrun)
    as (Hall & _ & [Hnone|(pre & message & post & Heq & Hr & Hpre & _)]);
    [done|].
  by exists pre, message, post.
Qed.
Lemma best_match_from_Some target matches :
  ∀ b, is_Some (MatchScorer.best_match_from target matches (Some b)).
Proof.
  induction matches as [|[m message] rest IH]; intros b; simpl.
  - by eexists.
  - destruct (Qle_bool b.1 _); [destruct (Qgt_bool _ b.1)|]; apply IH.
Qed.

(** C7 (amended).  [best_match] returns no match exactly when the list of
    candidates is empty: the first candidate always passes the pre-filter,
    and an empty target does not prevent a match. *)
Theorem C7_no_match_iff_no_candidate target matches :
  MatchScorer.best_match target matches = None ↔ matches = [].
Proof.
  unfold MatchScorer.best_match. destruct matches as [|[m message] rest]; simpl.
  - done.
  - split; [|done]. intros H.
    destruct (best_match_from_Some target rest
                (MatchScorer.ratio target message, m)) as [x Hx].
    congruence.
Qed.
End Scorer.

(** The pre-filter at work: the second candidate shares no character with
    the target and is not compared in full. *)
Example prefilter_skips_a_candidate :
  let target := list_ascii_of_string "abc" in
  MatchScorer.at_least (Some (1%Q, 0))
    (MatchScorer.quick_ratio target (list_ascii_of_string "xyz")) = false
  ∧ MatchScorer.best_match target
      [(0, list_ascii_of_string "abc"); (1, list_ascii_of_string "xyz")]
    = Some (1%Q, 0).
Proof. vm_compute. done. Qed.

(** C7 as stated fails: with the empty target and one candidate, the
    candidate is returned, with ratio 0. *)
Lemma C7_counterexample :
  MatchScorer.best_match [] [(1, list_ascii_of_string "abc")]
  = Some (0%Q, 1).
Proof. vm_compute. reflexivity. Qed.
Lemma isjunk_space c : MatchScorer.isjunk c = true ↔ c = " "%char.
Proof. unfold MatchScorer.isjunk. apply bool_decide_eq_true. Qed.

Lemma space_not_indexed target :
  chain_b MatchScorer.isjunk target !! " "%char = None.
Proof.
  destruct (chain_b MatchScorer.isjunk target !! " "%char) as [js|] eqn:E;
    [|done].
  apply chain_b_purged in E as [_ E]. done.
Qed.

(** C9 (amended).  The junk predicate of the scorer holds of the space
    character alone; a space of the target is left out of the index [b2j],
    and the junk-free match that [find_longest_match] starts from contains no
    space. *)
Theorem C9_only_space_is_junk target message alo ahi blo bhi :
  valid_region message target (alo, ahi, blo, bhi) →
  (∀ c, MatchScorer.isjunk c = true ↔ c = " "%char) ∧
  chain_b MatchScorer.isjunk target !! " "%char = None ∧
  let x := junk_free_match MatchScorer.isjunk message target alo ahi blo bhi in
  ∀ t, t < x.2 →
       ∃ c, message !! (x.1.1 + t) = Some c ∧ target !! (x.1.2 + t) = Some c
            ∧ c ≠ " "%char.
Proof.
  intros HR. split; [apply isjunk_space|]. split; [apply space_not_indexed|].
  intros x t Ht.
  destruct (junk_free_match_clean MatchScorer.isjunk message target
              alo ahi blo bhi HR) as [_ H].
  destruct (H t Ht) as (c & Ha & Hb & Hc).
  exists c. split; [done|]. split; [done|].
  intros ->. done.
Qed.

Lemma C9_only_space_is_junk_witness :
  let message := list_ascii_of_string "a b" in
  let target := list_ascii_of_string "xa b" in
  valid_region message target (0, 3, 0, 4) ∧
  (∀ c, MatchScorer.isjunk c = true ↔ c = " "%char) ∧
  chain_b MatchScorer.isjunk target !! " "%char = None ∧
  let x := junk_free_match MatchScorer.isjunk message target 0 3 0 4 in
  ∀ t, t < x.2 →
       ∃ c, message !! (x.1.1 + t) = Some c ∧ target !! (x.1.2 + t) = Some c
            ∧ c ≠ " "%char.
Proof.
  assert (H : valid_region (list_ascii_of_string "a b")
                (list_ascii_of_string "xa b") (0, 3, 0, 4)).
  { unfold valid_region; simpl. lia. }
  split; [exact H|].
  exact (C9_only_space_is_junk (list_ascii_of_string "xa b")
           (list_ascii_of_string "a b") 0 3 0 4 H).
Defined.

(** C9 as stated fails: a tab is whitespace but not junk, and a block is
    anchored on it, where none is anchored on a space. *)
Lemma C9_counterexample :
  MatchScorer.isjunk tab = false ∧
  get_matching_blocks MatchScorer.isjunk [tab] ["x"%char; tab]
  = Some [(0, 1, 1); (1, 2, 0)] ∧
  get_matching_blocks MatchScorer.isjunk [" "%char] ["x"%char; " "%char]
  = Some [(1, 2, 0)].
Proof. vm_compute. done. Qed.

(** A space next to a block is still taken into the block. *)
Example space_is_absorbed :
  get_matching_blocks MatchScorer.isjunk
    (list_ascii_of_string "a b") (list_ascii_of_string "a b")
  = Some [(0, 0, 3); (3, 3, 0)].
Proof. vm_compute. done. Qed.

(** ** The matchers on the store *)

Lemma first_from_elem {A} (before : A → A → bool) l :
  ∀ cur, first_from before cur l ∈ cur :: l.
Proof.
  induction l as [|x r IH]; intros cur; simpl.
  - apply list_elem_of_here.
  - specialize (IH (if before x cur then x else cur)).
    apply elem_of_cons in IH as [->|IH].
    + destruct (before x cur).
      * apply list_elem_of_further, list_elem_of_here.
      * apply list_elem_of_here.
    + by do 2 apply list_elem_of_further.
Qed.

Lemma first_by_elem {A} (before : A → A → bool) l x :
  first_by before l = Some x → x ∈ l.
Proof.
  destruct l as [|y r]; simpl; [done|].
  intros [= <-]. apply first_from_elem.
Qed.

Lemma excluded_iff failure_line row :
  excluded failure_line row = true ↔
  (FailureLine.best_classification row.2 = None
   ∧ FailureLine.best_is_verified row.2 = true)
  ∨ FailureLine.job_guid row.2 = FailureLine.job_guid failure_line.
Proof.
  unfold excluded, ignored_line.
  rewrite orb_true_iff, andb_true_iff, !bool_decide_eq_true. done.
Qed.

(** C1 (amended).  A historical edge is a candidate of the exact-field
    matcher for a line exactly when its failure line has the same fields, is
    not from the same job, and is not an ignored line: one with no
    [best_classification] whose [best_is_verified] is set. *)
Theorem C1_candidates_exclude_ignored_and_same_job db failure_line row :
  row ∈ PreciseTestMatcher.matching_failures db failure_line ↔
  row ∈ joined db
  ∧ PreciseTestMatcher.same_fields failure_line row = true
  ∧ FailureLine.job_guid row.2 ≠ FailureLine.job_guid failure_line
  ∧ ¬ (FailureLine.best_classification row.2 = None
       ∧ FailureLine.best_is_verified row.2 = true).
Proof.
  unfold PreciseTestMatcher.matching_failures.
  rewrite list_elem_of_In, filter_In, <- list_elem_of_In.
  rewrite andb_true_iff, negb_true_iff.
  rewrite <- not_true_iff_false, excluded_iff. tauto.
Qed.

(** C1 as stated fails: the edge of a line that is neither verified nor
    classified is a candidate, and it is the match returned. *)
Lemma C1_counterexample :
  let row := (Examples.old_edge, Examples.old_line) in
  row ∈ PreciseTestMatcher.matching_failures Examples.db_unverified
          Examples.new_line
  ∧ FailureLine.best_is_verified row.2 = false
  ∧ FailureLine.best_classification row.2 = None
  ∧ PreciseTestMatcher.call Examples.db_unverified [Examples.new_line]
    = [Match.mk Examples.new_line 7 (5 # 10)].
Proof.
  vm_compute. split; [|done]. apply list_elem_of_here.
Qed.

Lemma penalty_is_eight_tenths (s : Q) : (8 * s / 10 == (8 # 10) * s)%Q.
Proof. field. Qed.

(** C5.  A match returned by the crash-signature matcher is for a crash line
    and carries the score of the first historical edge in the matcher's
    order when that edge's line has the test of the current line, and
    [8 * score / 10], that is 0.8 times the score, when the tests differ. *)
Theorem C5_crash_score db failure_lines m :
  m ∈ CrashSignatureMatcher.call db failure_lines →
  ∃ best_match : Row,
    first_by (CrashSignatureMatcher.by_test_score_id (Match.failure_line m))
             (CrashSignatureMatcher.matching_failures db (Match.failure_line m))
    = Some best_match
    ∧ best_match ∈ joined db
    ∧ Match.failure_line m ∈ failure_lines
    ∧ FailureLine.action (Match.failure_line m) = "crash"%string
    ∧ Match.classified_failure m = FailureMatch.classified_failure best_match.1
    ∧ (FailureLine.test best_match.2 = FailureLine.test (Match.failure_line m) →
       Match.score m = FailureMatch.score best_match.1)
    ∧ (FailureLine.test best_match.2 ≠ FailureLine.test (Match.failure_line m) →
       Match.score m = (8 * FailureMatch.score best_match.1 / 10)%Q
       ∧ (Match.score m == (8 # 10) * FailureMatch.score best_match.1)%Q).
Proof.
  unfold CrashSignatureMatcher.call. intros Hm.
  apply list_elem_of_omap in Hm as (fl & Hfl & Hm).
  unfold CrashSignatureMatcher.match_line in Hm.
  destruct (bool_decide (FailureLine.action fl ≠ "crash"%string)
            || bool_decide (FailureLine.signature fl = None)) eqn:E; [done|].
  apply orb_false_iff in E as [E _]. apply bool_decide_eq_false in E.
  destruct (first_by _ _) as [best|] eqn:Hb; [|done].
  injection Hm as <-. simpl.
  exists best. split; [done|].
  pose proof (first_by_elem _ _ _ Hb) as Hin.
  unfold CrashSignatureMatcher.matching_failures in Hin.
  apply list_elem_of_In, filter_In in Hin as [Hin _].
  apply list_elem_of_In in Hin.
  split; [done|]. split; [done|].
  split; [by destruct (decide (FailureLine.action fl = "crash"%string))|].
  split; [done|].
  unfold CrashSignatureMatcher.adjusted_score. split.
  - intros Ht. rewrite bool_decide_eq_false_2; [done|]. intros Hne. by apply Hne.
  - intros Ht. rewrite bool_decide_eq_true_2 by (intros Heq; by apply Ht).
    split; [done|]. apply penalty_is_eight_tenths.
Qed.

Lemma C5_crash_score_witness :
  let m := Match.mk Examples.new_crash 9 (8 * 1 / 10)%Q in
  m ∈ CrashSignatureMatcher.call Examples.db_crash [Examples.new_crash] ∧
  ∃ best_match : Row,
    first_by (CrashSignatureMatcher.by_test_score_id (Match.failure_line m))
             (CrashSignatureMatcher.matching_failures Examples.db_crash
                (Match.failure_line m))
    = Some best_match
    ∧ best_match ∈ joined Examples.db_crash
    ∧ Match.failure_line m ∈ [Examples.new_crash]
    ∧ FailureLine.action (Match.failure_line m) = "crash"%string
    ∧ Match.classified_failure m = FailureMatch.classified_failure best_match.1
    ∧ (FailureLine.test best_match.2 = FailureLine.test (Match.failure_line m) →
       Match.score m = FailureMatch.score best_match.1)
    ∧ (FailureLine.test best_match.2 ≠ FailureLine.test (Match.failure_line m) →
       Match.score m = (8 * FailureMatch.score best_match.1 / 10)%Q
       ∧ (Match.score m == (8 # 10) * FailureMatch.score best_match.1)%Q).
Proof.
  assert (H : Match.mk Examples.new_crash 9 (8 * 1 / 10)%Q
              ∈ CrashSignatureMatcher.call Examples.db_crash [Examples.new_crash]).
  { vm_compute. apply list_elem_of_here. }
  split; [exact H|].
  exact (C5_crash_score Examples.db_crash [Examples.new_crash] _ H).
Defined.

(** ** The search matcher *)

Section Pool.
Context {A B : Type}.
Variable f : A → Result B.

Lemma run_tasks_fault xs i x e :
  xs !! i = Some x → f x = Fault e →
  ∀ sched slots,
    i ∈ sched →
    ∃ x' e', x' ∈ xs ∧ f x' = Fault e'
             ∧ run_tasks f xs sched slots = Fault e'.
Proof.
  intros Hx Hf. induction sched as [|i0 rest IH]; intros slots Hi.
  - by apply elem_of_nil in Hi.
  - simpl. destruct (xs !! i0) as [x0|] eqn:E0.
    + destruct (f x0) as [y|e0] eqn:Ef.
      * apply elem_of_cons in Hi as [->|Hi]; [congruence|by apply IH].
      * exists x0, e0. split; [|done]. apply list_elem_of_lookup. by exists i0.
    + apply elem_of_cons in Hi as [->|Hi]; [congruence|by apply IH].
Qed.

Lemma run_tasks_all_ok xs ys :
  Forall2 (λ x y, f x = Ok y) xs ys →
  ∀ sched slots,
    length slots = length xs →
    ∃ slots', run_tasks f xs sched slots = Ok slots'
              ∧ length slots' = length xs
              ∧ ∀ i, slots' !! i = if decide (i ∈ sched)
                                   then Some <$> ys !! i else slots !! i.
Proof.
  intros Hall. induction sched as [|i0 rest IH]; intros slots Hlen.
  - exists slots. split; [done|]. split; [done|]. intros i.
    destruct (decide (i ∈ [])) as [H|_]; [by apply elem_of_nil in H|done].
  - simpl. destruct (xs !! i0) as [x0|] eqn:E0.
    + destruct (Forall2_lookup_l _ _ _ _ _ Hall E0) as (y0 & Hy0 & Hf0).
      rewrite Hf0.
      destruct (IH (<[i0 := Some y0]> slots)) as (slots' & Hrun & Hl & Hget).
      { by rewrite length_insert. }
      exists slots'. split; [done|]. split; [done|]. intros i.
      rewrite Hget.
      destruct (decide (i ∈ rest)) as [Hin|Hnin].
      * rewrite decide_True; [done|by apply list_elem_of_further].
      * destruct (decide (i = i0)) as [->|Hne].
        -- rewrite decide_True by apply list_elem_of_here.
           rewrite list_lookup_insert_eq, Hy0; [done|].
           rewrite Hlen. by eapply lookup_lt_Some.
        -- rewrite list_lookup_insert_ne by done.
           rewrite decide_False; [done|].
           intros [?|?]%elem_of_cons; done.
    + destruct (IH slots Hlen) as (slots' & Hrun & Hl & Hget).
      exists slots'. split; [done|]. split; [done|]. intros i.
      rewrite Hget.
      destruct (decide (i ∈ rest)) as [Hin|Hnin].
      * rewrite decide_True; [done|by apply list_elem_of_further].
      * destruct (decide (i = i0)) as [->|Hne].
        -- rewrite decide_True by apply list_elem_of_here.
           apply lookup_ge_None_1 in E0.
           rewrite (lookup_ge_None_2 slots) by lia.
           rewrite (lookup_ge_None_2 ys); [done|].
           by rewrite <- (Forall2_length _ _ _ Hall).
        -- rewrite decide_False; [done|].
           intros [?|?]%elem_of_cons; done.
Qed.

Lemma collect_Some (ys : list B) : collect (Some <$> ys) = Ok ys.
Proof.
  induction ys as [|y ys IH]; [done|].
  rewrite fmap_cons. cbn [collect]. by rewrite IH.
Qed.

Lemma schedule_of_elem n sched i : schedule_of n sched → i < n → i ∈ sched.
Proof.
  unfold schedule_of. intros H Hi. rewrite H. apply elem_of_seq. lia.
Qed.

Lemma pool_map_all_ok xs ys sched :
  schedule_of (length xs) sched →
  Forall2 (λ x y, f x = Ok y) xs ys →
  pool_map f xs sched = Ok ys.
Proof.
  intros Hs Hall. unfold pool_map.
  destruct (run_tasks_all_ok xs ys Hall sched (replicate (length xs) None))
    as (slots' & -> & Hl & Hget).
  { by rewrite length_replicate. }
  replace slots' with (Some <$> ys); [apply collect_Some|].
  apply list_eq. intros i. rewrite Hget, list_lookup_fmap.
  destruct (decide (i ∈ sched)) as [Hin|Hnin]; [done|].
  destruct (decide (i < length xs)) as [Hlt|Hge].
  - destruct Hnin. by eapply schedule_of_elem.
  - rewrite (lookup_ge_None_2 ys).
    + simpl. symmetry. apply lookup_ge_None_2. rewrite length_replicate. lia.
    + rewrite <- (Forall2_length _ _ _ Hall). lia.
Qed.

Lemma pool_map_fault xs sched x e :
  schedule_of (length xs) sched →
  x ∈ xs → f x = Fault e →
  ∃ x' e', x' ∈ xs ∧ f x' = Fault e' ∧ pool_map f xs sched = Fault e'.
Proof.
  intros Hs Hx Hf. apply list_elem_of_lookup in Hx as [i Hi].
  unfold pool_map.
  destruct (run_tasks_fault xs i x e Hi Hf sched
              (replicate (length xs) None)) as (x' & e' & Hx' & Hf' & ->).
  - eapply schedule_of_elem; [done|]. by eapply lookup_lt_Some.
  - by exists x', e'.
Qed.

Lemma all_ok_or_fault xs :
  (∃ ys, Forall2 (λ x y, f x = Ok y) xs ys)
  ∨ (∃ x e, x ∈ xs ∧ f x = Fault e).
Proof.
  induction xs as [|x xs [[ys IH]|(x' & e & Hin & Hf)]].
  - left. by exists [].
  - destruct (f x) as [y|e] eqn:E.
    + left. exists (y :: ys). by constructor.
    + right. exists x, e. split; [apply list_elem_of_here|done].
  - right. exists x', e. split; [by apply list_elem_of_further|done].
Qed.

Lemma pool_map_Ok_inv xs sched rs :
  schedule_of (length xs) sched →
  pool_map f xs sched = Ok rs →
  Forall2 (λ x y, f x = Ok y) xs rs.
Proof.
  intros Hs Hrun. destruct (all_ok_or_fault xs) as [[ys Hys]|(x & e & Hin & Hf)].
  - rewrite (pool_map_all_ok xs ys sched Hs Hys) in Hrun.
    by injection Hrun as <-.
  - destruct (pool_map_fault xs sched x e Hs Hin Hf) as (? & e' & _ & _ & He').
    congruence.
Qed.
End Pool.

(** A search that fails is raised again by [es_match_line]. *)
Lemma es_match_line_reraises backend failure_line e :
  FailureLine.action failure_line = "test_result"%string →
  truthy (FailureLine.message failure_line) = true →
  backend (search_of failure_line) = Fault e →
  es_match_line backend failure_line = Fault e.
Proof.
  intros Ha Hm Hb. unfold es_match_line.
  rewrite bool_decide_eq_false_2 by (intros H; by apply H).
  rewrite Hm, Hb. done.
Qed.

Lemma es_match_line_Fault_inv backend failure_line e :
  es_match_line backend failure_line = Fault e →
  backend (search_of failure_line) = Fault e.
Proof.
  unfold es_match_line. destruct (_ || _); [done|].
  by destruct (backend (search_of failure_line)); intros [= <-].
Qed.

(** C6 (amended).  With a connection, when the search of one line of the
    batch fails, [es_match_line] raises the failure again and the whole call
    of the matcher raises the failure of a failed search, whatever the order
    in which the tasks finish: no match is returned for the other lines. *)
Theorem C6_query_fault_propagates backend sched db failure_lines failure_line e :
  schedule_of (length failure_lines) sched →
  failure_line ∈ failure_lines →
  FailureLine.action failure_line = "test_result"%string →
  truthy (FailureLine.message failure_line) = true →
  backend (search_of failure_line) = Fault e →
  es_match_line backend failure_line = Fault e
  ∧ ∃ failed e',
      failed ∈ failure_lines
      ∧ backend (search_of failed) = Fault e'
      ∧ ElasticSearchTestMatcher.call true backend sched db failure_lines
        = Fault e'.
Proof.
  intros Hs Hin Ha Hm Hb.
  pose proof (es_match_line_reraises _ _ _ Ha Hm Hb) as Hf.
  split; [done|].
  unfold ElasticSearchTestMatcher.call, es_connected,
    ElasticSearchTestMatcher.body.
  destruct (pool_map_fault (es_match_line backend) failure_lines sched
              failure_line e Hs Hin Hf) as (failed & e' & Hin' & Hf' & ->).
  exists failed, e'. split; [done|]. split; [|done].
  by apply es_match_line_Fault_inv.
Qed.

Lemma C6_query_fault_propagates_witness :
  schedule_of 2 [1; 0] ∧
  Examples.line_a ∈ [Examples.line_a; Examples.line_b] ∧
  FailureLine.action Examples.line_a = "test_result"%string ∧
  truthy (FailureLine.message Examples.line_a) = true ∧
  Examples.flaky_backend (search_of Examples.line_a)
  = Fault (BackendError 503) ∧
  es_match_line Examples.flaky_backend Examples.line_a
  = Fault (BackendError 503) ∧
  ∃ failed e',
    failed ∈ [Examples.line_a; Examples.line_b]
    ∧ Examples.flaky_backend (search_of failed) = Fault e'
    ∧ ElasticSearchTestMatcher.call true Examples.flaky_backend [1; 0]
        Examples.db_classified [Examples.line_a; Examples.line_b]
      = Fault e'.
Proof.
  assert (H1 : schedule_of 2 [1; 0]) by apply perm_swap.
  assert (H2 : Examples.line_a ∈ [Examples.line_a; Examples.line_b])
    by apply list_elem_of_here.
  assert (H3 : FailureLine.action Examples.line_a = "test_result"%string)
    by reflexivity.
  assert (H4 : truthy (FailureLine.message Examples.line_a) = true)
    by reflexivity.
  assert (H5 : Examples.flaky_backend (search_of Examples.line_a)
               = Fault (BackendError 503)) by reflexivity.
  split; [exact H1|]. split; [exact H2|]. split; [exact H3|].
  split; [exact H4|]. split; [exact H5|].
  exact (C6_query_fault_propagates Examples.flaky_backend [1; 0]
           Examples.db_classified [Examples.line_a; Examples.line_b]
           Examples.line_a (BackendError 503) H1 H2 H3 H4 H5).
Defined.

(** C6 as stated fails: the search of one line fails, and the call raises
    instead of returning the match of the other line. *)
Lemma C6_counterexample :
  es_match_line Examples.flaky_backend Examples.line_a
  = Fault (BackendError 503)
  ∧ ElasticSearchTestMatcher.call true Examples.flaky_backend [0; 1]
      Examples.db_classified [Examples.line_a; Examples.line_b]
    = Fault (BackendError 503)
  ∧ ElasticSearchTestMatcher.call true Examples.flaky_backend [0]
      Examples.db_classified [Examples.line_b]
    = Ok [Match.mk Examples.line_b 7 (calculate_ratio 10 22)].
Proof. vm_compute. done. Qed.

(** C10.  Whatever the order in which the pool's tasks finish, a call that
    returns a list of matches returns the same list: each line is scored
    against the response of its own search, in the order of the input. *)
Theorem C10_schedule_independent connection backend db failure_lines
        sched1 sched2 rv :
  schedule_of (length failure_lines) sched1 →
  schedule_of (length failure_lines) sched2 →
  ElasticSearchTestMatcher.call connection backend sched1 db failure_lines
  = Ok rv →
  ElasticSearchTestMatcher.call connection backend sched2 db failure_lines
  = Ok rv
  ∧ (connection = true →
     ∃ responses,
       Forall2 (λ failure_line resp,
                  es_match_line backend failure_line = Ok resp)
               failure_lines responses
       ∧ ElasticSearchTestMatcher.score_lines db
           (zip failure_lines responses) [] = Ok rv).
Proof.
  intros H1 H2.
  unfold ElasticSearchTestMatcher.call, es_connected,
    ElasticSearchTestMatcher.body.
  destruct connection; [|by intros [= <-]].
  destruct (pool_map (es_match_line backend) failure_lines sched1)
    as [responses|e] eqn:E; [|done].
  intros Hrv.
  apply pool_map_Ok_inv in E; [|done].
  rewrite (pool_map_all_ok _ _ _ _ H2 E).
  split; [done|]. intros _. by exists responses.
Qed.

Lemma C10_schedule_independent_witness :
  let lines := [Examples.line_a; Examples.line_b] in
  let rv := [Match.mk Examples.line_a 7 (calculate_ratio 1 23);
             Match.mk Examples.line_b 7 (calculate_ratio 10 22)] in
  schedule_of 2 [0; 1] ∧ schedule_of 2 [1; 0] ∧
  ElasticSearchTestMatcher.call true Examples.steady_backend [0; 1]
    Examples.db_classified lines = Ok rv ∧
  ElasticSearchTestMatcher.call true Examples.steady_backend [1; 0]
    Examples.db_classified lines = Ok rv.
Proof.
  assert (H1 : schedule_of 2 [0; 1]) by apply Permutation_refl.
  assert (H2 : schedule_of 2 [1; 0]) by apply perm_swap.
  assert (H3 : ElasticSearchTestMatcher.call true Examples.steady_backend
                 [0; 1] Examples.db_classified
                 [Examples.line_a; Examples.line_b]
               = Ok [Match.mk Examples.line_a 7 (calculate_ratio 1 23);
                     Match.mk Examples.line_b 7 (calculate_ratio 10 22)]).
  { vm_compute. reflexivity. }
  split; [exact H1|]. split; [exact H2|]. split; [exact H3|].
  exact (proj1 (C10_schedule_independent true Examples.steady_backend
                  Examples.db_classified
                  [Examples.line_a; Examples.line_b] [0; 1] [1; 0] _
                  H1 H2 H3)).
Defined.

(** ** The run *)

Section FirstBy.
Context {A : Type} (before : A → A → bool).
Hypothesis asym : ∀ x y, before x y = true → before y x = false.
Hypothesis negtrans :
  ∀ x y z, before x z = true → before x y = true ∨ before y z = true.

Lemma before_irrefl x : before x x = false.
Proof.
  destruct (before x x) eqn:E; [|done].
  pose proof (asym _ _ E). congruence.
Qed.

Lemma first_from_minimal l :
  ∀ cur y, y ∈ l ∨ before y cur = false →
           before y (first_from before cur l) = false.
Proof.
  induction l as [|x r IH]; intros cur y Hy; simpl.
  - destruct Hy as [Hy|Hy]; [by apply elem_of_nil in Hy|done].
  - apply IH. destruct Hy as [Hy|Hy].
    + apply elem_of_cons in Hy as [->|Hy]; [|by left].
      right. destruct (before x cur) eqn:E; [apply before_irrefl|done].
    + right. destruct (before x cur) eqn:E; [|done].
      destruct (before y x) eqn:E'; [|done].
      destruct (negtrans _ cur _ E') as [H|H]; [congruence|].
      pose proof (asym _ _ E). congruence.
Qed.

Lemma first_by_minimal l x y :
  first_by before l = Some x → y ∈ l → before y x = false.
Proof.
  destruct l as [|x0 r]; simpl; [done|].
  intros [= <-] Hy. apply first_from_minimal.
  apply elem_of_cons in Hy as [->|Hy]; [|by left].
  right. apply before_irrefl.
Qed.
End FirstBy.

Lemma sorts_before_iff x y :
  sorts_before x y = true ↔
  (FailureMatch.score y < FailureMatch.score x)%Q
  ∨ ((FailureMatch.score x == FailureMatch.score y)%Q
     ∧ FailureMatch.classified_failure y < FailureMatch.classified_failure x).
Proof.
  unfold sorts_before.
  rewrite orb_true_iff, andb_true_iff, Qgt_bool_iff, Qeq_bool_iff, Nat.ltb_lt.
  done.
Qed.

Lemma sorts_before_asym x y :
  sorts_before x y = true → sorts_before y x = false.
Proof.
  intros H. apply not_true_iff_false. intros H'.
  apply sorts_before_iff in H, H'.
  destruct H as [H|[H1 H2]], H' as [H'|[H1' H2']]; try lra. lia.
Qed.

Lemma sorts_before_negtrans x y z :
  sorts_before x z = true →
  sorts_before x y = true ∨ sorts_before y z = true.
Proof.
  rewrite !sorts_before_iff. intros H.
  destruct (Qlt_le_dec (FailureMatch.score y) (FailureMatch.score x)) as [?|Hxy];
    [by left; left|].
  destruct (Qlt_le_dec (FailureMatch.score z) (FailureMatch.score y)) as [?|Hyz];
    [by right; left|].
  destruct H as [H|[H1 H2]]; [lra|].
  destruct (decide (FailureMatch.classified_failure y
                    < FailureMatch.classified_failure x)).
  - left. right. split; [lra|done].
  - right. right. split; [lra|lia].
Qed.

Lemma by_score_then_id_asym (x y : Row) :
  by_score_then_id x y = true → by_score_then_id y x = false.
Proof. apply (sorts_before_asym x.1 y.1). Qed.

Lemma by_score_then_id_negtrans (x y z : Row) :
  by_score_then_id x z = true →
  by_score_then_id x y = true ∨ by_score_then_id y z = true.
Proof. apply (sorts_before_negtrans x.1 y.1 z.1). Qed.

Lemma by_test_score_id_asym fl (x y : Row) :
  CrashSignatureMatcher.by_test_score_id fl x y = true →
  CrashSignatureMatcher.by_test_score_id fl y x = false.
Proof.
  unfold CrashSignatureMatcher.by_test_score_id.
  pose proof (by_score_then_id_asym x y) as H.
  destruct (CrashSignatureMatcher.Eq fl x), (CrashSignatureMatcher.Eq fl y);
    simpl; done.
Qed.

Lemma by_test_score_id_negtrans fl (x y z : Row) :
  CrashSignatureMatcher.by_test_score_id fl x z = true →
  CrashSignatureMatcher.by_test_score_id fl x y = true
  ∨ CrashSignatureMatcher.by_test_score_id fl y z = true.
Proof.
  unfold CrashSignatureMatcher.by_test_score_id.
  pose proof (by_score_then_id_negtrans x y z) as H.
  destruct (CrashSignatureMatcher.Eq fl x), (CrashSignatureMatcher.Eq fl y),
    (CrashSignatureMatcher.Eq fl z); simpl; try done; auto.
Qed.

(** The match of the exact-field matcher comes from a candidate that no
    other candidate precedes in the order of the query. *)
Lemma precise_first_is_best db fl best row :
  first_by by_score_then_id (PreciseTestMatcher.matching_failures db fl)
  = Some best →
  row ∈ PreciseTestMatcher.matching_failures db fl →
  by_score_then_id row best = false.
Proof.
  apply first_by_minimal;
    [apply by_score_then_id_asym|apply by_score_then_id_negtrans].
Qed.

Lemma crash_first_is_best db fl best row :
  first_by (CrashSignatureMatcher.by_test_score_id fl)
           (CrashSignatureMatcher.matching_failures db fl) = Some best →
  row ∈ CrashSignatureMatcher.matching_failures db fl →
  CrashSignatureMatcher.by_test_score_id fl row best = false.
Proof.
  apply first_by_minimal;
    [apply by_test_score_id_asym|apply by_test_score_id_negtrans].
Qed.

Lemma candidate_filter db failure_line fm :
  candidate db failure_line fm ↔
  fm ∈ List.filter (fun fm : FailureMatch.t =>
                      (FailureMatch.failure_line fm =? FailureLine.id failure_line)
                      && Qle_bool AUTOCLASSIFY_CUTOFF_RATIO (FailureMatch.score fm))
                   (failure_matches db).
Proof.
  unfold candidate.
  rewrite !list_elem_of_In, filter_In.
  rewrite andb_true_iff, Nat.eqb_eq, Qle_bool_iff. tauto.
Qed.

Section RunFacts.
Variable unmatched_for_job : Store → string → string → list FailureLine.t.
Variable registered_matchers : list Matcher.

(** C8.  For a job whose result is none of testfailed, busted and exception,
    the run returns after the job lookup: the unmatched lines are not
    fetched and the store is not written. *)
Theorem C8_result_gate repository job_guid w job :
  jobs (store w) !! job_guid = Some job →
  Job.result job ∉ ["testfailed"; "busted"; "exception"]%string →
  let w' := (match_errors unmatched_for_job registered_matchers
               repository job_guid w).1 in
  match_errors unmatched_for_job registered_matchers repository job_guid w
  = (w', Ok tt)
  ∧ store w' = store w
  ∧ log w' = log w ++ [EGetJob job_guid].
Proof.
  intros Hjob Hres. unfold match_errors, get_job, bind, emit, read_store, ret.
  simpl. rewrite Hjob. unfold failure_status.
  rewrite bool_decide_eq_false_2 by done. simpl. done.
Qed.

(** ** The waterfall *)

Lemma no_calls_waterfall D evs : no_calls evs → waterfall D evs.
Proof.
  revert D. induction evs as [|e evs IH]; intros D H; [done|].
  apply Forall_cons in H as [He H].
  destruct e; simpl in *; try done; by apply IH.
Qed.

Lemma waterfall_app_l D pre evs :
  no_calls pre → waterfall D evs → waterfall D (pre ++ evs).
Proof.
  induction pre as [|e pre IH]; intros H Hw; [done|].
  apply Forall_cons in H as [He H].
  destruct e; simpl in *; try done; by apply IH.
Qed.

Lemma waterfall_app_r evs post :
  no_calls post → ∀ D, waterfall D evs → waterfall D (evs ++ post).
Proof.
  intros Hp. induction evs as [|e evs IH]; intros D Hw.
  - by apply no_calls_waterfall.
  - destruct e; simpl in *; try by apply IH.
    destruct Hw as (H1 & H2 & H3). split; [done|]. split.
    + intros HD. apply Forall_app. split; [by apply H2|done].
    + by apply IH.
Qed.

Lemma waterfall_suffix l l' :
  ∀ D, waterfall D (l ++ l') → ∃ D', D' ⊆ D ∧ waterfall D' l'.
Proof.
  induction l as [|e l IH]; intros D Hw.
  - by exists D.
  - destruct e; simpl in Hw; try by apply IH.
    destruct Hw as (_ & _ & Hw).
    destruct (IH _ Hw) as (D' & Hsub & Hw').
    exists D'. split; [|done].
    intros x Hx. apply Hsub in Hx. by apply elem_of_difference in Hx as [? _].
Qed.

Lemma waterfall_removed D evs l1 m1 in1 ms1 l2 m2 in2 out2 l3 mt fl :
  waterfall D evs →
  evs = l1 ++ ECallMatcher m1 in1 (Ok ms1)
           :: l2 ++ ECallMatcher m2 in2 out2 :: l3 →
  mt ∈ ms1 → good_enough mt = true → fl ∈ in2 →
  FailureLine.id fl ≠ match_id mt.
Proof.
  intros Hw -> Hmt Hgood Hfl Heq.
  apply waterfall_suffix in Hw as (D1 & _ & Hw).
  destruct Hw as (_ & _ & Hw).
  apply waterfall_suffix in Hw as (D2 & Hsub & Hw).
  destruct Hw as (Hin & _).
  assert (H1 : FailureLine.id fl ∈ D2).
  { rewrite <- Hin. unfold line_ids. apply elem_of_list_to_set.
    apply list_elem_of_fmap. by exists fl. }
  assert (H2 : match_id mt ∈ good_ids (Ok ms1)).
  { simpl. apply elem_of_list_to_set, list_elem_of_fmap. exists mt.
    split; [done|]. apply list_elem_of_In, filter_In.
    split; [by apply list_elem_of_In|done]. }
  rewrite Heq in H1. apply Hsub in H1.
  apply elem_of_difference in H1 as [_ H1]. by apply H1.
Qed.

Lemma waterfall_stops D evs l1 m inp ms l2 :
  waterfall D evs →
  evs = l1 ++ ECallMatcher m inp (Ok ms) :: l2 →
  (∀ fl, fl ∈ inp →
         ∃ mt, mt ∈ ms ∧ match_id mt = FailureLine.id fl
               ∧ good_enough mt = true) →
  no_calls l2.
Proof.
  intros Hw -> Hall.
  apply waterfall_suffix in Hw as (D1 & _ & Hw).
  destruct Hw as (Hin & Hstop & _). apply Hstop.
  apply set_eq. intros x. split; [|set_solver].
  intros [Hx Hnx]%elem_of_difference. destruct Hnx.
  rewrite <- Hin in Hx. unfold line_ids in Hx.
  apply elem_of_list_to_set, list_elem_of_fmap in Hx as (fl & -> & Hfl).
  destruct (Hall fl Hfl) as (mt & Hmt & Hid & Hg).
  simpl. apply elem_of_list_to_set, list_elem_of_fmap. exists mt.
  split; [done|]. apply list_elem_of_In, filter_In.
  split; [by apply list_elem_of_In|done].
Qed.

(** ** The sets of a run *)

Lemma keyed_empty : keyed ∅.
Proof. intros k fl. by rewrite lookup_empty. Qed.

Lemma keyed_set_add fl s : keyed s → keyed (set_add fl s).
Proof.
  intros Hs. unfold set_add. destruct (s !! FailureLine.id fl); [done|].
  intros k fl'. destruct (decide (FailureLine.id fl = k)) as [<-|Hne].
  - rewrite lookup_insert_eq. by intros [= <-].
  - rewrite lookup_insert_ne by done. apply Hs.
Qed.

Lemma keyed_delete k s : keyed s → keyed (delete k s).
Proof.
  intros Hs k' fl H. apply lookup_delete_Some in H as [_ H]. by apply Hs.
Qed.

Lemma keyed_set_of_list l : keyed (set_of_list l).
Proof.
  unfold set_of_list.
  assert (H : ∀ s, keyed s → keyed (fold_left (λ s fl, set_add fl s) l s)).
  { induction l as [|fl l IH]; intros s Hs; simpl; [done|].
    by apply IH, keyed_set_add. }
  apply H, keyed_empty.
Qed.

Lemma line_ids_set_items s : keyed s → line_ids (set_items s) = dom s.
Proof.
  intros Hs. unfold line_ids, set_items. apply set_eq. intros x.
  rewrite elem_of_list_to_set, list_elem_of_fmap, elem_of_dom. split.
  - intros (fl & -> & Hfl).
    apply list_elem_of_fmap in Hfl as ([k fl'] & -> & Hin).
    apply elem_of_map_to_list in Hin. simpl.
    rewrite (Hs _ _ Hin). by eexists.
  - intros [fl Hfl]. exists fl. split; [by rewrite (Hs _ _ Hfl)|].
    apply list_elem_of_fmap. exists (x, fl).
    split; [done|]. by apply elem_of_map_to_list.
Qed.

Lemma set_remove_Ok fl s s' :
  set_remove fl s = Ok s' → s' = delete (FailureLine.id fl) s.
Proof.
  unfold set_remove. destruct (s !! FailureLine.id fl); [|done].
  by intros [= <-].
Qed.

Lemma good_ids_cons m ms :
  good_ids (Ok (m :: ms))
  = (if good_enough m then {[ match_id m ]} else ∅) ∪ good_ids (Ok ms).
Proof.
  cbn [good_ids List.filter]. destruct (good_enough m).
  - by rewrite fmap_cons, list_to_set_cons.
  - by rewrite (left_id_L ∅ (∪)).
Qed.

Lemma record_match_run matcher m sets w :
  ∃ w' r,
    record_match matcher m sets w = (w', r)
    ∧ (∃ evs, log w' = log w ++ evs ∧ no_calls evs)
    ∧ (∀ sets', r = Ok sets' →
                sets'.1 = if good_enough m then delete (match_id m) sets.1
                          else sets.1).
Proof.
  unfold record_match, matches_add, save, bind, emit, write_store, ret, raise.
  simpl. fold (good_enough m).
  set (logs := (log w ++ [_]) ++ [_]).
  assert (Hlogs : ∃ evs, logs = log w ++ evs ∧ no_calls evs).
  { eexists. unfold logs. rewrite <- app_assoc. split; [done|].
    by repeat constructor. }
  destruct (good_enough m).
  - destruct (set_remove (Match.failure_line m) sets.1) as [u|e] eqn:E;
      do 2 eexists; (split; [done|]); (split; [exact Hlogs|]).
    + intros sets' [= <-]. simpl. by apply set_remove_Ok.
    + done.
  - do 2 eexists. split; [done|]. split; [exact Hlogs|].
    by intros sets' [= <-].
Qed.

Lemma record_matches_run matcher ms :
  ∀ sets w, keyed sets.1 →
    ∃ w' r,
      record_matches matcher ms sets w = (w', r)
      ∧ (∃ evs, log w' = log w ++ evs ∧ no_calls evs)
      ∧ (∀ sets', r = Ok sets' →
                  keyed sets'.1
                  ∧ dom sets'.1 = dom sets.1 ∖ good_ids (Ok ms)).
Proof.
  induction ms as [|m ms IH]; intros sets w Hk.
  - exists w, (Ok sets). split; [done|]. split.
    + exists []. split; [by rewrite app_nil_r|constructor].
    + intros sets' [= <-]. split; [done|]. cbn [good_ids List.filter].
      by rewrite fmap_nil, list_to_set_nil, difference_empty_L.
  - destruct (record_match_run matcher m sets w)
      as (w1 & r1 & Hrun & (evs1 & Hlog1 & Hnc1) & Hsets).
    cbn [record_matches]. unfold bind at 1. rewrite Hrun.
    destruct r1 as [sets1|e].
    + specialize (Hsets sets1 eq_refl).
      assert (Hk1 : keyed sets1.1).
      { rewrite Hsets. destruct (good_enough m); [by apply keyed_delete|done]. }
      destruct (IH sets1 w1 Hk1) as (w' & r & Hrun' & (evs & Hlog & Hnc) & Hfin).
      exists w', r. split; [done|]. split.
      * exists (evs1 ++ evs). rewrite Hlog, Hlog1, app_assoc.
        split; [done|]. by apply Forall_app.
      * intros sets' Hr. destruct (Hfin sets' Hr) as [Hk' Hdom].
        split; [done|]. rewrite Hdom, Hsets, good_ids_cons.
        destruct (good_enough m).
        -- by rewrite dom_delete_L, difference_difference_l_L.
        -- by rewrite (left_id_L ∅ (∪)).
    + exists w1, (Fault e). split; [done|]. split; [by exists evs1|done].
Qed.

Lemma run_matchers_waterfall matchers :
  ∀ sets w, keyed sets.1 →
    ∃ evs, log (run_matchers matchers sets w).1 = log w ++ evs
           ∧ waterfall (dom sets.1) evs.
Proof.
  induction matchers as [|matcher rest IH]; intros sets w Hk.
  - exists []. simpl. by rewrite app_nil_r.
  - cbn [run_matchers]. unfold bind at 1. unfold call_matcher at 1.
    set (input := set_items sets.1).
    set (output := call matcher (store w) input).
    set (w0 := mkWorld (store w)
                 (log w ++ [ECallMatcher (db_object matcher) input output])).
    assert (Hin : line_ids input = dom sets.1) by by apply line_ids_set_items.
    destruct output as [ms|e] eqn:Hout.
    + destruct (record_matches_run matcher ms sets w0 Hk)
        as (w1 & r1 & Hrun & (evs1 & Hlog1 & Hnc1) & Hsets).
      unfold bind at 1. rewrite Hrun.
      destruct r1 as [sets1|e].
      * destruct (Hsets sets1 eq_refl) as [Hk1 Hdom].
        destruct (is_empty sets1.1) eqn:Hemp.
        -- exists (ECallMatcher (db_object matcher) input (Ok ms) :: evs1).
           simpl. rewrite Hlog1. simpl. rewrite <- app_assoc.
           split; [done|]. split; [done|].
           split; [done|by apply no_calls_waterfall].
        -- destruct (IH sets1 w1 Hk1) as (evs & Hlog & Hw).
           exists (ECallMatcher (db_object matcher) input (Ok ms)
                     :: evs1 ++ evs).
           rewrite Hlog, Hlog1. simpl. rewrite <- !app_assoc.
           split; [done|]. split; [done|]. split.
           ++ intros HD. change (dom sets.1 ∖ good_ids (Ok ms) = ∅) in HD.
              rewrite <- Hdom in HD.
              apply dom_empty_inv_L in HD.
              apply bool_decide_eq_false in Hemp. done.
           ++ apply waterfall_app_l; [done|].
              change (waterfall (dom sets.1 ∖ good_ids (Ok ms)) evs).
              by rewrite <- Hdom.
      * exists (ECallMatcher (db_object matcher) input (Ok ms) :: evs1).
        simpl. rewrite Hlog1. simpl. rewrite <- app_assoc.
        split; [done|]. split; [done|].
        split; [done|by apply no_calls_waterfall].
    + exists [ECallMatcher (db_object matcher) input (Fault e)].
      simpl. split; [done|]. split; [done|].
      split; [intros _; constructor|done].
Qed.

Lemma resolve_best_log fl w :
  ∃ evs, log (resolve_best fl w).1 = log w ++ evs ∧ no_calls evs.
Proof.
  unfold resolve_best, bind, read_store, save, emit, write_store, ret.
  destruct (best_automatic_match _ _ _); simpl.
  - eexists. split; [done|]. by repeat constructor.
  - exists []. split; [by rewrite app_nil_r|constructor].
Qed.

Lemma resolve_best_Ok fl w : (resolve_best fl w).2 = Ok tt.
Proof.
  unfold resolve_best, bind, read_store, save, emit, write_store, ret.
  by destruct (best_automatic_match _ _ _).
Qed.

Lemma resolve_all_log lines :
  ∀ w, ∃ evs, log (resolve_all lines w).1 = log w ++ evs ∧ no_calls evs.
Proof.
  induction lines as [|fl lines IH]; intros w.
  - exists []. simpl. split; [by rewrite app_nil_r|constructor].
  - cbn [resolve_all]. unfold bind at 1.
    destruct (resolve_best_log fl w) as (evs1 & Hlog1 & Hnc1).
    pose proof (resolve_best_Ok fl w) as Hok.
    destruct (resolve_best fl w) as [w1 r1]. simpl in *. subst r1.
    destruct (IH w1) as (evs & Hlog & Hnc).
    exists (evs1 ++ evs). rewrite Hlog, Hlog1, app_assoc.
    split; [done|]. by apply Forall_app.
Qed.

Lemma match_errors_waterfall repository job_guid w :
  ∃ D evs,
    log (match_errors unmatched_for_job registered_matchers
           repository job_guid w).1 = log w ++ evs
    ∧ waterfall D evs.
Proof.
  unfold match_errors, get_job.
  unfold bind at 1. unfold bind at 1. unfold emit at 1. cbv iota beta.
  unfold bind at 1. unfold read_store at 1, ret at 1. cbv iota beta.
  cbn [store log].
  destruct (jobs (store w) !! job_guid) as [job|].
  2:{ exists ∅. eexists. split; [done|].
      by apply no_calls_waterfall; repeat constructor. }
  destruct (failure_status (Job.result job)); cbn [negb].
  2:{ exists ∅. eexists. split; [done|].
      by apply no_calls_waterfall; repeat constructor. }
  unfold bind at 1. unfold emit at 1. cbv iota beta. cbn [store log].
  unfold bind at 1. unfold read_store at 1. cbv iota beta. cbn [store log].
  set (unmatched := set_of_list _).
  destruct (is_empty unmatched).
  { exists ∅. eexists. unfold ret. cbn [fst log]. rewrite <- app_assoc.
    split; [done|]. by apply no_calls_waterfall; repeat constructor. }
  unfold bind at 1.
  set (w0 := mkWorld _ _).
  destruct (run_matchers_waterfall registered_matchers (unmatched, ∅) w0
              (keyed_set_of_list _)) as (evs & Hlog & Hw).
  destruct (run_matchers registered_matchers (unmatched, ∅) w0)
    as [w1 [sets|e]]; cbn [fst] in Hlog.
  - unfold bind at 1.
    destruct (resolve_all_log (set_items sets.2) w1) as (evs2 & Hlog2 & Hnc2).
    destruct (resolve_all (set_items sets.2) w1) as [w2 [[]|e]];
      cbn [fst] in Hlog2.
    + exists (dom unmatched).
      destruct (is_empty sets.2).
      * unfold ret. cbn [fst]. rewrite Hlog2, Hlog. unfold w0. cbn [log].
        rewrite <- !app_assoc. eexists. split; [done|].
        do 2 (apply waterfall_app_l; [by repeat constructor|]).
        by apply waterfall_app_r.
      * unfold update_after_autoclassification, bind, emit, write_store.
        cbn [fst log]. rewrite Hlog2, Hlog. unfold w0. cbn [log].
        rewrite <- !app_assoc. eexists. split; [done|].
        do 2 (apply waterfall_app_l; [by repeat constructor|]).
        apply waterfall_app_r; [|done].
        apply Forall_app. split; [done|by repeat constructor].
    + exists (dom unmatched). cbn [fst]. rewrite Hlog2, Hlog. unfold w0.
      cbn [log]. rewrite <- !app_assoc. eexists. split; [done|].
      do 2 (apply waterfall_app_l; [by repeat constructor|]).
      by apply waterfall_app_r.
  - exists (dom unmatched). cbn [fst]. rewrite Hlog. unfold w0. cbn [log].
    rewrite <- !app_assoc. eexists. split; [done|].
    do 2 (apply waterfall_app_l; [by repeat constructor|]). done.
Qed.

(** X24.  In one run: a line for which a matcher returned a match that
    passes the test of the run, [score >= AUTOCLASSIFY_GOOD_ENOUGH_RATIO], is
    in the input of no later matcher; when every line passed to a matcher
    got such a match (the unresolved set is empty afterwards), no further
    matcher is called; and recording such a match removes the line from the
    unresolved set. *)
Theorem good_enough_lines_leave_the_waterfall repository job_guid w :
  ∃ evs,
    log (match_errors unmatched_for_job registered_matchers
           repository job_guid w).1 = log w ++ evs
    ∧ (∀ l1 m1 in1 ms1 l2 m2 in2 out2 l3 mt fl,
         evs = l1 ++ ECallMatcher m1 in1 (Ok ms1)
                  :: l2 ++ ECallMatcher m2 in2 out2 :: l3 →
         mt ∈ ms1 →
         (AUTOCLASSIFY_GOOD_ENOUGH_RATIO <= Match.score mt)%Q →
         fl ∈ in2 →
         FailureLine.id fl ≠ FailureLine.id (Match.failure_line mt))
    ∧ (∀ l1 m inp ms l2,
         evs = l1 ++ ECallMatcher m inp (Ok ms) :: l2 →
         (∀ fl, fl ∈ inp →
                ∃ mt, mt ∈ ms
                      ∧ FailureLine.id (Match.failure_line mt)
                        = FailureLine.id fl
                      ∧ (AUTOCLASSIFY_GOOD_ENOUGH_RATIO <= Match.score mt)%Q) →
         ∀ e, e ∈ l2 → is_call e = false)
    ∧ (∀ matcher mt sets w0 w1 sets',
         record_match matcher mt sets w0 = (w1, Ok sets') →
         (AUTOCLASSIFY_GOOD_ENOUGH_RATIO <= Match.score mt)%Q →
         sets'.1 !! FailureLine.id (Match.failure_line mt) = None).
Proof.
  destruct (match_errors_waterfall repository job_guid w)
    as (D & evs & Hlog & Hw).
  exists evs. split; [done|]. split; [|split].
  - intros l1 m1 in1 ms1 l2 m2 in2 out2 l3 mt fl Hevs Hmt Hg Hfl.
    eapply (waterfall_removed D evs); try done.
    by apply Qle_bool_iff.
  - intros l1 m inp ms l2 Hevs Hall e He.
    assert (Hnc : no_calls l2).
    { eapply (waterfall_stops D evs); try done.
      intros fl Hfl. destruct (Hall fl Hfl) as (mt & ? & ? & ?).
      exists mt. split; [done|]. split; [done|]. by apply Qle_bool_iff. }
    unfold no_calls in Hnc. rewrite Forall_forall in Hnc. by apply Hnc.
  - intros matcher mt sets w0 w1 sets' Hrun Hg.
    destruct (record_match_run matcher mt sets w0)
      as (w' & r & Hrun' & _ & Hsets).
    rewrite Hrun in Hrun'. injection Hrun' as <- <-.
    rewrite (Hsets sets' eq_refl).
    apply Qle_bool_iff in Hg. unfold good_enough. rewrite Hg.
    apply lookup_delete_eq.
Qed.
End RunFacts.

Lemma C8_result_gate_witness :
  let w := mkWorld Examples.db_passing [] in
  let run := match_errors Examples.lines_of_job
               (Examples.registered true Examples.steady_backend)
               "repo" "guid-5" w in
  jobs (store w) !! "guid-5"%string = Some Examples.passing_job
  ∧ (Job.result Examples.passing_job
     ∉ ["testfailed"; "busted"; "exception"]%string)
  ∧ run = (run.1, Ok tt)
  ∧ store run.1 = store w
  ∧ log run.1 = log w ++ [EGetJob "guid-5"].
Proof.
  assert (H1 : jobs Examples.db_passing !! "guid-5"%string
               = Some Examples.passing_job) by reflexivity.
  assert (H2 : Job.result Examples.passing_job
               ∉ ["testfailed"; "busted"; "exception"]%string).
  { apply (bool_decide_eq_false_1 _). reflexivity. }
  split; [exact H1|]. split; [exact H2|].
  exact (C8_result_gate Examples.lines_of_job
           (Examples.registered true Examples.steady_backend)
           "repo" "guid-5" (mkWorld Examples.db_passing [])
           Examples.passing_job H1 H2).
Defined.

(** ** Three runs *)

(** A run with two unresolved lines: the exact-field matcher resolves line 2
    with score 0.95, and the later matchers are called with line 4 alone. *)
Example waterfall_run :
  let run := match_errors Examples.lines_of_job
               (Examples.registered false Examples.steady_backend)
               "repo" "guid-8" (mkWorld Examples.db_two_lines []) in
  run.2 = Ok tt
  ∧ calls_of (log run.1) = [(1, [4; 2]); (2, [4]); (3, [4])]
  ∧ (FailureLine.best_classification <$> (failure_lines (store run.1) !! 2))
    = Some (Some 7)
  ∧ (FailureLine.best_classification <$> (failure_lines (store run.1) !! 4))
    = Some (Some 9).
Proof. vm_compute. done. Qed.

(** Scenario B of the specification, without a search connection: the crash
    is matched with score 0.8, stays unresolved, and gets its classification. *)
Example scenario_B :
  let run := match_errors Examples.lines_of_job
               (Examples.registered false Examples.steady_backend)
               "repo" "guid-6" (mkWorld Examples.db_failed []) in
  run.2 = Ok tt
  ∧ failure_matches (store run.1)
    = [Examples.crash_edge; FailureMatch.mk 4 9 2 (8 # 10)]
  ∧ (FailureLine.best_classification <$> (failure_lines (store run.1) !! 4))
    = Some (Some 9)
  ∧ notified (store run.1) = [6].
Proof. vm_compute. done. Qed.

(** With a connection the same run raises: the search matcher receives the
    crash line, for which [es_match_line] returns [None]. *)
Example crash_line_in_search_matcher :
  (match_errors Examples.lines_of_job
     (Examples.registered true Examples.steady_backend)
     "repo" "guid-6" (mkWorld Examples.db_failed [])).2
  = Fault TypeError.
Proof. vm_compute. done. Qed.

(** * Further properties *)

(** ** The scorer *)

Lemma differ_nonempty (x y : list ascii) :
  length x = length y → x ≠ y → 0 < length x.
Proof.
  destruct x as [|c x]; [|simpl; lia].
  destruct y as [|d y]; [done|]. simpl. lia.
Qed.

Lemma near_split x1 k x2 y1 y2 :
  near x1 y1 + length k + near x2 y2 ≤ near (x1 ++ k ++ x2) (y1 ++ k ++ y2).
Proof.
  unfold near. rewrite !length_app.
  destruct (bool_decide (_ ∧ x1 ++ _ ≠ _)) eqn:E; [|repeat case_bool_decide; lia].
  apply bool_decide_eq_true in E as [El En].
  destruct (decide (length x1 = length y1)) as [E1|E1];
    [|repeat case_bool_decide; lia].
  assert (E2 : length x2 = length y2) by lia.
  destruct (decide (x1 = y1)) as [->|N1].
  - assert (N2 : x2 ≠ y2) by (intros ->; done).
    pose proof (differ_nonempty _ _ E2 N2).
    rewrite (bool_decide_eq_true_2 (_ ∧ x2 ≠ y2)) by done.
    repeat case_bool_decide; lia.
  - pose proof (differ_nonempty _ _ E1 N1).
    rewrite (bool_decide_eq_true_2 (_ ∧ x1 ≠ y1)) by done.
    repeat case_bool_decide; lia.
Qed.

Lemma near_le_common x y : near x y ≤ length x `min` length y.
Proof. unfold near. lia. Qed.

Section Measure.
Variable μ : list ascii → list ascii → nat.
Hypothesis μ_split : ∀ x1 k x2 y1 y2,
  μ x1 y1 + length k + μ x2 y2 ≤ μ (x1 ++ k ++ x2) (y1 ++ k ++ y2).
Variable isjunk : ascii → bool.
Variables a b : list ascii.

#[local] Abbreviation region_μ :=
  (λ r : Region, μ (slice a r.1.1.1 r.1.1.2) (slice b r.1.2 r.2)).

Lemma region_measure_split r x :
  valid_region a b r → valid_block a b r x →
  region_μ (r.1.1.1, x.1.1, r.1.2, x.1.2) + x.2
  + region_μ (x.1.1 + x.2, r.1.1.2, x.1.2 + x.2, r.2)
  ≤ region_μ r.
Proof.
  intros (R1 & R2 & R3 & R4) Hx.
  pose proof (slice_block _ _ _ _ Hx) as Hs.
  destruct Hx as ((H1 & H2 & H3 & H4) & _).
  cbn [fst snd].
  rewrite (slice_split a r.1.1.1 x.1.1 r.1.1.2) by lia.
  rewrite (slice_split a x.1.1 (x.1.1 + x.2) r.1.1.2) by lia.
  rewrite (slice_split b r.1.2 x.1.2 r.2) by lia.
  rewrite (slice_split b x.1.2 (x.1.2 + x.2) r.2) by lia.
  rewrite <- Hs.
  etrans; [|apply μ_split].
  rewrite slice_length by lia. lia.
Qed.

Lemma blocks_loop_measure fuel :
  ∀ queue acc,
    Forall (valid_region a b) queue →
    sum_list_with region_weight queue ≤ fuel →
    ∃ bl, blocks_loop isjunk a b fuel queue acc = Some bl ∧
          sum_list_with block_size bl
          ≤ sum_list_with block_size acc + sum_list_with region_μ queue.
Proof.
  induction fuel as [|fuel IH]; intros queue acc Hq Hw.
  - destruct queue as [|[[[alo ahi] blo] bhi] queue].
    + exists acc. split; [done|lia].
    + sums. lia.
  - destruct queue as [|[[[alo ahi] blo] bhi] queue].
    + exists acc. split; [done|lia].
    + apply Forall_cons in Hq as [Hr Hq].
      pose proof (find_longest_match_sound isjunk a b alo ahi blo bhi Hr)
        as Hx.
      pose proof (region_measure_split _ _ Hr Hx) as Hc.
      cbn [blocks_loop].
      destruct (find_longest_match isjunk a b alo ahi blo bhi)
        as [[i j] k] eqn:E.
      destruct Hx as ((H1 & H2 & H3 & H4) & _).
      destruct Hr as (R1 & R2 & R3 & R4).
      cbn [fst snd] in *. sums. cbn [fst snd] in *.
      destruct (k =? 0) eqn:Ek.
      * destruct (IH queue acc Hq ltac:(lia)) as (bl & Hbl & Hsum).
        exists bl. split; [done|]. lia.
      * apply Nat.eqb_neq in Ek.
        set (q1 := if (alo <? i) && (blo <? j)
                   then (alo, i, blo, j) :: queue else queue).
        set (q2 := if (i + k <? ahi) && (j + k <? bhi)
                   then (i + k, ahi, j + k, bhi) :: q1 else q1).
        assert (Hq1 : Forall (valid_region a b) q1 ∧
                      sum_list_with region_weight q1
                      ≤ 2 * (i - alo) + 1 + sum_list_with region_weight queue ∧
                      sum_list_with region_μ q1
                      ≤ region_μ (alo, i, blo, j)
                        + sum_list_with region_μ queue).
        { unfold q1. destruct ((alo <? i) && (blo <? j)).
          - split; [|split; sums; cbn [fst snd]; lia].
            apply Forall_cons. split; [|done].
            unfold valid_region; cbn [fst snd]. lia.
          - split; [done|]. split; lia. }
        destruct Hq1 as (Hv1 & Hw1 & Hc1).
        assert (Hq2 : Forall (valid_region a b) q2 ∧
                      sum_list_with region_weight q2
                      ≤ 2 * (ahi - (i + k)) + 1 + sum_list_with region_weight q1 ∧
                      sum_list_with region_μ q2
                      ≤ region_μ (i + k, ahi, j + k, bhi)
                        + sum_list_with region_μ q1).
        { unfold q2. destruct ((i + k <? ahi) && (j + k <? bhi)).
          - split; [|split; sums; cbn [fst snd]; lia].
            apply Forall_cons. split; [|done].
            unfold valid_region; cbn [fst snd]. lia.
          - split; [done|]. split; lia. }
        destruct Hq2 as (Hv2 & Hw2 & Hc2).
        cbn [fst snd] in *.
        destruct (IH q2 (acc ++ [(i, j, k)]) Hv2 ltac:(lia))
          as (bl & Hbl & Hsum).
        exists bl. split; [done|]. sums. lia.
Qed.

Lemma get_matching_blocks_measure :
  ∃ bl, get_matching_blocks isjunk a b = Some bl ∧ sum_sizes bl ≤ μ a b.
Proof.
  unfold get_matching_blocks, raw_blocks, loop_fuel.
  destruct (blocks_loop_measure (2 * length a + 1)
              [(0, length a, 0, length b)] []) as (bl & -> & Hsum).
  - apply Forall_cons. split; [|done].
    unfold valid_region; cbn [fst snd]. lia.
  - sums. lia.
  - eexists. split; [done|].
    rewrite sum_sizes_alt, sum_list_with_app, collapse_sum.
    rewrite merge_sort_Permutation.
    sums. cbn [fst snd] in *. rewrite !slice_full in Hsum. lia.
Qed.

End Measure.

Lemma common_le_min x y : common x y ≤ length x `min` length y.
Proof.
  unfold common. rewrite <- !size_mset.
  apply Nat.min_glb; apply gmultiset_subseteq_size; multiset_solver.
Qed.

Lemma ratio_bounds target message :
  (0 <= MatchScorer.ratio target message)%Q
  ∧ (MatchScorer.ratio target message <= MatchScorer.quick_ratio target message)%Q
  ∧ (MatchScorer.quick_ratio target message <= 1)%Q.
Proof.
  unfold MatchScorer.ratio, MatchScorer.quick_ratio.
  pose proof (common_le_min message target) as Hc.
  split; [|split].
  - unfold ratio.
    destruct (get_matching_blocks_spec MatchScorer.isjunk message target)
      as (bl & -> & H).
    rewrite quick_matches_common in H.
    apply calculate_ratio_range. lia.
  - apply ratio_le_quick_ratio.
  - unfold quick_ratio. rewrite quick_matches_common.
    apply calculate_ratio_range. lia.
Qed.

(** X1.  The ratio of a candidate is a number between 0 and 1, and the quick
    ratio that [best_match] tests first is an upper bound of it that is
    itself at most 1. *)
Theorem ratio_between_0_and_1 target message :
  (0 <= MatchScorer.ratio target message)%Q
  ∧ (MatchScorer.ratio target message
     <= MatchScorer.quick_ratio target message)%Q
  ∧ (MatchScorer.quick_ratio target message <= 1)%Q.
Proof. apply ratio_bounds. Qed.

(** X2.  For a message and a target of at most [2 ^ 53] characters in all
    (beyond that, floats no longer tell a quotient just below 1 from 1),
    only a message equal to the target has the ratio 1: a candidate that
    differs from the target in any character scores below 1. *)
Theorem perfect_ratio_identical target message :
  (Z.of_nat (length message + length target) <= 2 ^ 53)%Z →
  (MatchScorer.ratio target message == 1)%Q → message = target.
Proof.
  unfold MatchScorer.ratio, ratio. intros Hlen H.
  destruct (get_matching_blocks_measure near near_split MatchScorer.isjunk
              message target) as (bl & Hbl & Hsum).
  rewrite Hbl in H. apply calculate_ratio_one in H;
    [|done|pose proof (near_le_common message target); lia].
  destruct (decide (message = target)) as [|N]; [done|exfalso].
  unfold near in Hsum.
  destruct H as [H|H].
  - destruct message, target; simpl in *; done || lia.
  - case_bool_decide as Hd; [|assert (length message ≠ length target) by tauto; lia].
    destruct Hd as [Hl _]. pose proof (differ_nonempty _ _ Hl N). lia.
Qed.

Lemma perfect_ratio_identical_witness :
  (Z.of_nat (length Cases.target + length Cases.target) <= 2 ^ 53)%Z
  ∧ (MatchScorer.ratio Cases.target Cases.target == 1)%Q
  ∧ Cases.target = Cases.target.
Proof.
  assert (H0 : (Z.of_nat (length Cases.target + length Cases.target)
                <= 2 ^ 53)%Z) by (vm_compute; discriminate).
  assert (H : (MatchScorer.ratio Cases.target Cases.target == 1)%Q)
    by (vm_compute; reflexivity).
  split; [exact H0|]. split; [exact H|].
  exact (perfect_ratio_identical Cases.target Cases.target H0 H).
Defined.

(** X3.  [best_match] returns a candidate of the list with its ratio to the
    target: the first candidate whose ratio no candidate exceeds ("the
    closest match"); the candidates before it have a smaller ratio. *)
Theorem best_match_first_greatest {A} target (matches : list (A * list ascii))
        r m :
  MatchScorer.best_match target matches = Some (r, m) →
  ∃ pre message post,
    matches = pre ++ (m, message) :: post
    ∧ r = MatchScorer.ratio target message
    ∧ (∀ x, x ∈ pre → (MatchScorer.ratio target x.2 < r)%Q)
    ∧ (∀ x, x ∈ matches → (MatchScorer.ratio target x.2 <= r)%Q).
Proof.
  unfold MatchScorer.best_match. rewrite best_match_from_exhaustive.
  apply best_match_exhaustive_first_maximum.
Qed.

Lemma best_match_first_greatest_witness :
  MatchScorer.best_match Cases.target Cases.candidates
  = Some (MatchScorer.ratio Cases.target Cases.target, 2)
  ∧ ∃ pre message post,
      Cases.candidates = pre ++ (2, message) :: post
      ∧ MatchScorer.ratio Cases.target Cases.target
        = MatchScorer.ratio Cases.target message
      ∧ (∀ x, x ∈ pre →
              (MatchScorer.ratio Cases.target x.2
               < MatchScorer.ratio Cases.target Cases.target)%Q)
      ∧ (∀ x, x ∈ Cases.candidates →
              (MatchScorer.ratio Cases.target x.2
               <= MatchScorer.ratio Cases.target Cases.target)%Q).
Proof.
  assert (H : MatchScorer.best_match Cases.target Cases.candidates
              = Some (MatchScorer.ratio Cases.target Cases.target, 2))
    by (vm_compute; reflexivity).
  split; [exact H|].
  exact (best_match_first_greatest Cases.target Cases.candidates _ _ H).
Defined.

(** ** The matchers *)

Lemma joined_edge db row : row ∈ joined db → row.1 ∈ failure_matches db.
Proof.
  unfold joined. intros H. apply list_elem_of_omap in H as (fm & Hfm & H).
  destruct (failure_lines db !! _); [|done]. by injection H as <-.
Qed.

Lemma by_score_then_id_false x y :
  by_score_then_id x y = false →
  (FailureMatch.score x.1 < FailureMatch.score y.1)%Q
  ∨ ((FailureMatch.score x.1 == FailureMatch.score y.1)%Q
     ∧ FailureMatch.classified_failure x.1
       ≤ FailureMatch.classified_failure y.1).
Proof.
  unfold by_score_then_id. intros H.
  apply orb_false_iff in H as [H1 H2].
  apply not_true_iff_false in H1. rewrite Qgt_bool_iff in H1.
  apply Qnot_lt_le in H1.
  destruct (Qlt_le_dec (FailureMatch.score x.1) (FailureMatch.score y.1))
    as [Hlt|Hle]; [by left|right].
  assert (Heq : (FailureMatch.score x.1 == FailureMatch.score y.1)%Q)
    by by apply Qle_antisym.
  split; [done|].
  apply Qeq_bool_iff in Heq. rewrite Heq in H2. simpl in H2.
  apply Nat.ltb_ge in H2. done.
Qed.

Lemma omap_sublist {A B} (f : A → option B) (g : B → A) l :
  (∀ x y, f x = Some y → g y = x) → sublist (g <$> omap f l) l.
Proof.
  intros Hf. induction l as [|x l IH]; simpl; [constructor|].
  destruct (f x) as [y|] eqn:E; simpl.
  - rewrite (Hf _ _ E). by constructor.
  - by constructor.
Qed.

Lemma precise_match_line_line db fl m :
  PreciseTestMatcher.match_line db fl = Some m → Match.failure_line m = fl.
Proof.
  unfold PreciseTestMatcher.match_line.
  destruct (bool_decide _); [|done].
  destruct (first_by _ _); [|done]. by intros [= <-].
Qed.

Lemma crash_match_line_line db fl m :
  CrashSignatureMatcher.match_line db fl = Some m → Match.failure_line m = fl.
Proof.
  unfold CrashSignatureMatcher.match_line.
  destruct (_ || _); [done|].
  destruct (first_by _ _); [|done]. by intros [= <-].
Qed.

Lemma precise_answers_input db failure_lines :
  answers_input failure_lines (PreciseTestMatcher.call db failure_lines).
Proof. apply omap_sublist, precise_match_line_line. Qed.

Lemma crash_answers_input db failure_lines :
  answers_input failure_lines (CrashSignatureMatcher.call db failure_lines).
Proof. apply omap_sublist, crash_match_line_line. Qed.

Lemma first_by_is_Some {A} (before : A → A → bool) l x :
  x ∈ l → is_Some (first_by before l).
Proof. destruct l; [by intros ?%elem_of_nil|by eexists]. Qed.

(** X4.  A match of the exact-field matcher is for a test_result line of the
    input and carries, unchanged, the classified failure and the score of a
    candidate edge of that line that no other candidate beats: no candidate
    has a higher score, and none of the same score has a greater
    classified-failure id. *)
Theorem precise_match_is_best_candidate db failure_lines m :
  m ∈ PreciseTestMatcher.call db failure_lines →
  Match.failure_line m ∈ failure_lines
  ∧ FailureLine.action (Match.failure_line m) = "test_result"%string
  ∧ ∃ best : Row,
      best ∈ PreciseTestMatcher.matching_failures db (Match.failure_line m)
      ∧ Match.classified_failure m = FailureMatch.classified_failure best.1
      ∧ Match.score m = FailureMatch.score best.1
      ∧ ∀ row : Row,
          row ∈ PreciseTestMatcher.matching_failures db (Match.failure_line m) →
          (FailureMatch.score row.1 < FailureMatch.score best.1)%Q
          ∨ ((FailureMatch.score row.1 == FailureMatch.score best.1)%Q
             ∧ FailureMatch.classified_failure row.1
               ≤ FailureMatch.classified_failure best.1).
Proof.
  unfold PreciseTestMatcher.call. intros Hm.
  apply list_elem_of_omap in Hm as (fl & Hfl & Hm).
  unfold PreciseTestMatcher.match_line in Hm.
  case_bool_decide as Ha; [|done].
  destruct (first_by _ _) as [best|] eqn:Hb; [|done].
  injection Hm as <-. simpl.
  split; [done|]. split; [done|].
  exists best. split; [by eapply first_by_elem|].
  split; [done|]. split; [done|].
  intros row Hrow. apply by_score_then_id_false.
  by eapply precise_first_is_best.
Qed.

(** X5.  The exact-field matcher answers for a line exactly when the line
    is a test_result line of the input that has a candidate edge. *)
Theorem precise_matched_lines db failure_lines failure_line :
  (∃ m, m ∈ PreciseTestMatcher.call db failure_lines
        ∧ Match.failure_line m = failure_line)
  ↔ failure_line ∈ failure_lines
    ∧ FailureLine.action failure_line = "test_result"%string
    ∧ ∃ row, row ∈ PreciseTestMatcher.matching_failures db failure_line.
Proof.
  unfold PreciseTestMatcher.call. split.
  - intros (m & Hm & <-).
    apply list_elem_of_omap in Hm as (fl & Hfl & Hm).
    pose proof (precise_match_line_line _ _ _ Hm) as ->.
    unfold PreciseTestMatcher.match_line in Hm.
    case_bool_decide as Ha; [|done].
    destruct (first_by _ _) as [best|] eqn:Hb; [|done].
    split; [done|]. split; [done|].
    exists best. by eapply first_by_elem.
  - intros (Hfl & Ha & row & Hrow).
    destruct (first_by_is_Some by_score_then_id _ _ Hrow) as [best Hb].
    eexists. split.
    + apply list_elem_of_omap. exists failure_line. split; [done|].
      unfold PreciseTestMatcher.match_line.
      rewrite bool_decide_eq_true_2 by done. by rewrite Hb.
    + done.
Qed.

Lemma by_test_score_id_false fl x y :
  CrashSignatureMatcher.by_test_score_id fl x y = false →
  CrashSignatureMatcher.Eq fl x = true →
  CrashSignatureMatcher.Eq fl y = true ∧ by_score_then_id x y = false.
Proof.
  unfold CrashSignatureMatcher.by_test_score_id. intros H Hx.
  rewrite Hx in H. destruct (CrashSignatureMatcher.Eq fl y); [|done].
  simpl in H. done.
Qed.

(** X6.  When a candidate of the crash-signature matcher has the test of the
    line, the match comes from a candidate of that test, with its score
    unchanged, and no candidate of that test beats it: the order puts equal
    tests before scores. *)
Theorem crash_prefers_same_test db failure_lines m row :
  m ∈ CrashSignatureMatcher.call db failure_lines →
  row ∈ CrashSignatureMatcher.matching_failures db (Match.failure_line m) →
  FailureLine.test row.2 = FailureLine.test (Match.failure_line m) →
  ∃ best : Row,
    best ∈ CrashSignatureMatcher.matching_failures db (Match.failure_line m)
    ∧ FailureLine.test best.2 = FailureLine.test (Match.failure_line m)
    ∧ Match.classified_failure m = FailureMatch.classified_failure best.1
    ∧ Match.score m = FailureMatch.score best.1
    ∧ ((FailureMatch.score row.1 < FailureMatch.score best.1)%Q
       ∨ ((FailureMatch.score row.1 == FailureMatch.score best.1)%Q
          ∧ FailureMatch.classified_failure row.1
            ≤ FailureMatch.classified_failure best.1)).
Proof.
  unfold CrashSignatureMatcher.call. intros Hm.
  apply list_elem_of_omap in Hm as (fl & Hfl & Hm).
  pose proof (crash_match_line_line _ _ _ Hm) as ->.
  unfold CrashSignatureMatcher.match_line in Hm.
  destruct (_ || _); [done|].
  destruct (first_by _ _) as [best|] eqn:Hb; [|done].
  injection Hm as <-. cbn [Match.failure_line Match.classified_failure Match.score].
  intros Hrow Ht.
  pose proof (crash_first_is_best _ _ _ _ Hb Hrow) as Hmin.
  apply by_test_score_id_false in Hmin as [He Hmin];
    [|by apply bool_decide_eq_true].
  apply bool_decide_eq_true in He.
  exists best. split; [by eapply first_by_elem|].
  split; [done|]. split; [done|]. split.
  - unfold CrashSignatureMatcher.adjusted_score.
    by rewrite bool_decide_eq_false_2 by (intros ?; congruence).
  - by apply by_score_then_id_false.
Qed.

Lemma unit_score_penalty q : unit_score q → unit_score (8 * q / 10).
Proof.
  unfold unit_score. intros [H0 H1].
  assert (E : (8 * q / 10 == (8 # 10) * q)%Q) by field.
  rewrite E. split; lra.
Qed.

Lemma Qle_bool_false x y : (y < x)%Q → Qle_bool x y = false.
Proof.
  intros H. apply not_true_iff_false. rewrite Qle_bool_iff.
  by apply Qlt_not_le.
Qed.

(** X7.  In a store whose scores are in the range 0-1, a crash match for a
    line that has no candidate of its own test scores at most 0.8, which is
    below the good-enough ratio: the line stays unresolved. *)
Theorem crash_other_test_not_good_enough db failure_lines m :
  scores_in_range db →
  m ∈ CrashSignatureMatcher.call db failure_lines →
  (∀ row, row ∈ CrashSignatureMatcher.matching_failures db (Match.failure_line m) →
          FailureLine.test row.2 ≠ FailureLine.test (Match.failure_line m)) →
  (Match.score m <= 8 # 10)%Q ∧ good_enough m = false.
Proof.
  intros Hdb Hm Hother.
  unfold CrashSignatureMatcher.call in Hm.
  apply list_elem_of_omap in Hm as (fl & Hfl & Hm).
  pose proof (crash_match_line_line _ _ _ Hm) as Hl. rewrite Hl in Hother.
  unfold CrashSignatureMatcher.match_line in Hm.
  destruct (_ || _); [done|].
  destruct (first_by _ _) as [best|] eqn:Hb; [|done].
  injection Hm as <-. unfold good_enough. cbn [Match.score].
  pose proof (first_by_elem _ _ _ Hb) as Hin.
  pose proof (Hother _ Hin) as Hne.
  unfold CrashSignatureMatcher.adjusted_score.
  rewrite bool_decide_eq_true_2 by (intros ?; congruence).
  assert (Hs : unit_score (FailureMatch.score best.1)).
  { apply Hdb, joined_edge.
    unfold CrashSignatureMatcher.matching_failures in Hin.
    apply list_elem_of_In, filter_In in Hin as [Hin _].
    by apply list_elem_of_In. }
  destruct Hs as [H0 H1].
  assert (E : (8 * FailureMatch.score best.1 / 10
               == (8 # 10) * FailureMatch.score best.1)%Q) by field.
  assert (Hle : (8 * FailureMatch.score best.1 / 10 <= 8 # 10)%Q)
    by (rewrite E; lra).
  split; [done|].
  apply Qle_bool_false. unfold AUTOCLASSIFY_GOOD_ENOUGH_RATIO.
  eapply Qle_lt_trans; [exact Hle|]. reflexivity.
Qed.

Lemma precise_scores db failure_lines m :
  scores_in_range db → m ∈ PreciseTestMatcher.call db failure_lines →
  unit_score (Match.score m).
Proof.
  intros Hdb Hm. unfold PreciseTestMatcher.call in Hm.
  apply list_elem_of_omap in Hm as (fl & Hfl & Hm).
  unfold PreciseTestMatcher.match_line in Hm.
  destruct (bool_decide _); [|done].
  destruct (first_by _ _) as [best|] eqn:Hb; [|done].
  injection Hm as <-. cbn [Match.score].
  apply Hdb, joined_edge.
  pose proof (first_by_elem _ _ _ Hb) as Hin.
  unfold PreciseTestMatcher.matching_failures in Hin.
  apply list_elem_of_In, filter_In in Hin as [Hin _].
  by apply list_elem_of_In.
Qed.

Lemma crash_scores db failure_lines m :
  scores_in_range db → m ∈ CrashSignatureMatcher.call db failure_lines →
  unit_score (Match.score m).
Proof.
  intros Hdb Hm. unfold CrashSignatureMatcher.call in Hm.
  apply list_elem_of_omap in Hm as (fl & Hfl & Hm).
  unfold CrashSignatureMatcher.match_line in Hm.
  destruct (_ || _); [done|].
  destruct (first_by _ _) as [best|] eqn:Hb; [|done].
  injection Hm as <-. cbn [Match.score].
  assert (Hs : unit_score (FailureMatch.score best.1)).
  { apply Hdb, joined_edge.
    pose proof (first_by_elem _ _ _ Hb) as Hin.
    unfold CrashSignatureMatcher.matching_failures in Hin.
    apply list_elem_of_In, filter_In in Hin as [Hin _].
    by apply list_elem_of_In. }
  unfold CrashSignatureMatcher.adjusted_score.
  case_bool_decide; [by apply unit_score_penalty|done].
Qed.

Lemma score_lines_inv db pairs :
  ∀ rv0 rv,
    ElasticSearchTestMatcher.score_lines db pairs rv0 = Ok rv →
    ∃ outs,
      Forall2 (λ p o, ElasticSearchTestMatcher.score_line db p.1 p.2 = Ok o)
              pairs outs
      ∧ rv = rv0 ++ omap id outs.
Proof.
  induction pairs as [|[fl resp] pairs IH]; intros rv0 rv; simpl.
  - intros [= <-]. exists []. split; [constructor|]. by rewrite app_nil_r.
  - destruct (ElasticSearchTestMatcher.score_line db fl resp) as [[m|]|e] eqn:E;
      [| |done]; intros H; apply IH in H as (outs & Hall & ->).
    + exists (Some m :: outs). split; [by constructor|].
      simpl. by rewrite <- app_assoc.
    + exists (None :: outs). split; [by constructor|done].
Qed.

Lemma score_lines_fault db pairs p e :
  p ∈ pairs →
  ElasticSearchTestMatcher.score_line db p.1 p.2 = Fault e →
  ∀ rv0, ∃ p' e',
    p' ∈ pairs
    ∧ ElasticSearchTestMatcher.score_line db p'.1 p'.2 = Fault e'
    ∧ ElasticSearchTestMatcher.score_lines db pairs rv0 = Fault e'.
Proof.
  intros Hin Hp. induction pairs as [|[fl resp] pairs IH]; intros rv0.
  - by apply elem_of_nil in Hin.
  - simpl.
    destruct (ElasticSearchTestMatcher.score_line db fl resp) as [[m|]|e0] eqn:E.
    + apply elem_of_cons in Hin as [->|Hin]; [simpl in Hp; congruence|].
      destruct (IH Hin (rv0 ++ [m])) as (p' & e' & H1 & H2 & H3).
      exists p', e'. split; [by apply list_elem_of_further|done].
    + apply elem_of_cons in Hin as [->|Hin]; [simpl in Hp; congruence|].
      destruct (IH Hin rv0) as (p' & e' & H1 & H2 & H3).
      exists p', e'. split; [by apply list_elem_of_further|done].
    + exists (fl, resp), e0. split; [apply list_elem_of_here|done].
Qed.

Lemma score_line_Fault_inv db fl resp e :
  ElasticSearchTestMatcher.score_line db fl resp = Fault e →
  e = TypeError ∨ e = DoesNotExist.
Proof.
  unfold ElasticSearchTestMatcher.score_line.
  destruct (FailureLine.message fl); [|intros [= <-]; by left].
  destruct resp; [|intros [= <-]; by left].
  destruct (MatchScorer.best_match _ _); [|done].
  case_bool_decide; [done|]. intros [= <-]. by right.
Qed.

Lemma best_match_hit target (hits : list Hit.t) r hit :
  MatchScorer.best_match target
    (map (λ item : Hit.t, (item, list_ascii_of_string (Hit.message item))) hits)
  = Some (r, hit) →
  hit ∈ hits
  ∧ r = MatchScorer.ratio target (list_ascii_of_string (Hit.message hit))
  ∧ ∀ h, h ∈ hits →
         (MatchScorer.ratio target (list_ascii_of_string (Hit.message h)) <= r)%Q.
Proof.
  unfold MatchScorer.best_match. rewrite best_match_from_exhaustive.
  intros H. apply best_match_exhaustive_first_maximum in H
    as (pre & message & post & Heq & Hr & _ & Hall).
  assert (Hin : (hit, message)
                ∈ map (λ item : Hit.t,
                         (item, list_ascii_of_string (Hit.message item))) hits).
  { rewrite Heq. apply elem_of_app. right. apply list_elem_of_here. }
  apply list_elem_of_In, in_map_iff in Hin as (h & Hh & Hin).
  injection Hh as -> <-. apply list_elem_of_In in Hin.
  split; [done|]. split; [done|].
  intros h' Hh'.
  apply (Hall (h', list_ascii_of_string (Hit.message h'))).
  apply list_elem_of_In, in_map_iff. exists h'.
  split; [done|]. by apply list_elem_of_In.
Qed.

Lemma score_line_Some db fl resp m :
  ElasticSearchTestMatcher.score_line db fl resp = Ok (Some m) →
  Match.failure_line m = fl
  ∧ ∃ target hits hit,
      FailureLine.message fl = Some target
      ∧ resp = Some hits
      ∧ hit ∈ hits
      ∧ Match.classified_failure m = Hit.best_classification hit
      ∧ Match.classified_failure m ∈ classified_failures db
      ∧ Match.score m
        = MatchScorer.ratio (list_ascii_of_string target)
                            (list_ascii_of_string (Hit.message hit))
      ∧ ∀ h, h ∈ hits →
             (MatchScorer.ratio (list_ascii_of_string target)
                                (list_ascii_of_string (Hit.message h))
              <= Match.score m)%Q.
Proof.
  unfold ElasticSearchTestMatcher.score_line.
  destruct (FailureLine.message fl) as [target|]; [|done].
  destruct resp as [hits|]; [|done].
  destruct (MatchScorer.best_match _ _) as [[r hit]|] eqn:Hb; [|done].
  case_bool_decide as Hcf; [|done].
  intros [= <-]. simpl. split; [done|].
  apply best_match_hit in Hb as (Hin & Hr & Hall).
  exists target, hits, hit. by rewrite <- Hr.
Qed.

Lemma es_match_line_Some backend fl hits :
  es_match_line backend fl = Ok (Some hits) →
  FailureLine.action fl = "test_result"%string
  ∧ truthy (FailureLine.message fl) = true
  ∧ backend (search_of fl) = Ok hits.
Proof.
  unfold es_match_line.
  destruct (bool_decide _ || _) eqn:E; [done|].
  apply orb_false_iff in E as [E1 E2].
  apply bool_decide_eq_false in E1. apply negb_false_iff in E2.
  destruct (backend (search_of fl)); [|done].
  intros [= <-]. split; [|done].
  by destruct (decide (FailureLine.action fl = "test_result"%string)).
Qed.

Lemma es_match_line_None backend fl :
  FailureLine.action fl ≠ "test_result"%string
  ∨ truthy (FailureLine.message fl) = false →
  es_match_line backend fl = Ok None.
Proof.
  unfold es_match_line. intros [H|H].
  - by rewrite bool_decide_eq_true_2.
  - rewrite H. simpl. by rewrite orb_true_r.
Qed.

Lemma fst_zip_sublist {A B} (l : list A) (k : list B) :
  sublist (zip l k).*1 l.
Proof.
  revert k. induction l as [|x l IH]; intros [|y k]; simpl;
    try constructor; [apply sublist_nil_l|apply IH].
Qed.

Lemma scored_lines_sublist db pairs outs :
  Forall2 (λ p o, ElasticSearchTestMatcher.score_line db p.1 p.2 = Ok o)
          pairs outs →
  sublist (Match.failure_line <$> omap id outs) pairs.*1.
Proof.
  induction 1 as [|[fl resp] [m|] pairs outs H Hall IH]; simpl.
  - constructor.
  - apply score_line_Some in H as [-> _]. by constructor.
  - by constructor.
Qed.

Lemma scored_elem db pairs outs m :
  Forall2 (λ p o, ElasticSearchTestMatcher.score_line db p.1 p.2 = Ok o)
          pairs outs →
  m ∈ omap id outs →
  ∃ p, p ∈ pairs ∧ ElasticSearchTestMatcher.score_line db p.1 p.2 = Ok (Some m).
Proof.
  intros Hall Hm. apply list_elem_of_omap in Hm as (o & Ho & Hm).
  simpl in Hm. subst o.
  apply list_elem_of_lookup in Ho as [i Hi].
  destruct (Forall2_lookup_r _ _ _ _ _ Hall Hi) as (p & Hp & Hs).
  exists p. split; [|done]. by eapply list_elem_of_lookup_2.
Qed.

Lemma search_answers_input connection backend sched db failure_lines rv :
  ElasticSearchTestMatcher.call connection backend sched db failure_lines
  = Ok rv →
  answers_input failure_lines rv.
Proof.
  unfold ElasticSearchTestMatcher.call, es_connected,
    ElasticSearchTestMatcher.body, answers_input.
  destruct connection; [|intros [= <-]; apply sublist_nil_l].
  destruct (pool_map _ _ _) as [responses|]; [|done].
  intros H. apply score_lines_inv in H as (outs & Hall & ->). simpl.
  etrans; [by eapply scored_lines_sublist|apply fst_zip_sublist].
Qed.

Lemma search_scores connection backend sched db failure_lines rv m :
  ElasticSearchTestMatcher.call connection backend sched db failure_lines
  = Ok rv →
  m ∈ rv → unit_score (Match.score m).
Proof.
  unfold ElasticSearchTestMatcher.call, es_connected,
    ElasticSearchTestMatcher.body.
  destruct connection; [|intros [= <-] Hm; by apply elem_of_nil in Hm].
  destruct (pool_map _ _ _) as [responses|]; [|done].
  intros H Hm. apply score_lines_inv in H as (outs & Hall & ->). simpl in Hm.
  destruct (scored_elem _ _ _ _ Hall Hm) as (p & _ & Hp).
  apply score_line_Some in Hp as (_ & target & hits & hit & _ & _ & _ & _ & _ & -> & _).
  destruct (ratio_bounds (list_ascii_of_string target)
              (list_ascii_of_string (Hit.message hit))) as (H0 & H1 & H2).
  split; [done|]. by eapply Qle_trans.
Qed.

Lemma zip_elem_Forall2 {A B} (P : A → B → Prop) l k x y :
  Forall2 P l k → (x, y) ∈ zip l k → x ∈ l ∧ P x y.
Proof.
  induction 1 as [|a b l k Hab Hall IH]; simpl.
  - by intros ?%elem_of_nil.
  - intros [[= -> ->]|Hin]%elem_of_cons.
    + split; [apply list_elem_of_here|done].
    + destruct (IH Hin). split; [by apply list_elem_of_further|done].
Qed.

Lemma Forall2_zip_elem {A B} (P : A → B → Prop) l k x :
  Forall2 P l k → x ∈ l → ∃ y, (x, y) ∈ zip l k ∧ P x y.
Proof.
  induction 1 as [|a b l k Hab Hall IH]; simpl.
  - by intros ?%elem_of_nil.
  - intros [->|Hin]%elem_of_cons.
    + exists b. split; [apply list_elem_of_here|done].
    + destruct (IH Hin) as (y & Hy & HP).
      exists y. split; [by apply list_elem_of_further|done].
Qed.

Lemma pool_map_Fault_inv {A B} (f : A → Result B) xs sched e :
  schedule_of (length xs) sched →
  pool_map f xs sched = Fault e →
  ∃ x, x ∈ xs ∧ f x = Fault e.
Proof.
  intros Hs Hrun.
  destruct (all_ok_or_fault f xs) as [[ys Hys]|(x & e0 & Hin & Hf)].
  - rewrite (pool_map_all_ok f xs ys sched Hs Hys) in Hrun. done.
  - destruct (pool_map_fault f xs sched x e0 Hs Hin Hf)
      as (x' & e' & Hin' & Hf' & He').
    rewrite He' in Hrun. injection Hrun as <-. by exists x'.
Qed.

(** X9.  A match that the search matcher returns is for a test_result line
    of the input; its classified failure is the [best_classification] of one
    of the hits of the line's own search and exists in the store; its score
    is the ratio of that hit's message to the line's message, and no hit of
    that search has a greater ratio. *)
Theorem search_match_is_best_hit connection backend sched db failure_lines rv m :
  schedule_of (length failure_lines) sched →
  ElasticSearchTestMatcher.call connection backend sched db failure_lines
  = Ok rv →
  m ∈ rv →
  Match.failure_line m ∈ failure_lines
  ∧ FailureLine.action (Match.failure_line m) = "test_result"%string
  ∧ ∃ target hits hit,
      FailureLine.message (Match.failure_line m) = Some target
      ∧ backend (search_of (Match.failure_line m)) = Ok hits
      ∧ hit ∈ hits
      ∧ Match.classified_failure m = Hit.best_classification hit
      ∧ Match.classified_failure m ∈ classified_failures db
      ∧ Match.score m
        = MatchScorer.ratio (list_ascii_of_string target)
                            (list_ascii_of_string (Hit.message hit))
      ∧ ∀ h, h ∈ hits →
             (MatchScorer.ratio (list_ascii_of_string target)
                                (list_ascii_of_string (Hit.message h))
              <= Match.score m)%Q.
Proof.
  intros Hs. unfold ElasticSearchTestMatcher.call, es_connected,
    ElasticSearchTestMatcher.body.
  destruct connection; [|intros [= <-] Hm; by apply elem_of_nil in Hm].
  destruct (pool_map _ _ _) as [responses|] eqn:Hp; [|done].
  apply pool_map_Ok_inv in Hp; [|done].
  intros H Hm. apply score_lines_inv in H as (outs & Hall & ->). simpl in Hm.
  destruct (scored_elem _ _ _ _ Hall Hm) as ([fl resp] & Hin & Hsc).
  simpl in Hsc. apply score_line_Some in Hsc
    as (-> & target & hits & hit & Ht & -> & Hsc). simpl in *.
  destruct (zip_elem_Forall2 _ _ _ _ _ Hp Hin) as [Hfl Hes].
  apply es_match_line_Some in Hes as (Ha & _ & Hb).
  split; [done|]. split; [done|]. by exists target, hits, hit.
Qed.

Lemma best_match_cons {A} target (x : A * list ascii) rest :
  is_Some (MatchScorer.best_match target (x :: rest)).
Proof.
  unfold MatchScorer.best_match. destruct x as [m message].
  cbn [MatchScorer.best_match_from MatchScorer.at_least MatchScorer.above].
  apply best_match_from_Some.
Qed.

(** X10.  When a connected call of the search matcher returns, it answers
    for a line exactly when the line is in the input and its search found at
    least one hit. *)
Theorem search_matched_lines backend sched db failure_lines rv failure_line :
  schedule_of (length failure_lines) sched →
  ElasticSearchTestMatcher.call true backend sched db failure_lines = Ok rv →
  (∃ m, m ∈ rv ∧ Match.failure_line m = failure_line)
  ↔ failure_line ∈ failure_lines
    ∧ ∃ hit hits, backend (search_of failure_line) = Ok (hit :: hits).
Proof.
  intros Hs. unfold ElasticSearchTestMatcher.call, es_connected,
    ElasticSearchTestMatcher.body.
  destruct (pool_map _ _ _) as [responses|] eqn:Hp; [|done].
  apply pool_map_Ok_inv in Hp; [|done].
  intros H. apply score_lines_inv in H as (outs & Hall & ->). simpl.
  split.
  - intros (m & Hm & <-).
    destruct (scored_elem _ _ _ _ Hall Hm) as ([fl resp] & Hin & Hsc).
    simpl in Hsc. apply score_line_Some in Hsc
      as (-> & target & hits & hit & Ht & -> & Hhit & _). simpl in *.
    destruct (zip_elem_Forall2 _ _ _ _ _ Hp Hin) as [Hfl Hes].
    apply es_match_line_Some in Hes as (Ha & _ & Hb).
    split; [done|]. destruct hits as [|h hits]; [by apply elem_of_nil in Hhit|].
    by exists h, hits.
  - intros (Hfl & hit & hits & Hb).
    destruct (Forall2_zip_elem _ _ _ _ Hp Hfl) as (resp & Hin & Hes).
    apply list_elem_of_lookup in Hin as [i Hi].
    destruct (Forall2_lookup_l _ _ _ _ _ Hall Hi) as (o & Ho & Hsc).
    simpl in Hsc.
    assert (∃ m, o = Some m ∧ Match.failure_line m = failure_line)
      as (m & -> & Hm).
    { unfold ElasticSearchTestMatcher.score_line in Hsc.
      destruct (FailureLine.message failure_line) as [target|]; [|done].
      destruct resp as [hits'|]; [|done].
      apply es_match_line_Some in Hes as (_ & _ & Hb').
      rewrite Hb in Hb'. injection Hb' as <-.
      destruct (best_match_cons (list_ascii_of_string target)
                  (hit, list_ascii_of_string (Hit.message hit))
                  (map (λ item : Hit.t,
                          (item, list_ascii_of_string (Hit.message item))) hits))
        as [b Hbm].
      cbn [map] in Hsc. rewrite Hbm in Hsc.
      case_bool_decide; [|done]. injection Hsc as <-. by eexists. }
    exists m. split; [|done].
    apply list_elem_of_omap. exists (Some m).
    split; [by eapply list_elem_of_lookup_2|done].
Qed.

(** X11.  A connected call of the search matcher on a batch that holds a
    line that is not a test_result, or has no message, returns no matches:
    it raises [TypeError] (the bare [return] of [es_match_line] is iterated),
    [DoesNotExist], or the exception of a failed search. *)
Theorem search_matcher_rejects_other_lines backend sched db failure_lines
        failure_line :
  schedule_of (length failure_lines) sched →
  failure_line ∈ failure_lines →
  FailureLine.action failure_line ≠ "test_result"%string
  ∨ truthy (FailureLine.message failure_line) = false →
  ∃ e,
    ElasticSearchTestMatcher.call true backend sched db failure_lines = Fault e
    ∧ (e = TypeError ∨ e = DoesNotExist
       ∨ ∃ failed, failed ∈ failure_lines
                   ∧ backend (search_of failed) = Fault e).
Proof.
  intros Hs Hfl Hno. apply (es_match_line_None backend) in Hno.
  unfold ElasticSearchTestMatcher.call, es_connected,
    ElasticSearchTestMatcher.body.
  destruct (pool_map _ _ _) as [responses|e] eqn:Hp.
  - apply pool_map_Ok_inv in Hp; [|done].
    destruct (Forall2_zip_elem _ _ _ _ Hp Hfl) as (resp & Hin & Hes).
    rewrite Hno in Hes. injection Hes as <-.
    destruct (score_lines_fault db _ (failure_line, None) TypeError Hin)
      with (rv0 := @nil Match.t) as (p' & e' & _ & Hf & ->).
    { unfold ElasticSearchTestMatcher.score_line. simpl.
      by destruct (FailureLine.message failure_line). }
    exists e'. split; [done|].
    apply score_line_Fault_inv in Hf as [->| ->]; auto.
  - exists e. split; [done|]. right. right.
    apply pool_map_Fault_inv in Hp as (failed & Hin & Hf); [|done].
    exists failed. split; [done|]. by apply es_match_line_Fault_inv.
Qed.

(** X8.  Each of the three matchers answers with at most one match for each
    line of its input, in the order of the input. *)
Theorem matchers_answer_in_order db failure_lines :
  sublist (Match.failure_line <$> PreciseTestMatcher.call db failure_lines)
          failure_lines
  ∧ sublist (Match.failure_line
               <$> CrashSignatureMatcher.call db failure_lines)
            failure_lines
  ∧ ∀ connection backend sched rv,
      ElasticSearchTestMatcher.call connection backend sched db failure_lines
      = Ok rv →
      sublist (Match.failure_line <$> rv) failure_lines.
Proof.
  split; [apply precise_answers_input|].
  split; [apply crash_answers_input|].
  intros connection backend sched rv. apply search_answers_input.
Qed.

(** X12.  On a store whose scores are in the range 0-1, every match that one
    of the three matchers returns has a score in the range 0-1, as the
    docstring of [Matcher.__call__] asks; the search matcher does so on any
    store. *)
Theorem matchers_return_unit_scores db failure_lines :
  scores_in_range db →
  (∀ m, m ∈ PreciseTestMatcher.call db failure_lines →
        unit_score (Match.score m))
  ∧ (∀ m, m ∈ CrashSignatureMatcher.call db failure_lines →
          unit_score (Match.score m))
  ∧ ∀ connection backend sched rv m,
      ElasticSearchTestMatcher.call connection backend sched db failure_lines
      = Ok rv →
      m ∈ rv → unit_score (Match.score m).
Proof.
  intros Hdb. split; [intros m; by apply precise_scores|].
  split; [intros m; by apply crash_scores|].
  intros connection backend sched rv m. apply search_scores.
Qed.

(** The matchers of [register()] answer as the run needs. *)
Lemma registered_well_behaved connection backend :
  Forall well_behaved (Examples.registered connection backend).
Proof.
  unfold Examples.registered.
  apply Forall_cons_2; [|apply Forall_cons_2; [|apply Forall_cons_2;
                                                  [|apply Forall_nil_2]]];
    intros db input ms; cbn [call].
  - intros [= <-]. apply precise_answers_input.
  - intros [= <-]. apply crash_answers_input.
  - apply search_answers_input.
Qed.

Lemma registered_unit_scores connection backend k db input ms m :
  k ∈ Examples.registered connection backend →
  scores_in_range db → call k db input = Ok ms → m ∈ ms →
  unit_score (Match.score m).
Proof.
  unfold Examples.registered. intros Hk Hdb.
  repeat (apply elem_of_cons in Hk as [->|Hk]); cbn [call].
  - intros [= <-]. by apply precise_scores.
  - intros [= <-]. by apply crash_scores.
  - apply search_scores.
  - by apply elem_of_nil in Hk.
Qed.

(** ** What a run does to the store *)

Lemma grows_refl db : grows db db [] [] ∅.
Proof. unfold grows. by rewrite !app_nil_r. Qed.

Lemma grows_trans db1 db2 db3 e1 e2 n1 n2 t1 t2 :
  grows db1 db2 e1 n1 t1 → grows db2 db3 e2 n2 t2 →
  grows db1 db3 (e1 ++ e2) (n1 ++ n2) (t1 ∪ t2).
Proof.
  intros (A1 & A2 & A3 & A4 & A5) (B1 & B2 & B3 & B4 & B5).
  unfold grows. rewrite B1, B2, B3, B4, A1, A2, A3, A4, !app_assoc.
  do 4 (split; [done|]).
  intros i Hi. apply not_elem_of_union in Hi as [H1 H2].
  by rewrite B5, A5.
Qed.

Lemma grows_touched db db' e n t t' :
  t ⊆ t' → grows db db' e n t → grows db db' e n t'.
Proof.
  intros Ht (A1 & A2 & A3 & A4 & A5). unfold grows.
  do 4 (split; [done|]). intros i Hi. apply A5. intros H. by apply Hi, Ht.
Qed.

Lemma edges_of_app evs1 evs2 :
  edges_of (evs1 ++ evs2) = edges_of evs1 ++ edges_of evs2.
Proof. apply flat_map_app. Qed.

Lemma edges_of_no_calls evs : no_calls evs → edges_of evs = [].
Proof.
  induction 1 as [|e evs He H IH]; [done|].
  unfold edges_of in *. simpl. rewrite IH. by destruct e.
Qed.

Lemma union_swap (A B C : gset nat) : A ∪ B ∪ C = B ∪ (A ∪ C).
Proof. apply set_eq. intros x. rewrite !elem_of_union. tauto. Qed.

Lemma dom_set_add fl (s : LineSet) :
  dom (set_add fl s) = {[ FailureLine.id fl ]} ∪ dom s.
Proof.
  unfold set_add. destruct (s !! FailureLine.id fl) eqn:E.
  - apply elem_of_dom_2 in E. apply set_eq. intros x.
    rewrite elem_of_union, elem_of_singleton. split; [by right|].
    by intros [->|H].
  - apply dom_insert_L.
Qed.

Lemma record_match_eq k m sets w :
  record_match k m sets w
  = (mkWorld (save_line (Match.failure_line m)
                (add_match (edge_of (db_object k) m) (store w)))
             (log w ++ [EAddMatch (edge_of (db_object k) m);
                        ESaveLine (Match.failure_line m)]),
     if good_enough m
     then match set_remove (Match.failure_line m) sets.1 with
          | Ok u => Ok (u, set_add (Match.failure_line m) sets.2)
          | Fault e => Fault e
          end
     else Ok (sets.1, set_add (Match.failure_line m) sets.2)).
Proof.
  unfold record_match, matches_add, save, bind, emit, write_store, ret, raise.
  simpl. fold (good_enough m). fold (edge_of (db_object k) m).
  rewrite <- app_assoc. simpl.
  destruct (good_enough m); [|done].
  by destruct (set_remove _ _).
Qed.

Lemma record_match_grows k m sets w :
  grows (store w) (store (record_match k m sets w).1)
        [edge_of (db_object k) m] [] {[ match_id m ]}.
Proof.
  rewrite record_match_eq. unfold grows. simpl.
  rewrite app_nil_r. do 4 (split; [done|]).
  intros i Hi. apply not_elem_of_singleton in Hi.
  by rewrite lookup_insert_ne.
Qed.

Lemma record_matches_cons k m ms sets w :
  record_matches k (m :: ms) sets w
  = match record_match k m sets w with
    | (w', Ok sets') => record_matches k ms sets' w'
    | (w', Fault e) => (w', Fault e)
    end.
Proof. reflexivity. Qed.

Lemma record_matches_grows k ms :
  ∀ sets w, ∃ done_ rest,
    ms = done_ ++ rest
    ∧ grows (store w) (store (record_matches k ms sets w).1)
            (edge_of (db_object k) <$> done_) []
            (list_to_set (match_id <$> done_))
    ∧ (∃ evs, log (record_matches k ms sets w).1 = log w ++ evs
              ∧ no_calls evs)
    ∧ (∀ sets', (record_matches k ms sets w).2 = Ok sets' →
                rest = []
                ∧ dom sets'.2 = dom sets.2 ∪ list_to_set (match_id <$> ms)
                ∧ (keyed sets.2 → keyed sets'.2))
    ∧ (∀ e, (record_matches k ms sets w).2 = Fault e → e = KeyError).
Proof.
  induction ms as [|m ms IH]; intros sets w.
  - exists [], []. simpl. split; [done|]. split; [apply grows_refl|].
    split; [exists []; split; [by rewrite app_nil_r|constructor]|].
    split; [|done]. intros sets' [= <-]. split; [done|].
    split; [|done]. simpl. by rewrite (right_id_L ∅ (∪)).
  - rewrite record_matches_cons.
    pose proof (record_match_grows k m sets w) as Hg.
    rewrite record_match_eq in *. cbn [fst] in Hg.
    set (w1 := mkWorld _ _) in *.
    assert (Hlog : ∀ w' : World,
               (∃ evs, log w' = log w1 ++ evs ∧ no_calls evs) →
               ∃ evs, log w' = log w ++ evs ∧ no_calls evs).
    { intros w' (evs & -> & Hnc). eexists. unfold w1. cbn [log].
      rewrite <- app_assoc. split; [done|].
      apply Forall_app. split; [|done]. by repeat constructor. }
    destruct (good_enough m) eqn:Eg.
    + destruct (set_remove (Match.failure_line m) sets.1) as [u|e] eqn:Er.
      * destruct (IH (u, set_add (Match.failure_line m) sets.2) w1)
          as (done_ & rest & -> & Hg' & Hl & Hok & Hf).
        exists (m :: done_), rest. split; [done|]. split.
        { apply (grows_trans _ _ _ _ _ _ _ _ _ Hg Hg'). }
        split; [by apply Hlog|].
        split; [|done]. intros sets' Hs. destruct (Hok _ Hs) as (-> & Hd & Hk).
        split; [done|]. split.
        { rewrite Hd. cbn [snd].
          rewrite dom_set_add, fmap_cons, list_to_set_cons.
          apply union_swap. }
        intros Hk0. by apply Hk, keyed_set_add.
      * exists [m], ms. split; [done|]. split.
        { eapply grows_touched; [|exact Hg]. simpl.
          by rewrite (right_id_L ∅ (∪)). }
        split; [apply Hlog; exists []; split; [by rewrite app_nil_r|constructor]|].
        split; [done|]. intros e' [= <-].
        unfold set_remove in Er. by destruct (sets.1 !! _); simplify_eq.
    + destruct (IH (sets.1, set_add (Match.failure_line m) sets.2) w1)
        as (done_ & rest & -> & Hg' & Hl & Hok & Hf).
      exists (m :: done_), rest. split; [done|]. split.
      { apply (grows_trans _ _ _ _ _ _ _ _ _ Hg Hg'). }
      split; [by apply Hlog|].
      split; [|done]. intros sets' Hs. destruct (Hok _ Hs) as (-> & Hd & Hk).
      split; [done|]. split.
      { rewrite Hd. cbn [snd].
        rewrite dom_set_add, fmap_cons, list_to_set_cons.
        apply union_swap. }
      intros Hk0. by apply Hk, keyed_set_add.
Qed.

Lemma run_matchers_cons k rest sets w :
  run_matchers (k :: rest) sets w
  = let input := set_items sets.1 in
    let output := call k (store w) input in
    let w0 := mkWorld (store w)
                (log w ++ [ECallMatcher (db_object k) input output]) in
    match output with
    | Fault e => (w0, Fault e)
    | Ok ms =>
        match record_matches k ms sets w0 with
        | (w1, Ok sets') =>
            if is_empty sets'.1 then (w1, Ok sets')
            else run_matchers rest sets' w1
        | (w1, Fault e) => (w1, Fault e)
        end
    end.
Proof.
  cbn [run_matchers]. unfold bind, call_matcher. cbv zeta.
  destruct (call k (store w) (set_items sets.1)) as [ms|e]; [|done].
  destruct (record_matches k ms sets _) as [w1 [sets'|e]]; [|done].
  unfold ret. by destruct (is_empty sets'.1).
Qed.

Lemma edge_lines k (ms : list Match.t) :
  FailureMatch.failure_line <$> (edge_of k <$> ms) = match_id <$> ms.
Proof. by rewrite <- list_fmap_compose. Qed.

Lemma run_matchers_grows matchers :
  ∀ sets w, ∃ evs edges,
    log (run_matchers matchers sets w).1 = log w ++ evs
    ∧ grows (store w) (store (run_matchers matchers sets w).1) edges []
            (list_to_set (FailureMatch.failure_line <$> edges))
    ∧ edges `prefix_of` edges_of evs
    ∧ (∀ sets', (run_matchers matchers sets w).2 = Ok sets' →
                edges = edges_of evs
                ∧ dom sets'.2
                  = dom sets.2
                    ∪ list_to_set (FailureMatch.failure_line <$> edges)
                ∧ (keyed sets.2 → keyed sets'.2)).
Proof.
  induction matchers as [|k rest IH]; intros sets w.
  - exists [], []. simpl. rewrite app_nil_r.
    split; [done|]. split; [apply grows_refl|]. split; [done|].
    intros sets' [= <-]. split; [done|]. split; [|done].
    by rewrite (right_id_L ∅ (∪)).
  - rewrite run_matchers_cons. cbv zeta.
    set (input := set_items sets.1).
    destruct (call k (store w) input) as [ms|e] eqn:Ec.
    2:{ exists [ECallMatcher (db_object k) input (Fault e)], []. simpl.
        split; [done|]. split; [apply grows_refl|]. split; [done|]. done. }
    set (w0 := mkWorld _ _).
    destruct (record_matches_grows k ms sets w0)
      as (done_ & rest' & Hms & Hg & (evs1 & Hl1 & Hnc1) & Hok & Hf).
    destruct (record_matches k ms sets w0) as [w1 [sets1|e]] eqn:Er;
      cbn [fst snd] in *.
    + destruct (Hok _ eq_refl) as (-> & Hd & Hk).
      rewrite app_nil_r in Hms. subst done_.
      rewrite <- (edge_lines (db_object k)) in Hg.
      destruct (is_empty sets1.1).
      * exists (ECallMatcher (db_object k) input (Ok ms) :: evs1),
          (edge_of (db_object k) <$> ms).
        cbn [fst snd]. rewrite Hl1. unfold w0. cbn [log].
        rewrite <- app_assoc. split; [done|]. split; [done|].
        change (ECallMatcher (db_object k) input (Ok ms) :: evs1)
          with ([ECallMatcher (db_object k) input (Ok ms)] ++ evs1).
        rewrite edges_of_app, (edges_of_no_calls evs1) by done.
        unfold edges_of at 1 2. simpl. rewrite !app_nil_r.
        split; [done|]. intros sets' [= <-]. split; [done|].
        rewrite edge_lines. done.
      * destruct (IH sets1 w1) as (evs2 & edges2 & Hl2 & Hg2 & Hp2 & Hok2).
        exists (ECallMatcher (db_object k) input (Ok ms) :: evs1 ++ evs2),
          ((edge_of (db_object k) <$> ms) ++ edges2).
        rewrite Hl2, Hl1. unfold w0 at 1. cbn [log].
        rewrite <- !app_assoc. split; [done|].
        assert (He : edges_of (ECallMatcher (db_object k) input (Ok ms)
                               :: evs1 ++ evs2)
                     = (edge_of (db_object k) <$> ms) ++ edges_of evs2).
        { change (ECallMatcher (db_object k) input (Ok ms) :: evs1 ++ evs2)
            with ([ECallMatcher (db_object k) input (Ok ms)] ++ evs1 ++ evs2).
          rewrite !edges_of_app, (edges_of_no_calls evs1) by done.
          unfold edges_of at 1. simpl. by rewrite app_nil_r. }
        rewrite He. split.
        { rewrite fmap_app, list_to_set_app_L.
          apply (grows_trans _ _ _ _ _ _ _ _ _ Hg Hg2). }
        split; [by apply prefix_app|].
        intros sets' Hs. destruct (Hok2 _ Hs) as (-> & Hd2 & Hk2).
        split; [done|]. split; [|by intros ?; apply Hk2, Hk].
        rewrite Hd2, Hd, fmap_app, list_to_set_app_L, edge_lines.
        by rewrite (assoc_L (∪)).
    + exists (ECallMatcher (db_object k) input (Ok ms) :: evs1),
        (edge_of (db_object k) <$> done_).
      rewrite Hl1. unfold w0. cbn [log]. rewrite <- app_assoc.
      split; [done|]. rewrite edge_lines. split; [done|].
      change (ECallMatcher (db_object k) input (Ok ms) :: evs1)
        with ([ECallMatcher (db_object k) input (Ok ms)] ++ evs1).
      rewrite edges_of_app, (edges_of_no_calls evs1) by done.
      unfold edges_of. simpl. rewrite !app_nil_r.
      split; [|done]. rewrite Hms, fmap_app. by apply prefix_app_r.
Qed.

Lemma resolve_best_grows fl w :
  grows (store w) (store (resolve_best fl w).1) [] [] {[ FailureLine.id fl ]}.
Proof.
  unfold resolve_best, bind, read_store, save, emit, write_store, ret.
  destruct (best_automatic_match _ _ _); simpl.
  - unfold grows. simpl. rewrite !app_nil_r. do 4 (split; [done|]).
    intros i Hi. apply not_elem_of_singleton in Hi.
    by rewrite lookup_insert_ne.
  - eapply grows_touched; [|apply grows_refl]. apply empty_subseteq.
Qed.

Lemma resolve_all_cons fl lines w :
  resolve_all (fl :: lines) w = resolve_all lines (resolve_best fl w).1.
Proof.
  cbn [resolve_all]. unfold bind.
  pose proof (resolve_best_Ok fl w) as H.
  destruct (resolve_best fl w) as [w1 r]. simpl in *. by subst r.
Qed.

Lemma resolve_all_grows lines :
  ∀ w, (resolve_all lines w).2 = Ok tt
       ∧ grows (store w) (store (resolve_all lines w).1) [] [] (line_ids lines).
Proof.
  induction lines as [|fl lines IH]; intros w.
  - split; [done|]. apply grows_refl.
  - rewrite resolve_all_cons.
    destruct (IH (resolve_best fl w).1) as [Hok Hg]. split; [done|].
    unfold line_ids. rewrite fmap_cons, list_to_set_cons.
    apply (grows_trans _ _ _ _ _ _ _ _ _ (resolve_best_grows fl w) Hg).
Qed.

Section RunStore.
Variable unmatched_for_job : Store → string → string → list FailureLine.t.
Variable registered_matchers : list Matcher.

Lemma match_errors_eq repository job_guid w :
  match_errors unmatched_for_job registered_matchers repository job_guid w
  = let w0 := mkWorld (store w) (log w ++ [EGetJob job_guid]) in
    match jobs (store w) !! job_guid with
    | None => (w0, Ok tt)
    | Some job =>
        if negb (failure_status (Job.result job)) then (w0, Ok tt)
        else
          let w1 := mkWorld (store w)
                      (log w ++ [EGetJob job_guid;
                                 EUnmatchedForJob repository job_guid]) in
          let unmatched_failures :=
            set_of_list (unmatched_for_job (store w) repository job_guid) in
          if is_empty unmatched_failures then (w1, Ok tt)
          else
            match run_matchers registered_matchers (unmatched_failures, ∅) w1
            with
            | (w2, Fault e) => (w2, Fault e)
            | (w2, Ok sets) =>
                let w3 := (resolve_all (set_items sets.2) w2).1 in
                if is_empty sets.2 then (w3, Ok tt)
                else (mkWorld (add_notified (Job.id job) (store w3))
                              (log w3 ++ [ENotify (Job.id job)]), Ok tt)
            end
    end.
Proof.
  unfold match_errors, get_job, bind, emit, read_store, ret. simpl.
  destruct (jobs (store w) !! job_guid) as [job|]; [|done].
  destruct (negb _); [done|]. cbn [store log].
  rewrite <- app_assoc. cbn [app].
  destruct (is_empty (set_of_list _)); [done|].
  destruct (run_matchers _ _ _) as [w2 [sets|e]]; [|done].
  pose proof (resolve_all_grows (set_items sets.2) w2) as [Hok _].
  destruct (resolve_all (set_items sets.2) w2) as [w3 r]. simpl in *. subst r.
  destruct (is_empty sets.2); [done|].
  unfold update_after_autoclassification, bind, emit, write_store. done.
Qed.

Lemma is_empty_dom (s : LineSet) : is_empty s = true ↔ dom s = ∅.
Proof.
  unfold is_empty. rewrite bool_decide_eq_true. split.
  - intros ->. apply dom_empty_L.
  - apply dom_empty_inv_L.
Qed.

Lemma edges_nil_iff (edges : list FailureMatch.t) :
  list_to_set (C:=gset nat) (FailureMatch.failure_line <$> edges) = ∅
  ↔ edges = [].
Proof.
  destruct edges as [|fm edges]; [done|]. split; [|done].
  rewrite fmap_cons, list_to_set_cons. intros H.
  assert (FailureMatch.failure_line fm ∈ (∅ : gset nat)) as Hin.
  { rewrite <- H. apply elem_of_union_l. by apply elem_of_singleton. }
  by apply elem_of_empty in Hin.
Qed.

(** The facts about a run that the statements below select from. *)
Lemma match_errors_grows repository job_guid w :
  ∃ evs edges notes,
    let out := match_errors unmatched_for_job registered_matchers
                 repository job_guid w in
    log out.1 = log w ++ evs
    ∧ grows (store w) (store out.1) edges notes
            (list_to_set (FailureMatch.failure_line <$> edges))
    ∧ edges `prefix_of` edges_of evs
    ∧ (out.2 = Ok tt →
       edges = edges_of evs
       ∧ (edges = [] → notes = [])
       ∧ ∀ job, jobs (store w) !! job_guid = Some job → edges ≠ [] →
                notes = [Job.id job])
    ∧ (∀ e, out.2 = Fault e → notes = []).
Proof.
  rewrite match_errors_eq. cbv zeta.
  destruct (jobs (store w) !! job_guid) as [job|].
  2:{ exists [EGetJob job_guid], [], []. simpl.
      split; [done|]. split; [apply grows_refl|]. done. }
  destruct (negb _).
  { exists [EGetJob job_guid], [], []. simpl.
    split; [done|]. split; [apply grows_refl|]. done. }
  destruct (is_empty (set_of_list _)).
  { eexists [_; _], [], []. simpl.
    split; [done|]. split; [apply grows_refl|]. done. }
  set (w1 := mkWorld _ _).
  set (unmatched_failures := set_of_list _).
  destruct (run_matchers_grows registered_matchers (unmatched_failures, ∅) w1)
    as (evs & edges & Hl & Hg & Hp & Hok).
  destruct (run_matchers _ _ _) as [w2 [sets|e]]; cbn [fst snd] in *.
  2:{ exists ([EGetJob job_guid; EUnmatchedForJob repository job_guid] ++ evs),
        edges, [].
      rewrite Hl. unfold w1 at 1. cbn [log]. rewrite <- app_assoc.
      split; [done|]. split; [done|].
      rewrite edges_of_app. split; [done|]. done. }
  destruct (Hok _ eq_refl) as (-> & Hd & Hk).
  rewrite dom_empty_L, (left_id_L ∅ (∪)) in Hd.
  specialize (Hk keyed_empty).
  destruct (resolve_all_grows (set_items sets.2) w2) as [_ Hg3].
  rewrite line_ids_set_items, Hd in Hg3 by done.
  pose proof (grows_trans _ _ _ _ _ _ _ _ _ Hg Hg3) as Hg'.
  rewrite app_nil_r, (idemp_L (∪)) in Hg'. cbn [app] in Hg'.
  set (w3 := (resolve_all (set_items sets.2) w2).1) in *.
  assert (Hl3 : ∃ evs3, log w3 = log w2 ++ evs3 ∧ no_calls evs3)
    by apply resolve_all_log.
  destruct Hl3 as (evs3 & Hl3 & Hnc3).
  destruct (is_empty sets.2) eqn:Ee.
  - apply is_empty_dom in Ee. rewrite Hd in Ee. apply edges_nil_iff in Ee.
    exists ([EGetJob job_guid; EUnmatchedForJob repository job_guid]
            ++ evs ++ evs3), (edges_of evs), [].
    cbn [fst snd]. rewrite Hl3, Hl. unfold w1 at 1. cbn [log].
    rewrite <- !app_assoc. split; [done|]. split; [done|].
    rewrite !edges_of_app, (edges_of_no_calls evs3), app_nil_r by done.
    split; [done|]. split; [|done]. intros _. split; [done|].
    split; [done|]. intros ? _ Hne. by destruct Hne.
  - apply not_true_iff_false in Ee. rewrite is_empty_dom, Hd, edges_nil_iff in Ee.
    exists ([EGetJob job_guid; EUnmatchedForJob repository job_guid]
            ++ evs ++ evs3 ++ [ENotify (Job.id job)]),
      (edges_of evs), [Job.id job].
    cbn [fst snd log store]. rewrite Hl3, Hl. unfold w1 at 1. cbn [log].
    rewrite <- !app_assoc. split; [done|]. split.
    { destruct Hg' as (A1 & A2 & A3 & A4 & A5).
      unfold grows, add_notified. cbn.
      rewrite A4, app_nil_r. done. }
    rewrite !edges_of_app, (edges_of_no_calls evs3) by done.
    unfold edges_of at 3 4. simpl. rewrite !app_nil_r.
    split; [done|]. split; [|done]. intros _. split; [done|].
    split; [done|]. by intros ? [= <-] _.
Qed.

End RunStore.

Lemma record_match_Fault k m sets w e :
  (record_match k m sets w).2 = Fault e → e = KeyError.
Proof.
  rewrite record_match_eq. cbn [snd].
  destruct (good_enough m); [|done].
  unfold set_remove. destruct (sets.1 !! _); [done|]. by intros [= <-].
Qed.

Lemma record_match_Ok k m sets w sets' :
  (record_match k m sets w).2 = Ok sets' →
  sets'.1 = (if good_enough m then delete (match_id m) sets.1 else sets.1)
  ∧ (good_enough m = true → is_Some (sets.1 !! match_id m)).
Proof.
  rewrite record_match_eq. cbn [snd].
  destruct (good_enough m); [|by intros [= <-]].
  unfold set_remove, match_id.
  destruct (sets.1 !! _) eqn:E; [|done]. intros [= <-]. split; [done|].
  intros _. by eexists.
Qed.

(** A good-enough match for a line that is not unresolved stops the loop. *)
Lemma record_matches_absent k ms :
  ∀ sets w m,
    m ∈ ms → good_enough m = true → sets.1 !! match_id m = None →
    (record_matches k ms sets w).2 = Fault KeyError.
Proof.
  induction ms as [|m0 ms IH]; intros sets w m Hin Hg Hno.
  - by apply elem_of_nil in Hin.
  - rewrite record_matches_cons.
    destruct (record_match k m0 sets w) as [w1 [sets1|e]] eqn:Er.
    + pose proof (record_match_Ok k m0 sets w sets1) as Hok.
      rewrite Er in Hok. destruct (Hok eq_refl) as [Hs Hsome].
      apply elem_of_cons in Hin as [->|Hin].
      * destruct (Hsome Hg) as [? Hc]. congruence.
      * apply (IH sets1 w1 m Hin Hg). rewrite Hs.
        destruct (good_enough m0); [|done].
        apply lookup_delete_None. by right.
    + pose proof (record_match_Fault k m0 sets w e) as Hf.
      rewrite Er in Hf. by rewrite (Hf eq_refl).
Qed.

(** When every match is for a different line of the unresolved set, the
    loop returns. *)
Lemma record_matches_returns k ms :
  ∀ sets w,
    NoDup (match_id <$> ms) →
    (∀ m, m ∈ ms → is_Some (sets.1 !! match_id m)) →
    ∃ sets', (record_matches k ms sets w).2 = Ok sets'.
Proof.
  induction ms as [|m ms IH]; intros sets w Hnd Hin.
  - by eexists.
  - rewrite record_matches_cons. rewrite fmap_cons in Hnd.
    apply NoDup_cons in Hnd as [Hm Hnd].
    destruct (Hin m (list_elem_of_here _ _)) as [fl Hfl].
    pose proof (record_match_eq k m sets w) as He.
    destruct (record_match k m sets w) as [w1 r]. injection He as -> ->.
    unfold set_remove. fold (match_id m). rewrite Hfl.
    destruct (good_enough m); apply IH; try done; cbn [fst].
    + intros m' Hm'. rewrite lookup_delete_ne; [by apply Hin, list_elem_of_further|].
      intros E. apply Hm. rewrite E. apply list_elem_of_fmap. by exists m'.
    + intros m' Hm'. by apply Hin, list_elem_of_further.
Qed.

Lemma set_items_ids (s : LineSet) :
  keyed s → FailureLine.id <$> set_items s = (map_to_list s).*1.
Proof.
  intros Hk. unfold set_items. rewrite <- list_fmap_compose.
  apply list_fmap_ext. intros i [j fl] Hi. simpl.
  apply Hk. apply elem_of_map_to_list. by eapply list_elem_of_lookup_2.
Qed.

Lemma answer_returns k ms sets w :
  keyed sets.1 → answers_input (set_items sets.1) ms →
  ∃ sets', (record_matches k ms sets w).2 = Ok sets'.
Proof.
  intros Hk Ha. unfold answers_input in Ha.
  apply (fmap_sublist FailureLine.id) in Ha.
  rewrite <- list_fmap_compose, set_items_ids in Ha by done.
  apply record_matches_returns.
  - eapply sublist_NoDup; [|exact Ha]. apply NoDup_fst_map_to_list.
  - intros m Hm.
    assert (Hin : match_id m ∈ (map_to_list sets.1).*1).
    { eapply elem_of_sublist; [|exact Ha].
      apply list_elem_of_fmap. by exists m. }
    apply list_elem_of_fmap in Hin as ([j fl] & Hj & Hin). simpl in Hj.
    apply elem_of_map_to_list in Hin. rewrite Hj. by eexists.
Qed.

Lemma run_matchers_faults matchers :
  Forall well_behaved matchers →
  ∀ sets w e,
    keyed sets.1 →
    (run_matchers matchers sets w).2 = Fault e →
    ∃ pre k input,
      log (run_matchers matchers sets w).1
      = pre ++ [ECallMatcher k input (Fault e)].
Proof.
  induction 1 as [|k rest Hk Hrest IH]; intros sets w e Hs; [done|].
  rewrite run_matchers_cons. cbv zeta.
  destruct (call k (store w) (set_items sets.1)) as [ms|e0] eqn:Ec.
  2:{ cbn [fst snd]. intros [= <-]. by eexists _, _, _. }
  set (w0 := mkWorld _ _).
  destruct (answer_returns k ms sets w0 Hs (Hk _ _ _ Ec)) as [sets1 Hret].
  destruct (record_matches_run k ms sets w0 Hs) as (w1 & r & Hr & _ & Hkeyed).
  rewrite Hr in *. cbn [snd] in Hret. subst r.
  destruct (Hkeyed _ eq_refl) as [Hk1 _].
  destruct (is_empty sets1.1); [done|]. by apply IH.
Qed.

(** The scores of the edges that a run of matchers adds. *)
Lemma run_matchers_edges (good : FailureMatch.t → Prop) matchers :
  Forall (λ k, ∀ db input ms,
                 Forall good (failure_matches db) →
                 call k db input = Ok ms →
                 Forall good (edge_of (db_object k) <$> ms)) matchers →
  ∀ sets w,
    Forall good (failure_matches (store w)) →
    Forall good (failure_matches (store (run_matchers matchers sets w).1)).
Proof.
  induction 1 as [|k rest Hk Hrest IH]; intros sets w Hw; [done|].
  rewrite run_matchers_cons. cbv zeta.
  destruct (call k (store w) (set_items sets.1)) as [ms|e0] eqn:Ec; [|done].
  set (w0 := mkWorld _ _).
  destruct (record_matches_grows k ms sets w0)
    as (done_ & rest' & Hms & (_ & _ & Hg & _) & _).
  assert (Hw1 : Forall good (failure_matches
                               (store (record_matches k ms sets w0).1))).
  { rewrite Hg. apply Forall_app. split; [done|].
    specialize (Hk _ _ _ Hw Ec). rewrite Hms, fmap_app in Hk.
    by apply Forall_app in Hk as [Hk _]. }
  destruct (record_matches k ms sets w0) as [w1 [sets1|e]]; [|done].
  cbn [fst] in Hw1. destruct (is_empty sets1.1); [done|]. by apply IH.
Qed.

Section RunOutcome.
Variable unmatched_for_job : Store → string → string → list FailureLine.t.
Variable registered_matchers : list Matcher.

(** X13.  A run, whether it returns or raises, leaves the jobs and the
    classified failures as they were, only appends to the edges and to the
    notifications, and saves no line other than the lines of the edges it
    added. *)
Theorem run_only_appends repository job_guid w :
  let db := store w in
  let db' := store (match_errors unmatched_for_job registered_matchers
                      repository job_guid w).1 in
  jobs db' = jobs db
  ∧ classified_failures db' = classified_failures db
  ∧ ∃ edges notes,
      failure_matches db' = failure_matches db ++ edges
      ∧ notified db' = notified db ++ notes
      ∧ ∀ i, i ∉ FailureMatch.failure_line <$> edges →
             failure_lines db' !! i = failure_lines db !! i.
Proof.
  destruct (match_errors_grows unmatched_for_job registered_matchers
              repository job_guid w)
    as (evs & edges & notes & _ & (A1 & A2 & A3 & A4 & A5) & _).
  cbv zeta. split; [done|]. split; [done|].
  exists edges, notes. split; [done|]. split; [done|].
  intros i Hi. apply A5. by rewrite elem_of_list_to_set.
Qed.

(** X14.  The edges that a run adds are the matches that its matcher calls
    returned, in the order of the calls and of each answer, each with the
    [db_object] of its matcher, the id of its line, its classified failure
    and its score; a run that raises has added a prefix of them. *)
Theorem run_stores_returned_matches repository job_guid w :
  let out := match_errors unmatched_for_job registered_matchers
               repository job_guid w in
  ∃ evs edges,
    log out.1 = log w ++ evs
    ∧ failure_matches (store out.1) = failure_matches (store w) ++ edges
    ∧ edges `prefix_of` edges_of evs
    ∧ (out.2 = Ok tt → edges = edges_of evs).
Proof.
  destruct (match_errors_grows unmatched_for_job registered_matchers
              repository job_guid w)
    as (evs & edges & notes & Hl & (_ & _ & A3 & _) & Hp & Hok & _).
  cbv zeta. exists evs, edges. split; [done|]. split; [done|].
  split; [done|]. intros H. by destruct (Hok H).
Qed.

(** X15.  A run that returns notifies the job once when it added an edge and
    not at all when it added none; a run that raises notifies nothing. *)
Theorem run_notifies_iff_matched repository job_guid w job :
  jobs (store w) !! job_guid = Some job →
  let out := match_errors unmatched_for_job registered_matchers
               repository job_guid w in
  (out.2 = Ok tt →
   (failure_matches (store out.1) = failure_matches (store w)
    ∧ notified (store out.1) = notified (store w))
   ∨ (failure_matches (store out.1) ≠ failure_matches (store w)
      ∧ notified (store out.1) = notified (store w) ++ [Job.id job]))
  ∧ (∀ e, out.2 = Fault e → notified (store out.1) = notified (store w)).
Proof.
  intros Hjob.
  destruct (match_errors_grows unmatched_for_job registered_matchers
              repository job_guid w)
    as (evs & edges & notes & Hl & (_ & _ & A3 & A4 & _) & Hp & Hok & Hf).
  cbv zeta. split.
  - intros H. destruct (Hok H) as (_ & Hnil & Hsome).
    destruct edges as [|fm edges].
    + left. rewrite A3, A4, Hnil, !app_nil_r by done. done.
    + right. rewrite A3, A4, (Hsome _ Hjob) by done. split; [|done].
      intros E. rewrite <- (app_nil_r (failure_matches (store w))) in E at 2.
      by apply app_inv_head in E.
  - intros e H. by rewrite A4, (Hf _ H), app_nil_r.
Qed.

(** X16.  For a job guid that is not known, and for a job without unmatched
    lines, the run returns without calling a matcher and leaves the store as
    it was. *)
Theorem run_without_work repository job_guid w :
  (jobs (store w) !! job_guid = None →
   match_errors unmatched_for_job registered_matchers repository job_guid w
   = (mkWorld (store w) (log w ++ [EGetJob job_guid]), Ok tt))
  ∧ (unmatched_for_job (store w) repository job_guid = [] →
     ∃ evs, match_errors unmatched_for_job registered_matchers
              repository job_guid w
            = (mkWorld (store w) (log w ++ evs), Ok tt)
            ∧ no_calls evs).
Proof.
  rewrite match_errors_eq. cbv zeta. split.
  - by intros ->.
  - intros ->. destruct (jobs (store w) !! job_guid) as [job|];
      [destruct (negb _)|]; eexists; (split; [done|]); by repeat constructor.
Qed.

(** X17.  When every registered matcher answers with at most one match for
    each line of its input, [unmatched_failures.remove] never raises: the run
    returns, or it raises the exception of a matcher call, which is then the
    last event of the log. *)
Theorem run_raises_only_what_a_matcher_raised repository job_guid w :
  Forall well_behaved registered_matchers →
  let out := match_errors unmatched_for_job registered_matchers
               repository job_guid w in
  out.2 = Ok tt
  ∨ ∃ pre k input e,
      log out.1 = pre ++ [ECallMatcher k input (Fault e)]
      ∧ out.2 = Fault e.
Proof.
  intros Hwb. cbv zeta. rewrite match_errors_eq. cbv zeta.
  destruct (jobs (store w) !! job_guid) as [job|]; [|by left].
  destruct (negb _); [by left|].
  destruct (is_empty (set_of_list _)); [by left|].
  set (w1 := mkWorld _ _). set (sets := (set_of_list _, ∅)).
  pose proof (run_matchers_faults _ Hwb sets w1) as Hf.
  destruct (run_matchers registered_matchers sets w1) as [w2 [sets2|e]].
  - left. by destruct (is_empty sets2.2).
  - right. destruct (Hf e) as (pre & k & input & Hl); [apply keyed_set_of_list|done|].
    by exists pre, k, input, e.
Qed.

(** X18.  When every registered matcher returns scores in the range 0-1 on
    stores whose scores are in that range, a run keeps the scores of the
    store in the range. *)
Theorem run_keeps_scores_in_range repository job_guid w :
  (∀ k db input ms m,
     k ∈ registered_matchers → scores_in_range db →
     call k db input = Ok ms → m ∈ ms → unit_score (Match.score m)) →
  scores_in_range (store w) →
  scores_in_range
    (store (match_errors unmatched_for_job registered_matchers
              repository job_guid w).1).
Proof.
  intros Hks Hw.
  set (good := λ fm : FailureMatch.t, unit_score (FailureMatch.score fm)).
  assert (Hiff : ∀ db, scores_in_range db ↔ Forall good (failure_matches db)).
  { intros db. unfold scores_in_range. by rewrite Forall_forall. }
  rewrite Hiff in *. rewrite match_errors_eq. cbv zeta.
  destruct (jobs (store w) !! job_guid) as [job|]; [|done].
  destruct (negb _); [done|].
  destruct (is_empty (set_of_list _)); [done|].
  set (w1 := mkWorld _ _). set (sets := (set_of_list _, ∅)).
  assert (H2 : Forall good (failure_matches
                 (store (run_matchers registered_matchers sets w1).1))).
  { apply run_matchers_edges; [|done].
    apply Forall_forall. intros k Hk db input ms Hdb Hc.
    apply Forall_fmap, Forall_forall. intros m Hm. unfold good. simpl.
    eapply Hks; [done| |done|done]. by apply Hiff. }
  destruct (run_matchers registered_matchers sets w1) as [w2 [sets2|e]];
    [|done].
  cbn [fst] in H2.
  destruct (resolve_all_grows (set_items sets2.2) w2)
    as [_ (_ & _ & A3 & _)].
  rewrite app_nil_r in A3.
  destruct (is_empty sets2.2); cbn [fst store add_notified failure_matches];
    by rewrite A3.
Qed.

End RunOutcome.

(** X19.  When an answer holds two good-enough matches for the same line,
    the loop over the answer raises [KeyError]: the second
    [unmatched_failures.remove] does not find the line. *)
Theorem second_good_match_raises k ms sets w i j m m' :
  ms !! i = Some m → ms !! j = Some m' → i < j →
  match_id m = match_id m' →
  good_enough m = true → good_enough m' = true →
  (record_matches k ms sets w).2 = Fault KeyError.
Proof.
  revert sets w i j. induction ms as [|m0 ms IH]; intros sets w i j Hi Hj Hlt He Hg Hg';
    [done|].
  rewrite record_matches_cons.
  destruct (record_match k m0 sets w) as [w1 [sets1|e]] eqn:Er.
  2:{ pose proof (record_match_Fault k m0 sets w e) as Hf.
      rewrite Er in Hf. by rewrite (Hf eq_refl). }
  pose proof (record_match_Ok k m0 sets w sets1) as Hok.
  rewrite Er in Hok. destruct (Hok eq_refl) as [Hs _].
  destruct j as [|j]; [lia|]. simpl in Hj.
  destruct i as [|i]; simpl in Hi.
  - injection Hi as ->. rewrite Hg in Hs.
    apply (record_matches_absent k ms sets1 w1 m');
      [by eapply list_elem_of_lookup_2|done|].
    rewrite Hs, <- He. apply lookup_delete_eq.
  - apply (IH sets1 w1 i j); [done|done|lia|done|done|done].
Qed.

Lemma calls_of_app evs1 evs2 :
  calls_of (evs1 ++ evs2) = calls_of evs1 ++ calls_of evs2.
Proof. apply omap_app. Qed.

Lemma calls_of_no_calls evs : no_calls evs → calls_of evs = [].
Proof.
  induction 1 as [|e evs He H IH]; [done|].
  change (e :: evs) with ([e] ++ evs). rewrite calls_of_app, IH.
  by destruct e.
Qed.

Lemma record_matches_keeps k ms :
  ∀ sets w,
    Forall (λ m, good_enough m = false) ms →
    ∃ all_matched, (record_matches k ms sets w).2 = Ok (sets.1, all_matched).
Proof.
  induction ms as [|m ms IH]; intros sets w Hms.
  - exists sets.2. by destruct sets.
  - apply Forall_cons in Hms as [Hm Hms].
    rewrite record_matches_cons, record_match_eq, Hm.
    apply (IH (sets.1, _) _ Hms).
Qed.

Lemma run_matchers_log_head k rest sets w :
  ∃ tail,
    log (run_matchers (k :: rest) sets w).1
    = log w ++ ECallMatcher (db_object k) (set_items sets.1)
                 (call k (store w) (set_items sets.1)) :: tail.
Proof.
  destruct (run_matchers_grows (k :: rest) sets w) as (evs & _ & Hl & _).
  rewrite Hl. rewrite run_matchers_cons in Hl. cbv zeta in Hl.
  destruct (call k (store w) (set_items sets.1)) as [ms|e].
  - set (w0 := mkWorld _ _) in *.
    destruct (record_matches_grows k ms sets w0)
      as (_ & _ & _ & _ & (evs1 & Hl1 & _) & _).
    destruct (record_matches k ms sets w0) as [w1 [sets1|e]]; cbn [fst] in *.
    + destruct (run_matchers_grows rest sets1 w1) as (evs2 & ? & Hl2 & _).
      exists (evs1 ++ if is_empty sets1.1 then [] else evs2).
      f_equal. apply (app_inv_head (log w)). rewrite <- Hl.
      destruct (is_empty sets1.1); cbn [fst].
      * rewrite Hl1, app_nil_r. unfold w0. cbn [log]. by rewrite <- app_assoc.
      * rewrite Hl2, Hl1. unfold w0. cbn [log]. by rewrite <- !app_assoc.
    + exists evs1. f_equal. apply (app_inv_head (log w)). rewrite <- Hl, Hl1.
      unfold w0. cbn [log]. by rewrite <- app_assoc.
  - exists []. f_equal. apply (app_inv_head (log w)). by rewrite <- Hl.
Qed.

Lemma run_matchers_all_called matchers :
  ∀ sets w evs,
    is_empty sets.1 = false →
    log (run_matchers matchers sets w).1 = log w ++ evs →
    Forall leaves_unresolved evs →
    calls_of evs
    = (λ k, (db_object k, FailureLine.id <$> set_items sets.1)) <$> matchers.
Proof.
  induction matchers as [|k rest IH]; intros sets w evs Hne Hl Hevs.
  - simpl in Hl. rewrite <- (app_nil_r (log w)) in Hl at 1.
    apply app_inv_head in Hl as <-. done.
  - destruct (run_matchers_log_head k rest sets w) as [tail Ht].
    rewrite Hl in Ht. apply app_inv_head in Ht as ->.
    apply Forall_cons in Hevs as [(ms & Ho & Hms) Hevs].
    rewrite run_matchers_cons in Hl. cbv zeta in Hl.
    rewrite Ho in Hl. set (w0 := mkWorld _ _) in *.
    destruct (record_matches_keeps k ms sets w0 Hms) as [all_matched Hr].
    destruct (record_matches_grows k ms sets w0)
      as (_ & _ & _ & _ & (evs1 & Hl1 & Hnc1) & _).
    destruct (record_matches k ms sets w0) as [w1 r]. cbn [fst snd] in *.
    subst r. cbn [fst] in Hl. rewrite Hne in Hl.
    destruct (run_matchers_grows rest (sets.1, all_matched) w1)
      as (evs2 & ? & Hl2 & _).
    assert (tail = evs1 ++ evs2) as ->.
    { apply (app_inv_head (log w ++ [ECallMatcher (db_object k)
                                       (set_items sets.1) (Ok ms)])).
      rewrite <- !app_assoc. cbn [app]. rewrite <- Hl, Hl2, Hl1.
      unfold w0. cbn [log]. by rewrite <- !app_assoc. }
    apply Forall_app in Hevs as [_ Hevs].
    rewrite Ho.
    change (ECallMatcher (db_object k) (set_items sets.1) (Ok ms) :: evs1 ++ evs2)
      with ([ECallMatcher (db_object k) (set_items sets.1) (Ok ms)]
            ++ evs1 ++ evs2).
    rewrite !calls_of_app, (calls_of_no_calls evs1) by done.
    rewrite (IH (sets.1, all_matched) w1 evs2 Hne Hl2 Hevs).
    done.
Qed.

Lemma dom_set_of_list l : dom (set_of_list l) = line_ids l.
Proof.
  unfold set_of_list, line_ids.
  assert (H : ∀ s : LineSet,
             dom (fold_left (λ s fl, set_add fl s) l s)
             = dom s ∪ list_to_set (FailureLine.id <$> l)).
  { induction l as [|fl l IH]; intros s; simpl.
    - by rewrite (right_id_L ∅ (∪)).
    - rewrite IH, dom_set_add. apply set_eq. intros x.
      rewrite !elem_of_union. tauto. }
  by rewrite H, dom_empty_L, (left_id_L ∅ (∪)).
Qed.

Lemma set_of_list_nonempty l : l ≠ [] → is_empty (set_of_list l) = false.
Proof.
  intros Hl. apply not_true_iff_false. rewrite is_empty_dom, dom_set_of_list.
  destruct l as [|fl l]; [done|]. unfold line_ids.
  rewrite fmap_cons, list_to_set_cons. intros H.
  assert (FailureLine.id fl ∈ (∅ : gset nat)) as Hin.
  { rewrite <- H. apply elem_of_union_l. by apply elem_of_singleton. }
  by apply elem_of_empty in Hin.
Qed.

Section RunCalls.
Variable unmatched_for_job : Store → string → string → list FailureLine.t.
Variable registered_matchers : list Matcher.

(** X20.  In a run for a failed job with unmatched lines in which every
    matcher call returns and no match is good enough, every registered
    matcher is called, once and in the order of the registry, each with all
    the unmatched lines. *)
Theorem unresolved_lines_reach_every_matcher repository job_guid w job evs :
  jobs (store w) !! job_guid = Some job →
  Job.result job ∈ ["testfailed"; "busted"; "exception"]%string →
  unmatched_for_job (store w) repository job_guid ≠ [] →
  log (match_errors unmatched_for_job registered_matchers
         repository job_guid w).1 = log w ++ evs →
  Forall leaves_unresolved evs →
  calls_of evs
  = (λ k, (db_object k,
           FailureLine.id
             <$> set_items (set_of_list
                              (unmatched_for_job (store w) repository
                                                 job_guid))))
      <$> registered_matchers.
Proof.
  intros Hjob Hres Hlines Hl Hevs.
  rewrite match_errors_eq in Hl. cbv zeta in Hl. rewrite Hjob in Hl.
  unfold failure_status in Hl. rewrite bool_decide_eq_true_2 in Hl by done.
  cbn [negb] in Hl.
  set (lines := unmatched_for_job (store w) repository job_guid) in *.
  pose proof (set_of_list_nonempty lines Hlines) as Hne.
  rewrite Hne in Hl.
  set (w1 := mkWorld _ _) in *.
  destruct (run_matchers_grows registered_matchers (set_of_list lines, ∅) w1)
    as (evsR & ? & HlR & _).
  pose proof (run_matchers_all_called registered_matchers
                (set_of_list lines, ∅) w1 evsR Hne HlR) as Hcalls.
  assert (Hsplit : ∃ post, evs = [EGetJob job_guid;
                                  EUnmatchedForJob repository job_guid]
                                 ++ evsR ++ post
                           ∧ no_calls post).
  { destruct (run_matchers registered_matchers _ w1) as [w2 [sets|e]];
      cbn [fst] in *.
    - destruct (resolve_all_log (set_items sets.2) w2) as (evs3 & Hl3 & Hnc3).
      destruct (is_empty sets.2); cbn [fst log] in Hl.
      + exists evs3. split; [|done]. apply (app_inv_head (log w)).
        rewrite <- Hl, Hl3, HlR. unfold w1. cbn [log].
        by rewrite <- !app_assoc.
      + exists (evs3 ++ [ENotify (Job.id job)]). split.
        * apply (app_inv_head (log w)).
          rewrite <- Hl, Hl3, HlR. unfold w1. cbn [log].
          by rewrite <- !app_assoc.
        * apply Forall_app. split; [done|]. by repeat constructor.
    - exists []. split; [|constructor]. apply (app_inv_head (log w)).
      rewrite <- Hl, HlR, app_nil_r. unfold w1. cbn [log].
      by rewrite <- !app_assoc. }
  destruct Hsplit as (post & -> & Hpost).
  apply Forall_app in Hevs as [_ Hevs]. apply Forall_app in Hevs as [Hevs _].
  rewrite !calls_of_app, (calls_of_no_calls post) by done.
  rewrite app_nil_r. by apply Hcalls.
Qed.
End RunCalls.

(** ** The classification that a run leaves *)

Lemma best_automatic_match_best db failure_line fm :
  candidate db failure_line fm →
  ∃ best,
    best_automatic_match db failure_line AUTOCLASSIFY_CUTOFF_RATIO = Some best
    ∧ candidate db failure_line best
    ∧ ∀ other, candidate db failure_line other →
               (FailureMatch.score other < FailureMatch.score best)%Q
               ∨ ((FailureMatch.score other == FailureMatch.score best)%Q
                  ∧ FailureMatch.classified_failure other
                    ≤ FailureMatch.classified_failure best).
Proof.
  intros Hfm. unfold best_automatic_match.
  destruct (first_by _ _) as [best|] eqn:E.
  - exists best. split; [done|].
    pose proof (first_by_elem _ _ _ E) as Hin.
    apply candidate_filter in Hin. split; [done|].
    intros other Ho. apply candidate_filter in Ho.
    pose proof (first_by_minimal sorts_before sorts_before_asym
                  sorts_before_negtrans _ _ _ E Ho) as Hm.
    apply not_true_iff_false in Hm. rewrite sorts_before_iff in Hm.
    destruct (Qlt_le_dec (FailureMatch.score other) (FailureMatch.score best))
      as [?|Hle]; [by left|].
    right.
    assert (FailureMatch.score other == FailureMatch.score best)%Q as Heq.
    { apply Qle_antisym; [|done]. apply Qnot_lt_le. intros ?. apply Hm.
      by left. }
    split; [done|]. apply Nat.nlt_ge. intros ?. apply Hm. by right.
  - apply candidate_filter in Hfm.
    destruct (List.filter _ _); [by apply elem_of_nil in Hfm|done].
Qed.

Lemma candidate_same_edges db db' failure_line failure_line' fm :
  failure_matches db' = failure_matches db →
  FailureLine.id failure_line' = FailureLine.id failure_line →
  candidate db failure_line fm → candidate db' failure_line' fm.
Proof. unfold candidate. intros -> ->. done. Qed.

Lemma best_automatic_match_same_edges db db' failure_line :
  failure_matches db' = failure_matches db →
  best_automatic_match db' failure_line AUTOCLASSIFY_CUTOFF_RATIO
  = best_automatic_match db failure_line AUTOCLASSIFY_CUTOFF_RATIO.
Proof. unfold best_automatic_match. by intros ->. Qed.

Lemma resolve_best_lines fl w :
  failure_matches (store (resolve_best fl w).1) = failure_matches (store w)
  ∧ (∀ i, i ≠ FailureLine.id fl →
          failure_lines (store (resolve_best fl w).1) !! i
          = failure_lines (store w) !! i)
  ∧ ∀ best,
      best_automatic_match (store w) fl AUTOCLASSIFY_CUTOFF_RATIO = Some best →
      failure_lines (store (resolve_best fl w).1) !! FailureLine.id fl
      = Some (FailureLine.set_best_classification fl
                (FailureMatch.classified_failure best)).
Proof.
  unfold resolve_best, bind, read_store, save, emit, write_store, ret.
  destruct (best_automatic_match _ _ _) as [best|]; simpl.
  - split; [done|]. split.
    + intros i Hi. by rewrite lookup_insert_ne.
    + intros ? [= <-]. apply lookup_insert_eq.
  - done.
Qed.

Lemma resolve_all_lines lines :
  ∀ w fl best,
    NoDup (FailureLine.id <$> lines) → fl ∈ lines →
    best_automatic_match (store w) fl AUTOCLASSIFY_CUTOFF_RATIO = Some best →
    failure_matches (store (resolve_all lines w).1) = failure_matches (store w)
    ∧ failure_lines (store (resolve_all lines w).1) !! FailureLine.id fl
      = Some (FailureLine.set_best_classification fl
                (FailureMatch.classified_failure best)).
Proof.
  induction lines as [|fl0 lines IH]; intros w fl best Hnd Hin Hb.
  - by apply elem_of_nil in Hin.
  - rewrite resolve_all_cons. rewrite fmap_cons in Hnd.
    apply NoDup_cons in Hnd as [Hfl0 Hnd].
    destruct (resolve_best_lines fl0 w) as (He & Hother & Hthis).
    destruct (resolve_all_grows lines (resolve_best fl0 w).1)
      as [_ (_ & _ & He' & _ & Hl')].
    rewrite app_nil_r in He'.
    split; [by rewrite He', He|].
    apply elem_of_cons in Hin as [->|Hin].
    + rewrite Hl'; [by apply Hthis|].
      unfold line_ids. by rewrite elem_of_list_to_set.
    + rewrite <- (best_automatic_match_same_edges _ _ _ He) in Hb.
      by destruct (IH _ _ _ Hnd Hin Hb).
Qed.

Section RunResult.
Variable unmatched_for_job : Store → string → string → list FailureLine.t.
Variable registered_matchers : list Matcher.

(** X23.  When a run returns, every line that got an edge of score at least
    0.7 in the run is stored with a [best_classification]: the classified
    failure of an edge of the line with a score of at least 0.7 that no
    other such edge of the line beats, by score and then by
    classified-failure id. *)
Theorem run_classifies_matched_lines repository job_guid w evs fm :
  let out := match_errors unmatched_for_job registered_matchers
               repository job_guid w in
  out.2 = Ok tt →
  log out.1 = log w ++ evs →
  fm ∈ edges_of evs →
  (AUTOCLASSIFY_CUTOFF_RATIO <= FailureMatch.score fm)%Q →
  ∃ failure_line best,
    failure_lines (store out.1) !! FailureMatch.failure_line fm
    = Some failure_line
    ∧ FailureLine.id failure_line = FailureMatch.failure_line fm
    ∧ FailureLine.best_classification failure_line
      = Some (FailureMatch.classified_failure best)
    ∧ candidate (store out.1) failure_line best
    ∧ ∀ other, candidate (store out.1) failure_line other →
               (FailureMatch.score other < FailureMatch.score best)%Q
               ∨ ((FailureMatch.score other == FailureMatch.score best)%Q
                  ∧ FailureMatch.classified_failure other
                    ≤ FailureMatch.classified_failure best).
Proof.
  cbv zeta. rewrite match_errors_eq. cbv zeta.
  assert (Hnone : ∀ evs0, no_calls evs0 → log w ++ evs0 = log w ++ evs →
                          fm ∈ edges_of evs → False).
  { intros evs0 Hnc He%app_inv_head. subst evs0.
    rewrite edges_of_no_calls by done. by intros ?%elem_of_nil. }
  destruct (jobs (store w) !! job_guid) as [job|].
  2:{ intros _ Hl Hfm. destruct (Hnone [EGetJob job_guid]); try done.
      by repeat constructor. }
  destruct (negb _).
  { intros _ Hl Hfm. destruct (Hnone [EGetJob job_guid]); try done.
    by repeat constructor. }
  destruct (is_empty (set_of_list _)).
  { intros _ Hl Hfm.
    destruct (Hnone [EGetJob job_guid; EUnmatchedForJob repository job_guid]);
      try done. by repeat constructor. }
  set (w1 := mkWorld _ _). set (sets0 := (set_of_list _, ∅)).
  destruct (run_matchers_grows registered_matchers sets0 w1)
    as (evsR & edges & HlR & Hg & _ & Hok).
  destruct (run_matchers registered_matchers sets0 w1) as [w2 [sets|e]];
    [|done]. cbn [fst snd] in *.
  destruct (Hok _ eq_refl) as (-> & Hd & Hk).
  unfold sets0 in Hd, Hk. cbn [snd] in Hd, Hk.
  rewrite dom_empty_L, (left_id_L ∅ (∪)) in Hd. specialize (Hk keyed_empty).
  destruct (resolve_all_log (set_items sets.2) w2) as (evs3 & Hl3 & Hnc3).
  set (w3 := (resolve_all (set_items sets.2) w2).1) in *.
  intros Hret Hl Hfm Hscore.
  assert (Hfm' : fm ∈ edges_of evsR).
  { destruct (is_empty sets.2); cbn [fst log] in Hl;
      rewrite Hl3, HlR in Hl; unfold w1 in Hl; cbn [log] in Hl;
      rewrite <- !app_assoc in Hl; apply app_inv_head in Hl; subst evs;
      cbn [app] in Hfm;
      change (EGetJob job_guid :: EUnmatchedForJob repository job_guid :: ?l)
        with ([EGetJob job_guid; EUnmatchedForJob repository job_guid] ++ l)
        in Hfm;
      rewrite !edges_of_app, (edges_of_no_calls evs3) in Hfm by done;
      cbn in Hfm; by rewrite ?app_nil_r in Hfm. }
  clear Hfm Hl Hret.
  assert (Hi : FailureMatch.failure_line fm ∈ dom sets.2).
  { rewrite Hd, elem_of_list_to_set. apply list_elem_of_fmap. by exists fm. }
  apply elem_of_dom in Hi as [fl Hfl].
  pose proof (Hk _ _ Hfl) as Hid.
  assert (Hin : fl ∈ set_items sets.2).
  { unfold set_items. apply list_elem_of_fmap.
    exists (FailureMatch.failure_line fm, fl). split; [done|].
    by apply elem_of_map_to_list. }
  assert (Hnd : NoDup (FailureLine.id <$> set_items sets.2)).
  { rewrite set_items_ids by done. apply NoDup_fst_map_to_list. }
  assert (Hc : candidate (store w2) fl fm).
  { destruct Hg as (_ & _ & He & _). unfold candidate. rewrite He.
    split; [apply elem_of_app; by right|]. by split. }
  destruct (best_automatic_match_best _ _ _ Hc) as (best & Hb & Hbc & Hbest).
  destruct (resolve_all_lines _ w2 fl best Hnd Hin Hb) as [He3 Hl3'].
  fold w3 in He3, Hl3'. rewrite Hid in Hl3'.
  exists (FailureLine.set_best_classification fl
            (FailureMatch.classified_failure best)), best.
  assert (Hfinal : ∀ w4 : World,
             failure_matches (store w4) = failure_matches (store w3) →
             failure_lines (store w4) = failure_lines (store w3) →
             failure_lines (store w4) !! FailureMatch.failure_line fm
             = Some (FailureLine.set_best_classification fl
                       (FailureMatch.classified_failure best))
             ∧ FailureLine.id (FailureLine.set_best_classification fl
                                 (FailureMatch.classified_failure best))
               = FailureMatch.failure_line fm
             ∧ FailureLine.best_classification
                 (FailureLine.set_best_classification fl
                    (FailureMatch.classified_failure best))
               = Some (FailureMatch.classified_failure best)
             ∧ candidate (store w4)
                 (FailureLine.set_best_classification fl
                    (FailureMatch.classified_failure best)) best
             ∧ ∀ other,
                 candidate (store w4)
                   (FailureLine.set_best_classification fl
                      (FailureMatch.classified_failure best)) other →
                 (FailureMatch.score other < FailureMatch.score best)%Q
                 ∨ ((FailureMatch.score other == FailureMatch.score best)%Q
                    ∧ FailureMatch.classified_failure other
                      ≤ FailureMatch.classified_failure best)).
  { intros w4 E4 L4. rewrite L4. split; [done|]. split; [done|].
    split; [done|]. split.
    - eapply candidate_same_edges; [| |exact Hbc]; [by rewrite E4|done].
    - intros other Ho. apply Hbest.
      eapply candidate_same_edges; [| |exact Ho]; [by rewrite E4, He3|done]. }
  destruct (is_empty sets.2); cbn [fst]; by apply Hfinal.
Qed.

End RunResult.

Lemma matches_of_app evs1 evs2 :
  matches_of (evs1 ++ evs2) = matches_of evs1 ++ matches_of evs2.
Proof. apply flat_map_app. Qed.

Lemma matches_of_no_calls evs : no_calls evs → matches_of evs = [].
Proof.
  induction 1 as [|e evs He H IH]; [done|].
  change (e :: evs) with ([e] ++ evs). rewrite matches_of_app, IH.
  by destruct e.
Qed.

Lemma edges_of_lines evs :
  FailureMatch.failure_line <$> edges_of evs = match_id <$> matches_of evs.
Proof.
  induction evs as [|e evs IH]; [done|].
  change (e :: evs) with ([e] ++ evs).
  rewrite edges_of_app, matches_of_app, !fmap_app, IH. f_equal.
  destruct e as [| |k input [ms|err]| | |]; try done.
  unfold edges_of, matches_of. simpl. rewrite !app_nil_r. apply edge_lines.
Qed.

Lemma record_match_saved k m sets w prev :
  stored_as_returned (store w) prev →
  stored_as_returned (store (record_match k m sets w).1) (prev ++ [m]).
Proof.
  intros Hprev. rewrite record_match_eq.
  intros x Hx. cbn [fst store]. unfold save_line, add_match.
  cbn [failure_lines]. fold (match_id m).
  destruct (decide (match_id x = match_id m)) as [E|N].
  - exists m. split; [apply elem_of_app; right; apply list_elem_of_here|].
    split; [done|]. rewrite E. apply lookup_insert_eq.
  - apply elem_of_app in Hx as [Hx|Hx].
    + destruct (Hprev x Hx) as (m' & Hm' & Hid & Hl).
      exists m'. split; [apply elem_of_app; by left|]. split; [done|].
      rewrite lookup_insert_ne; [done|]. intros E. by apply N.
    + apply list_elem_of_singleton in Hx. by subst x.
Qed.

Lemma record_matches_saved k ms :
  ∀ sets w prev sets',
    stored_as_returned (store w) prev →
    (record_matches k ms sets w).2 = Ok sets' →
    stored_as_returned (store (record_matches k ms sets w).1) (prev ++ ms).
Proof.
  induction ms as [|m ms IH]; intros sets w prev sets' Hprev Hok.
  - by rewrite app_nil_r.
  - rewrite record_matches_cons in *.
    pose proof (record_match_saved k m sets w prev Hprev) as Hs.
    destruct (record_match k m sets w) as [w1 [sets1|e]]; [|done].
    cbn [fst] in Hs. rewrite (cons_middle m prev ms), app_assoc.
    by eapply IH.
Qed.

Lemma run_matchers_saved matchers :
  ∀ sets w prev evs sets',
    stored_as_returned (store w) prev →
    (run_matchers matchers sets w).2 = Ok sets' →
    log (run_matchers matchers sets w).1 = log w ++ evs →
    stored_as_returned (store (run_matchers matchers sets w).1)
                       (prev ++ matches_of evs).
Proof.
  induction matchers as [|k rest IH]; intros sets w prev evs sets' Hprev Hok Hl.
  - simpl in Hl. rewrite <- (app_nil_r (log w)) in Hl at 1.
    apply app_inv_head in Hl as <-. by rewrite app_nil_r.
  - destruct (run_matchers_log_head k rest sets w) as [tail Ht].
    rewrite Hl in Ht. apply app_inv_head in Ht as ->.
    rewrite run_matchers_cons in *. cbv zeta in *.
    destruct (call k (store w) (set_items sets.1)) as [ms|e]; [|done].
    set (w0 := mkWorld _ _) in *.
    assert (Hprev0 : stored_as_returned (store w0) prev) by done.
    destruct (record_matches_grows k ms sets w0)
      as (_ & _ & _ & _ & (evs1 & Hl1 & Hnc1) & _).
    pose proof (record_matches_saved k ms sets w0 prev) as Hs.
    destruct (record_matches k ms sets w0) as [w1 [sets1|e]]; [|done].
    cbn [fst snd] in *. specialize (Hs _ Hprev0 eq_refl).
    change (ECallMatcher (db_object k) (set_items sets.1) (Ok ms) :: tail)
      with ([ECallMatcher (db_object k) (set_items sets.1) (Ok ms)] ++ tail).
    rewrite matches_of_app. unfold matches_of at 1. cbn [flat_map].
    rewrite app_nil_r.
    destruct (is_empty sets1.1); cbn [fst snd] in *.
    + assert (tail = evs1) as ->.
      { apply (app_inv_head (log w ++ [ECallMatcher (db_object k)
                                         (set_items sets.1) (Ok ms)])).
        rewrite <- !app_assoc. cbn [app]. rewrite <- Hl, Hl1.
        unfold w0. cbn [log]. by rewrite <- !app_assoc. }
      by rewrite matches_of_no_calls, app_nil_r.
    + destruct (run_matchers_grows rest sets1 w1) as (evs2 & ? & Hl2 & _).
      assert (tail = evs1 ++ evs2) as ->.
      { apply (app_inv_head (log w ++ [ECallMatcher (db_object k)
                                         (set_items sets.1) (Ok ms)])).
        rewrite <- !app_assoc. cbn [app]. rewrite <- Hl, Hl2, Hl1.
        unfold w0. cbn [log]. by rewrite <- !app_assoc. }
      rewrite matches_of_app, matches_of_no_calls by done. cbn [app].
      rewrite app_assoc. by eapply IH.
Qed.

Lemma best_automatic_match_candidate db failure_line best :
  best_automatic_match db failure_line AUTOCLASSIFY_CUTOFF_RATIO = Some best →
  candidate db failure_line best.
Proof.
  unfold best_automatic_match. intros H.
  apply candidate_filter. by eapply first_by_elem.
Qed.

Lemma resolve_best_None fl w :
  best_automatic_match (store w) fl AUTOCLASSIFY_CUTOFF_RATIO = None →
  store (resolve_best fl w).1 = store w.
Proof.
  unfold resolve_best, bind, read_store, ret. by intros ->.
Qed.

Lemma resolve_all_keeps lines :
  ∀ w fl,
    NoDup (FailureLine.id <$> lines) → fl ∈ lines →
    best_automatic_match (store w) fl AUTOCLASSIFY_CUTOFF_RATIO = None →
    failure_lines (store (resolve_all lines w).1) !! FailureLine.id fl
    = failure_lines (store w) !! FailureLine.id fl.
Proof.
  induction lines as [|fl0 lines IH]; intros w fl Hnd Hin Hb.
  - by apply elem_of_nil in Hin.
  - rewrite resolve_all_cons. rewrite fmap_cons in Hnd.
    apply NoDup_cons in Hnd as [Hfl0 Hnd].
    destruct (resolve_best_lines fl0 w) as (He & Hother & _).
    apply elem_of_cons in Hin as [->|Hin].
    + destruct (resolve_all_grows lines (resolve_best fl0 w).1)
        as [_ (_ & _ & _ & _ & Hl')].
      rewrite Hl'; [by rewrite (resolve_best_None _ _ Hb)|].
      unfold line_ids. by rewrite elem_of_list_to_set.
    + rewrite <- (best_automatic_match_same_edges _ _ _ He) in Hb.
      rewrite (IH _ _ Hnd Hin Hb). apply Hother.
      intros E. apply Hfl0. rewrite <- E. apply list_elem_of_fmap.
      by exists fl.
Qed.

Section RunTouched.
Variable unmatched_for_job : Store → string → string → list FailureLine.t.
Variable registered_matchers : list Matcher.

(** C3.  When a run returns, for the line of every match that a matcher
    returned in it (a touched line): if an edge of the line has a score of
    at least the cutoff ratio, the line is stored with the
    [best_classification] of an edge of the line with such a score that no
    other such edge beats, by score and then by classified-failure id; if no
    edge of the line has such a score, the line is stored as a matcher
    returned it: the run has not assigned its [best_classification]. *)
Theorem C3_best_classification repository job_guid w evs m :
  let out := match_errors unmatched_for_job registered_matchers
               repository job_guid w in
  let failure_line := Match.failure_line m in
  out.2 = Ok tt →
  log out.1 = log w ++ evs →
  m ∈ matches_of evs →
  ((∃ fm, candidate (store out.1) failure_line fm) →
   ∃ stored best,
     failure_lines (store out.1) !! FailureLine.id failure_line = Some stored
     ∧ FailureLine.best_classification stored
       = Some (FailureMatch.classified_failure best)
     ∧ candidate (store out.1) failure_line best
     ∧ ∀ fm, candidate (store out.1) failure_line fm →
             (FailureMatch.score fm < FailureMatch.score best)%Q
             ∨ ((FailureMatch.score fm == FailureMatch.score best)%Q
                ∧ FailureMatch.classified_failure fm
                  ≤ FailureMatch.classified_failure best))
  ∧ ((¬ ∃ fm, candidate (store out.1) failure_line fm) →
     ∃ m', m' ∈ matches_of evs
           ∧ match_id m' = match_id m
           ∧ failure_lines (store out.1) !! FailureLine.id failure_line
             = Some (Match.failure_line m')).
Proof.
  cbv zeta. rewrite match_errors_eq. cbv zeta.
  assert (Hnone : ∀ evs0, no_calls evs0 → log w ++ evs0 = log w ++ evs →
                          m ∈ matches_of evs → False).
  { intros evs0 Hnc He%app_inv_head. subst evs0.
    rewrite matches_of_no_calls by done. by intros ?%elem_of_nil. }
  destruct (jobs (store w) !! job_guid) as [job|].
  2:{ intros _ Hl Hm. destruct (Hnone [EGetJob job_guid]); try done.
      by repeat constructor. }
  destruct (negb _).
  { intros _ Hl Hm. destruct (Hnone [EGetJob job_guid]); try done.
    by repeat constructor. }
  destruct (is_empty (set_of_list _)).
  { intros _ Hl Hm.
    destruct (Hnone [EGetJob job_guid; EUnmatchedForJob repository job_guid]);
      try done. by repeat constructor. }
  set (w1 := mkWorld _ _). set (sets0 := (set_of_list _, ∅)).
  destruct (run_matchers_grows registered_matchers sets0 w1)
    as (evsR & edges & HlR & Hg & _ & Hok).
  pose proof (run_matchers_saved registered_matchers sets0 w1 [] evsR)
    as Hsaved.
  destruct (run_matchers registered_matchers sets0 w1) as [w2 [sets|e]];
    [|done]. cbn [fst snd] in *.
  destruct (Hok _ eq_refl) as (-> & Hd & Hk).
  unfold sets0 in Hd, Hk. cbn [snd] in Hd, Hk.
  rewrite dom_empty_L, (left_id_L ∅ (∪)) in Hd. specialize (Hk keyed_empty).
  specialize (Hsaved sets ltac:(by intros ? ?%elem_of_nil) eq_refl HlR).
  cbn [app] in Hsaved.
  destruct (resolve_all_log (set_items sets.2) w2) as (evs3 & Hl3 & Hnc3).
  set (w3 := (resolve_all (set_items sets.2) w2).1) in *.
  intros Hret Hl Hm.
  assert (Hevs : matches_of evs = matches_of evsR).
  { destruct (is_empty sets.2); cbn [fst log] in Hl;
      rewrite Hl3, HlR in Hl; unfold w1 in Hl; cbn [log] in Hl;
      rewrite <- !app_assoc in Hl; apply app_inv_head in Hl; subst evs;
      cbn [app];
      change (EGetJob job_guid :: EUnmatchedForJob repository job_guid :: ?l)
        with ([EGetJob job_guid; EUnmatchedForJob repository job_guid] ++ l);
      rewrite !matches_of_app, (matches_of_no_calls evs3) by done;
      cbn; by rewrite ?app_nil_r. }
  rewrite Hevs in *. clear Hl Hret Hevs.
  assert (Hi : match_id m ∈ dom sets.2).
  { rewrite Hd, edges_of_lines, elem_of_list_to_set.
    apply list_elem_of_fmap. by exists m. }
  apply elem_of_dom in Hi as [fl Hfl].
  pose proof (Hk _ _ Hfl) as Hid.
  assert (Hin : fl ∈ set_items sets.2).
  { unfold set_items. apply list_elem_of_fmap.
    exists (match_id m, fl). split; [done|].
    by apply elem_of_map_to_list. }
  assert (Hnd : NoDup (FailureLine.id <$> set_items sets.2)).
  { rewrite set_items_ids by done. apply NoDup_fst_map_to_list. }
  destruct (resolve_all_grows (set_items sets.2) w2)
    as [_ (_ & _ & He3 & _)]. fold w3 in He3. rewrite app_nil_r in He3.
  assert (Hfinal : ∀ P : Store → Prop,
             (∀ w4 : World,
                failure_matches (store w4) = failure_matches (store w3) →
                failure_lines (store w4) = failure_lines (store w3) →
                P (store w4)) →
             P (store (if is_empty sets.2 then (w3, Ok ())
                       else (mkWorld (add_notified (Job.id job) (store w3))
                               (log w3 ++ [ENotify (Job.id job)]),
                             Ok ())).1)).
  { intros P HP. destruct (is_empty sets.2); cbn [fst]; by apply HP. }
  apply Hfinal. intros w4 E4 L4. clear Hfinal. rewrite L4.
  unfold match_id in Hid. split.
  - intros [fm Hfm].
    assert (Hc : candidate (store w2) fl fm).
    { eapply candidate_same_edges; [| |exact Hfm];
        [by rewrite E4, He3|done]. }
    destruct (best_automatic_match_best _ _ _ Hc) as (best & Hb & Hbc & Hbest).
    destruct (resolve_all_lines _ w2 fl best Hnd Hin Hb) as [_ Hl3'].
    fold w3 in Hl3'. rewrite Hid in Hl3'.
    exists (FailureLine.set_best_classification fl
              (FailureMatch.classified_failure best)), best.
    split; [done|]. split; [done|]. split.
    + eapply candidate_same_edges; [| |exact Hbc];
        [by rewrite E4, He3|done].
    + intros other Ho. apply Hbest.
      eapply candidate_same_edges; [| |exact Ho]; [by rewrite E4, He3|done].
  - intros Hno.
    assert (Hb : best_automatic_match (store w2) fl AUTOCLASSIFY_CUTOFF_RATIO
                 = None).
    { destruct (best_automatic_match _ _ _) as [best|] eqn:Hb; [|done].
      destruct Hno. exists best.
      apply best_automatic_match_candidate in Hb.
      eapply candidate_same_edges; [| |exact Hb];
        [by rewrite E4, He3|done]. }
    pose proof (resolve_all_keeps _ w2 fl Hnd Hin Hb) as Hkeep.
    fold w3 in Hkeep. rewrite Hid in Hkeep.
    destruct (Hsaved m Hm) as (m' & Hm' & Hid' & Hst).
    exists m'. split; [done|]. split; [done|].
    rewrite Hkeep. exact Hst.
Qed.

End RunTouched.

(** Scenario B: the crash line, stored without a classification before the
    run, is stored with the classified failure 9 after it. *)
Lemma C3_best_classification_witness :
  let w := mkWorld Examples.db_failed [] in
  let out := match_errors Examples.lines_of_job
               (Examples.registered false Examples.steady_backend)
               "repo" "guid-6" w in
  let m := Match.mk Examples.new_crash 9 (8 * 1 / 10) in
  out.2 = Ok tt
  ∧ log out.1 = log w ++ log out.1
  ∧ m ∈ matches_of (log out.1)
  ∧ FailureLine.best_classification <$> (failure_lines (store w) !! 4)
    = Some None
  ∧ ∃ stored best,
      failure_lines (store out.1) !! 4 = Some stored
      ∧ FailureLine.best_classification stored
        = Some (FailureMatch.classified_failure best)
      ∧ candidate (store out.1) Examples.new_crash best
      ∧ FailureMatch.classified_failure best = 9.
Proof.
  intros w out m.
  assert (H1 : out.2 = Ok tt) by (vm_compute; reflexivity).
  assert (H2 : log out.1 = log w ++ log out.1) by reflexivity.
  assert (H3 : m ∈ matches_of (log out.1))
    by (vm_compute; apply list_elem_of_here).
  assert (H4 : ∃ fm, candidate (store out.1) (Match.failure_line m) fm).
  { exists (FailureMatch.mk 4 9 2 (8 # 10)). split; [|split].
    - vm_compute. apply list_elem_of_further, list_elem_of_here.
    - reflexivity.
    - vm_compute. discriminate. }
  assert (H5 : failure_lines (store out.1) !! 4
               = Some (FailureLine.set_best_classification Examples.new_crash 9))
    by (vm_compute; reflexivity).
  destruct (proj1 (C3_best_classification Examples.lines_of_job
                     (Examples.registered false Examples.steady_backend)
                     "repo" "guid-6" w (log out.1) m H1 H2 H3) H4)
    as (stored & best & Hs & Hb & Hc & _).
  split; [exact H1|]. split; [exact H2|]. split; [exact H3|].
  split; [vm_compute; reflexivity|].
  exists stored, best. split; [exact Hs|]. split; [exact Hb|].
  split; [exact Hc|].
  pose proof (eq_trans (eq_sym Hs) H5) as Hst. injection Hst as ->.
  by injection Hb.
Defined.

(** The line of a match below the cutoff is stored as the matcher returned
    it: without a classification. *)
Example run_below_cutoff :
  let run := match_errors Examples.lines_of_job
               (Examples.registered false Examples.steady_backend)
               "repo" "guid-8" (mkWorld Cases.db_below_cutoff []) in
  run.2 = Ok tt
  ∧ matches_of (log run.1) = [Match.mk Examples.new_line 7 (5 # 10)]
  ∧ failure_lines (store run.1) !! 2 = Some Examples.new_line
  ∧ FailureLine.best_classification Examples.new_line = None.
Proof. vm_compute. done. Qed.

(** ** The thresholds *)

(** The two thresholds are floats: the one is below 7/10, the other above
    9/10.  A decimal 0.70 passes the cutoff; a decimal 0.90 is not good
    enough, while the ratio of 9 matches in 20 elements, a float, is. *)
Example thresholds :
  AUTOCLASSIFY_CUTOFF_RATIO = (3152519739159347 # 4503599627370496)%Q
  ∧ AUTOCLASSIFY_GOOD_ENOUGH_RATIO = (8106479329266893 # 9007199254740992)%Q
  ∧ (AUTOCLASSIFY_CUTOFF_RATIO < 7 # 10)%Q
  ∧ (9 # 10 < AUTOCLASSIFY_GOOD_ENOUGH_RATIO)%Q
  ∧ Qle_bool AUTOCLASSIFY_CUTOFF_RATIO (70 # 100) = true
  ∧ Qle_bool AUTOCLASSIFY_GOOD_ENOUGH_RATIO (90 # 100) = false
  ∧ Qle_bool AUTOCLASSIFY_GOOD_ENOUGH_RATIO (calculate_ratio 9 20) = true.
Proof. vm_compute. done. Qed.

(** C4.  A run in which the first matcher returns a match with the score
    0.90 of a stored edge: the score is at least 9/10, the match does not
    pass the test [score >= AUTOCLASSIFY_GOOD_ENOUGH_RATIO], and the line is
    passed to the two later matchers. *)
Lemma C4_score_at_threshold_is_not_removed :
  let run := match_errors Examples.lines_of_job
               (Examples.registered false Examples.steady_backend)
               "repo" "guid-8" (mkWorld Cases.db_at_threshold []) in
  let m := Match.mk Examples.new_line 7 (90 # 100) in
  (9 # 10 <= Match.score m)%Q
  ∧ good_enough m = false
  ∧ PreciseTestMatcher.call Cases.db_at_threshold [Examples.new_line] = [m]
  ∧ run.2 = Ok tt
  ∧ log run.1
    = [ EGetJob "guid-8"; EUnmatchedForJob "repo" "guid-8";
        ECallMatcher 1 [Examples.new_line] (Ok [m]);
        EAddMatch (FailureMatch.mk 2 7 1 (90 # 100));
        ESaveLine Examples.new_line;
        ECallMatcher 2 [Examples.new_line] (Ok []);
        ECallMatcher 3 [Examples.new_line] (Ok []);
        ESaveLine (FailureLine.set_best_classification Examples.new_line 7);
        ENotify 8 ]
  ∧ calls_of (log run.1) = [(1, [2]); (2, [2]); (3, [2])].
Proof. vm_compute. repeat split; done. Qed.

(** ** The benchmark *)

Lemma failure_lines_by_job_snoc lines line :
  EsBenchmark.failure_lines_by_job (lines ++ [line])
  = EsBenchmark.append_line (EsBenchmark.failure_lines_by_job lines) line.
Proof. unfold EsBenchmark.failure_lines_by_job. by rewrite fold_left_app. Qed.

Lemma total_lines_insert by_job g l :
  by_job !! g = None →
  EsBenchmark.total_lines (<[g := l]> by_job)
  = EsBenchmark.total_lines by_job + length l.
Proof.
  intros H. unfold EsBenchmark.total_lines.
  rewrite map_fold_insert_L; [done| |done].
  intros. lia.
Qed.

Lemma total_lines_append by_job line :
  EsBenchmark.total_lines (EsBenchmark.append_line by_job line)
  = EsBenchmark.total_lines by_job + 1.
Proof.
  unfold EsBenchmark.append_line.
  set (g := FailureLine.job_guid line).
  destruct (by_job !! g) as [l|] eqn:E; simpl.
  - assert (Hm : by_job = <[g := l]> (delete g by_job))
      by (symmetry; by apply insert_delete_id).
    rewrite Hm at 2. rewrite <- (insert_delete_eq by_job).
    rewrite !total_lines_insert by apply lookup_delete_eq.
    rewrite length_app. simpl. lia.
  - by rewrite total_lines_insert.
Qed.

(** X21.  The benchmark's [failure_lines_by_job] maps a job guid to the lines
    of that job, in the order of the input, and has no entry for a job
    without lines. *)
Theorem benchmark_groups_lines_by_job failure_lines job_guid :
  EsBenchmark.failure_lines_by_job failure_lines !! job_guid
  = match List.filter (λ line, bool_decide (FailureLine.job_guid line = job_guid))
                      failure_lines with
    | [] => None
    | group => Some group
    end.
Proof.
  induction failure_lines as [|line lines IH] using rev_ind; [done|].
  rewrite failure_lines_by_job_snoc, List.filter_app.
  unfold EsBenchmark.append_line. cbn [List.filter].
  case_bool_decide as Hg.
  - rewrite Hg, lookup_insert_eq, IH.
    by destruct (List.filter _ lines).
  - rewrite lookup_insert_ne, IH, app_nil_r by done. done.
Qed.

(** X22.  The benchmark's [total_lines] is the number of the failure lines
    it read: the groups lose and repeat no line. *)
Theorem benchmark_counts_every_line failure_lines :
  EsBenchmark.total_lines (EsBenchmark.failure_lines_by_job failure_lines)
  = length failure_lines.
Proof.
  induction failure_lines as [|line lines IH] using rev_ind; [done|].
  rewrite failure_lines_by_job_snoc, total_lines_append, IH, length_app.
  done.
Qed.

(** ** Instances of the statements *)

Lemma precise_match_is_best_candidate_witness :
  Match.mk Examples.new_line 7 (5 # 10)
    ∈ PreciseTestMatcher.call Examples.db_unverified [Examples.new_line]
  ∧ FailureLine.action Examples.new_line = "test_result"%string.
Proof.
  assert (H : Match.mk Examples.new_line 7 (5 # 10)
                ∈ PreciseTestMatcher.call Examples.db_unverified
                    [Examples.new_line]).
  { assert (Hc : PreciseTestMatcher.call Examples.db_unverified
                   [Examples.new_line]
                 = [Match.mk Examples.new_line 7 (5 # 10)])
      by (vm_compute; reflexivity).
    rewrite Hc. apply list_elem_of_here. }
  split; [exact H|].
  exact (proj1 (proj2 (precise_match_is_best_candidate
                         Examples.db_unverified [Examples.new_line] _ H))).
Defined.

Lemma crash_prefers_same_test_witness :
  let m := Match.mk Examples.new_crash 8 (6 # 10) in
  let row := (Examples.crash_edge, Examples.old_crash) in
  let same := (Cases.same_test_edge, Cases.same_test_crash) in
  m ∈ CrashSignatureMatcher.call Cases.db_two_crashes [Examples.new_crash]
  ∧ row ∈ CrashSignatureMatcher.matching_failures Cases.db_two_crashes
            Examples.new_crash
  ∧ (FailureMatch.score same.1 < FailureMatch.score row.1)%Q
  ∧ same ∈ CrashSignatureMatcher.matching_failures Cases.db_two_crashes
             Examples.new_crash
  ∧ FailureLine.test same.2 = FailureLine.test Examples.new_crash
  ∧ ∃ best : Row,
      best ∈ CrashSignatureMatcher.matching_failures Cases.db_two_crashes
               Examples.new_crash
      ∧ FailureLine.test best.2 = FailureLine.test Examples.new_crash
      ∧ Match.classified_failure m = FailureMatch.classified_failure best.1
      ∧ Match.score m = FailureMatch.score best.1
      ∧ ((FailureMatch.score same.1 < FailureMatch.score best.1)%Q
         ∨ ((FailureMatch.score same.1 == FailureMatch.score best.1)%Q
            ∧ FailureMatch.classified_failure same.1
              ≤ FailureMatch.classified_failure best.1)).
Proof.
  cbv zeta.
  assert (Hc : CrashSignatureMatcher.call Cases.db_two_crashes
                 [Examples.new_crash]
               = [Match.mk Examples.new_crash 8 (6 # 10)])
    by (vm_compute; reflexivity).
  assert (Hf : CrashSignatureMatcher.matching_failures Cases.db_two_crashes
                 Examples.new_crash
               = [(Examples.crash_edge, Examples.old_crash);
                  (Cases.same_test_edge, Cases.same_test_crash)])
    by (vm_compute; reflexivity).
  assert (H1 : Match.mk Examples.new_crash 8 (6 # 10)
                 ∈ CrashSignatureMatcher.call Cases.db_two_crashes
                     [Examples.new_crash])
    by (rewrite Hc; apply list_elem_of_here).
  assert (H2 : (Cases.same_test_edge, Cases.same_test_crash)
                 ∈ CrashSignatureMatcher.matching_failures
                     Cases.db_two_crashes Examples.new_crash)
    by (rewrite Hf; apply list_elem_of_further, list_elem_of_here).
  assert (H3 : FailureLine.test Cases.same_test_crash
               = FailureLine.test Examples.new_crash) by reflexivity.
  split; [exact H1|].
  split; [rewrite Hf; apply list_elem_of_here|].
  split; [reflexivity|]. split; [exact H2|]. split; [exact H3|].
  exact (crash_prefers_same_test Cases.db_two_crashes [Examples.new_crash]
           (Match.mk Examples.new_crash 8 (6 # 10))
           (Cases.same_test_edge, Cases.same_test_crash) H1 H2 H3).
Defined.

Lemma db_crash_in_range : scores_in_range Examples.db_crash.
Proof.
  intros fm Hfm. apply list_elem_of_singleton in Hfm as ->.
  split; by apply Qle_bool_imp_le.
Qed.

Lemma db_failed_in_range : scores_in_range Examples.db_failed.
Proof.
  intros fm Hfm. apply list_elem_of_singleton in Hfm as ->.
  split; by apply Qle_bool_imp_le.
Qed.

Lemma crash_other_test_not_good_enough_witness :
  let m := Match.mk Examples.new_crash 9 (8 * 1 / 10) in
  scores_in_range Examples.db_crash
  ∧ m ∈ CrashSignatureMatcher.call Examples.db_crash [Examples.new_crash]
  ∧ (Match.score m <= 8 # 10)%Q
  ∧ good_enough m = false.
Proof.
  cbv zeta.
  assert (H1 : Match.mk Examples.new_crash 9 (8 * 1 / 10)
                 ∈ CrashSignatureMatcher.call Examples.db_crash
                     [Examples.new_crash]).
  { assert (Hc : CrashSignatureMatcher.call Examples.db_crash
                   [Examples.new_crash]
                 = [Match.mk Examples.new_crash 9 (8 * 1 / 10)])
      by (vm_compute; reflexivity).
    rewrite Hc. apply list_elem_of_here. }
  assert (H2 : ∀ row,
             row ∈ CrashSignatureMatcher.matching_failures Examples.db_crash
                     Examples.new_crash →
             FailureLine.test row.2 ≠ FailureLine.test Examples.new_crash).
  { assert (Hf : CrashSignatureMatcher.matching_failures Examples.db_crash
                   Examples.new_crash
                 = [(Examples.crash_edge, Examples.old_crash)])
      by (vm_compute; reflexivity).
    rewrite Hf. intros row Hrow.
    apply list_elem_of_singleton in Hrow as ->. discriminate. }
  split; [exact db_crash_in_range|]. split; [exact H1|].
  exact (crash_other_test_not_good_enough Examples.db_crash
           [Examples.new_crash] _ db_crash_in_range H1 H2).
Defined.

Lemma matchers_return_unit_scores_witness :
  scores_in_range Examples.db_crash
  ∧ ∀ m, m ∈ CrashSignatureMatcher.call Examples.db_crash [Examples.new_crash] →
         unit_score (Match.score m).
Proof.
  split; [exact db_crash_in_range|].
  exact (proj1 (proj2 (matchers_return_unit_scores Examples.db_crash
                         [Examples.new_crash] db_crash_in_range))).
Defined.

Lemma search_call_example :
  ElasticSearchTestMatcher.call true Examples.steady_backend [0]
    Examples.db_classified [Examples.line_b]
  = Ok [Match.mk Examples.line_b 7 (calculate_ratio 10 22)].
Proof. vm_compute. reflexivity. Qed.

Lemma search_match_is_best_hit_witness :
  let m := Match.mk Examples.line_b 7 (calculate_ratio 10 22) in
  schedule_of 1 [0]
  ∧ ElasticSearchTestMatcher.call true Examples.steady_backend [0]
      Examples.db_classified [Examples.line_b] = Ok [m]
  ∧ m ∈ [m]
  ∧ Match.failure_line m ∈ [Examples.line_b].
Proof.
  cbv zeta.
  assert (H1 : schedule_of 1 [0]) by apply Permutation_refl.
  assert (H3 : Match.mk Examples.line_b 7 (calculate_ratio 10 22)
                 ∈ [Match.mk Examples.line_b 7 (calculate_ratio 10 22)])
    by apply list_elem_of_here.
  split; [exact H1|]. split; [exact search_call_example|].
  split; [exact H3|].
  exact (proj1 (search_match_is_best_hit true Examples.steady_backend [0]
                  Examples.db_classified [Examples.line_b] _ _
                  H1 search_call_example H3)).
Defined.

Lemma search_matched_lines_witness :
  let m := Match.mk Examples.line_b 7 (calculate_ratio 10 22) in
  schedule_of 1 [0]
  ∧ ElasticSearchTestMatcher.call true Examples.steady_backend [0]
      Examples.db_classified [Examples.line_b] = Ok [m]
  ∧ ((∃ m', m' ∈ [m] ∧ Match.failure_line m' = Examples.line_b)
     ↔ Examples.line_b ∈ [Examples.line_b]
       ∧ ∃ hit hits,
           Examples.steady_backend (search_of Examples.line_b)
           = Ok (hit :: hits)).
Proof.
  cbv zeta.
  assert (H1 : schedule_of 1 [0]) by apply Permutation_refl.
  split; [exact H1|]. split; [exact search_call_example|].
  exact (search_matched_lines Examples.steady_backend [0]
           Examples.db_classified [Examples.line_b] _ Examples.line_b
           H1 search_call_example).
Defined.

Lemma search_matcher_rejects_other_lines_witness :
  let failure_lines := [Examples.line_b; Examples.new_crash] in
  schedule_of 2 [1; 0]
  ∧ Examples.new_crash ∈ failure_lines
  ∧ FailureLine.action Examples.new_crash ≠ "test_result"%string
  ∧ ∃ e,
      ElasticSearchTestMatcher.call true Examples.steady_backend [1; 0]
        Examples.db_classified failure_lines = Fault e
      ∧ (e = TypeError ∨ e = DoesNotExist
         ∨ ∃ failed, failed ∈ failure_lines
                     ∧ Examples.steady_backend (search_of failed) = Fault e).
Proof.
  cbv zeta.
  assert (H1 : schedule_of 2 [1; 0]) by apply perm_swap.
  assert (H2 : Examples.new_crash ∈ [Examples.line_b; Examples.new_crash])
    by apply list_elem_of_further, list_elem_of_here.
  assert (H3 : FailureLine.action Examples.new_crash ≠ "test_result"%string)
    by discriminate.
  split; [exact H1|]. split; [exact H2|]. split; [exact H3|].
  exact (search_matcher_rejects_other_lines Examples.steady_backend [1; 0]
           Examples.db_classified [Examples.line_b; Examples.new_crash]
           Examples.new_crash H1 H2 (or_introl H3)).
Defined.

Lemma run_notifies_iff_matched_witness :
  let w := mkWorld Examples.db_failed [] in
  let out := match_errors Examples.lines_of_job
               (Examples.registered false Examples.steady_backend)
               "repo" "guid-6" w in
  jobs (store w) !! "guid-6"%string = Some Examples.failed_job
  ∧ out.2 = Ok tt
  ∧ ((failure_matches (store out.1) = failure_matches (store w)
      ∧ notified (store out.1) = notified (store w))
     ∨ (failure_matches (store out.1) ≠ failure_matches (store w)
        ∧ notified (store out.1)
          = notified (store w) ++ [Job.id Examples.failed_job])).
Proof.
  cbv zeta.
  assert (H1 : jobs (store (mkWorld Examples.db_failed []))
                 !! "guid-6"%string = Some Examples.failed_job)
    by (vm_compute; reflexivity).
  assert (H2 : (match_errors Examples.lines_of_job
                  (Examples.registered false Examples.steady_backend)
                  "repo" "guid-6" (mkWorld Examples.db_failed [])).2 = Ok tt)
    by (vm_compute; reflexivity).
  split; [exact H1|]. split; [exact H2|].
  exact (proj1 (run_notifies_iff_matched Examples.lines_of_job
                  (Examples.registered false Examples.steady_backend)
                  "repo" "guid-6" (mkWorld Examples.db_failed [])
                  Examples.failed_job H1) H2).
Defined.

Lemma run_raises_only_what_a_matcher_raised_witness :
  let out := match_errors Examples.lines_of_job
               (Examples.registered true Examples.steady_backend)
               "repo" "guid-6" (mkWorld Examples.db_failed []) in
  Forall well_behaved (Examples.registered true Examples.steady_backend)
  ∧ (out.2 = Ok tt
     ∨ ∃ pre k input e,
         log out.1 = pre ++ [ECallMatcher k input (Fault e)]
         ∧ out.2 = Fault e).
Proof.
  cbv zeta. split; [exact (registered_well_behaved _ _)|].
  exact (run_raises_only_what_a_matcher_raised Examples.lines_of_job
           (Examples.registered true Examples.steady_backend)
           "repo" "guid-6" (mkWorld Examples.db_failed [])
           (registered_well_behaved _ _)).
Defined.

Lemma run_keeps_scores_in_range_witness :
  let w := mkWorld Examples.db_failed [] in
  scores_in_range (store w)
  ∧ scores_in_range
      (store (match_errors Examples.lines_of_job
                (Examples.registered false Examples.steady_backend)
                "repo" "guid-6" w).1).
Proof.
  cbv zeta. split; [exact db_failed_in_range|].
  exact (run_keeps_scores_in_range Examples.lines_of_job
           (Examples.registered false Examples.steady_backend)
           "repo" "guid-6" (mkWorld Examples.db_failed [])
           (λ k db input ms m,
              registered_unit_scores false Examples.steady_backend
                k db input ms m)
           db_failed_in_range).
Defined.

Lemma second_good_match_raises_witness :
  let ms := [Cases.good_match; Cases.good_match] in
  ms !! 0 = Some Cases.good_match
  ∧ ms !! 1 = Some Cases.good_match
  ∧ 0 < 1
  ∧ good_enough Cases.good_match = true
  ∧ (record_matches Cases.silent ms (set_of_list [Examples.new_line], ∅)
       (mkWorld Examples.db_unverified [])).2 = Fault KeyError.
Proof.
  cbv zeta.
  assert (Hg : good_enough Cases.good_match = true) by reflexivity.
  split; [reflexivity|]. split; [reflexivity|]. split; [lia|].
  split; [exact Hg|].
  exact (second_good_match_raises Cases.silent
           [Cases.good_match; Cases.good_match]
           (set_of_list [Examples.new_line], ∅)
           (mkWorld Examples.db_unverified []) 0 1
           Cases.good_match Cases.good_match
           eq_refl eq_refl (Nat.lt_0_1) eq_refl Hg Hg).
Defined.

Lemma unresolved_lines_reach_every_matcher_witness :
  let w := mkWorld Examples.db_failed [] in
  let out := match_errors Examples.lines_of_job
               (Examples.registered false Examples.steady_backend)
               "repo" "guid-6" w in
  jobs (store w) !! "guid-6"%string = Some Examples.failed_job
  ∧ Forall leaves_unresolved (log out.1)
  ∧ calls_of (log out.1)
    = (λ k, (db_object k,
             FailureLine.id
               <$> set_items (set_of_list
                                (Examples.lines_of_job (store w) "repo"
                                                       "guid-6"))))
        <$> Examples.registered false Examples.steady_backend.
Proof.
  cbv zeta.
  assert (H1 : jobs (store (mkWorld Examples.db_failed []))
                 !! "guid-6"%string = Some Examples.failed_job)
    by (vm_compute; reflexivity).
  assert (H2 : Job.result Examples.failed_job
                 ∈ ["testfailed"; "busted"; "exception"]%string)
    by apply list_elem_of_here.
  assert (H3 : Examples.lines_of_job
                 (store (mkWorld Examples.db_failed [])) "repo" "guid-6"
               ≠ []) by (vm_compute; discriminate).
  assert (H5 : Forall leaves_unresolved
                 (log (match_errors Examples.lines_of_job
                         (Examples.registered false Examples.steady_backend)
                         "repo" "guid-6" (mkWorld Examples.db_failed [])).1)).
  { vm_compute.
    repeat (apply Forall_cons_2; [first [exact I | eexists; split;
      [reflexivity|repeat (apply Forall_cons_2; [reflexivity|]);
                   apply Forall_nil_2]]|]).
    apply Forall_nil_2. }
  split; [exact H1|]. split; [exact H5|].
  exact (unresolved_lines_reach_every_matcher Examples.lines_of_job
           (Examples.registered false Examples.steady_backend)
           "repo" "guid-6" (mkWorld Examples.db_failed [])
           Examples.failed_job _ H1 H2 H3 eq_refl H5).
Defined.

Lemma run_classifies_matched_lines_witness :
  let w := mkWorld Examples.db_failed [] in
  let out := match_errors Examples.lines_of_job
               (Examples.registered false Examples.steady_backend)
               "repo" "guid-6" w in
  let fm := FailureMatch.mk 4 9 2 (8 * 1 / 10) in
  out.2 = Ok tt
  ∧ fm ∈ edges_of (log out.1)
  ∧ (AUTOCLASSIFY_CUTOFF_RATIO <= FailureMatch.score fm)%Q
  ∧ ∃ failure_line best,
      failure_lines (store out.1) !! 4 = Some failure_line
      ∧ FailureLine.id failure_line = 4
      ∧ FailureLine.best_classification failure_line
        = Some (FailureMatch.classified_failure best)
      ∧ candidate (store out.1) failure_line best
      ∧ ∀ other, candidate (store out.1) failure_line other →
                 (FailureMatch.score other < FailureMatch.score best)%Q
                 ∨ ((FailureMatch.score other == FailureMatch.score best)%Q
                    ∧ FailureMatch.classified_failure other
                      ≤ FailureMatch.classified_failure best).
Proof.
  cbv zeta.
  assert (H1 : (match_errors Examples.lines_of_job
                  (Examples.registered false Examples.steady_backend)
                  "repo" "guid-6" (mkWorld Examples.db_failed [])).2 = Ok tt)
    by (vm_compute; reflexivity).
  assert (H3 : FailureMatch.mk 4 9 2 (8 * 1 / 10)
                 ∈ edges_of
                     (log (match_errors Examples.lines_of_job
                             (Examples.registered false Examples.steady_backend)
                             "repo" "guid-6"
                             (mkWorld Examples.db_failed [])).1)).
  { assert (He : edges_of
                   (log (match_errors Examples.lines_of_job
                           (Examples.registered false Examples.steady_backend)
                           "repo" "guid-6"
                           (mkWorld Examples.db_failed [])).1)
                 = [FailureMatch.mk 4 9 2 (8 * 1 / 10)])
      by (vm_compute; reflexivity).
    rewrite He. apply list_elem_of_here. }
  assert (H4 : (AUTOCLASSIFY_CUTOFF_RATIO
                <= FailureMatch.score (FailureMatch.mk 4 9 2 (8 * 1 / 10)))%Q)
    by (by apply Qle_bool_imp_le).
  split; [exact H1|]. split; [exact H3|]. split; [exact H4|].
  exact (run_classifies_matched_lines Examples.lines_of_job
           (Examples.registered false Examples.steady_backend)
           "repo" "guid-6" (mkWorld Examples.db_failed []) _
           (FailureMatch.mk 4 9 2 (8 * 1 / 10)) H1 eq_refl H3 H4).
Defined.
